(** * Colour-code tracking on bounding rectangles

    A shallow embedding of [colorCodeTrackingAlgoV02.cpp]: the rectangle
    stages of the tracker (area filter, dilation, cross-channel matching),
    the calibration sampler and the configuration file round trip.

    Conventions.
    - A C++ [int] is a [Z]; [/] on [int] truncates towards zero and is
      [Z.quot].  The arithmetic is the mathematical one, which is what the
      program computes as long as no [int] overflows.  Where a result
      depends on the size of an [int], [Module int32] has the operation
      with the 32-bit wrap-around of the compiled program written out, and
      the theorems on it assume that nothing overflows.
    - A [vector<T>] or a C array is a [list T]; reading or writing outside
      of it is undefined behaviour and makes the model return [None].
    - Loop counters that run from [0] to a size are [nat]. *)

From Stdlib Require Import ZArith List Ascii String Lia.
From Stdlib Require Import DecimalString DecimalPos DecimalZ.
From stdpp Require Import base option list.

Open Scope Z_scope.

(** ** Counted loops in the error monad *)

(** [for_range start count body s] runs [body start], [body (start+1)], ...
    [count] times, threading the state and stopping at the first failure:
    the C loop [for (i = start; i < start + count; i++) body]. *)
Fixpoint for_range {S : Type} (start count : nat)
    (body : nat -> S -> option S) (s : S) : option S :=
  match count with
  | O => Some s
  | Datatypes.S n => s' ← body start s; for_range (Datatypes.S start) n body s'
  end.

(** ** The part of OpenCV's [Rect_<int>] that the program uses *)

Module cv.

Record Rect : Type := mkRect { x : Z; y : Z; width : Z; height : Z }.

(** [Rect()]: the default rectangle. *)
Definition empty : Rect := mkRect 0 0 0 0.

(** Modelled from the spec: [Rect::area] is not in the repository; the
    spec's data model gives "Area = width × height". *)
Definition area (r : Rect) : Z := width r * height r.

(** Modelled from the spec: [operator&] on rectangles is not in the
    repository; the spec's data model gives "intersection (empty if no
    overlap)": the overlapping rectangle, and the default rectangle when
    the overlap has no width or no height. *)
Definition inter (a b : Rect) : Rect :=
  let x1 := Z.max (x a) (x b) in
  let y1 := Z.max (y a) (y b) in
  let w := Z.min (x a + width a) (x b + width b) - x1 in
  let h := Z.min (y a + height a) (y b + height b) - y1 in
  if (w <=? 0) || (h <=? 0) then empty else mkRect x1 y1 w h.

(** Modelled from the spec: [operator|] on rectangles is not in the
    repository; the spec's data model gives "union (smallest enclosing
    rectangle of both)". *)
Definition union (a b : Rect) : Rect :=
  let x1 := Z.min (x a) (x b) in
  let y1 := Z.min (y a) (y b) in
  mkRect x1 y1
    (Z.max (x a + width a) (x b + width b) - x1)
    (Z.max (y a + height a) (y b + height b) - y1).

End cv.

(** ** CrossChannelMatcher: [getCCRectBinary] *)

(** The objects [getCCRectBinary] receives by reference (or, for [ccRects],
    as a pointer to the caller's array). *)
Record CCArgs : Type := mkCCArgs {
  rectsChA : list cv.Rect;
  rectsChB : list cv.Rect;
  usedA : list Z;
  usedB : list Z;
  ccRects : list cv.Rect
}.

(** The locals of [getCCRectBinary] that the scan updates.  [iTarget] and
    [jTarget] are declared without an initial value: [None] until assigned. *)
Record Scan : Type := mkScan {
  selectedRect : cv.Rect;
  iTarget : option nat;
  jTarget : option nat;
  maxArea : Z
}.

Definition scan_init : Scan := mkScan cv.empty None None 0.

(** Body of the inner loop (lines 298-309) for the pair [(i, j)], with the
    areas in exact arithmetic; [int32.scan_pair] has them as [int]. *)
Definition scan_pair (st : CCArgs) (i j : nat) (s : Scan) : option Scan :=
  ua ← usedA st !! i;
  if negb (ua =? 0) then Some s else
  ub ← usedB st !! j;
  if negb (ub =? 0) then Some s else
  ra ← rectsChA st !! i;
  rb ← rectsChB st !! j;
  let tmpRect := cv.inter ra rb in
  if 0 <? cv.area tmpRect then
    let tmpRect := cv.union ra rb in
    if maxArea s <? cv.area tmpRect
    then Some (mkScan tmpRect (Some i) (Some j) (cv.area tmpRect))
    else Some s
  else Some s.

(** The two nested loops (lines 294-311). *)
Definition scanPairs (st : CCArgs) : option Scan :=
  let iMax := length (rectsChA st) in
  let jMax := length (rectsChB st) in
  for_range 0 iMax (fun i => for_range 0 jMax (fun j => scan_pair st i j)) scan_init.

(** [v[i] = a] on a vector or array: undefined outside of it. *)
Definition store {A : Type} (l : list A) (i : nat) (a : A) : option (list A) :=
  if decide (i < length l)%nat then Some (<[i := a]> l) else None.

(** The commit (lines 313-319). *)
Definition commit (st : CCArgs) (code : Z) (s : Scan) : option (Z * CCArgs) :=
  if 0 <? maxArea s then
    cc ← (if 0 <=? code then store (ccRects st) (Z.to_nat code) (selectedRect s)
          else None);
    i ← iTarget s;
    uA ← store (usedA st) i 1;
    j ← jTarget s;
    uB ← store (usedB st) j 1;
    Some (0, mkCCArgs (rectsChA st) (rectsChB st) uA uB cc)
  else Some (1, st).

Definition getCCRectBinary (st : CCArgs) (code : Z) : option (Z * CCArgs) :=
  s ← scanPairs st;
  commit st code s.

(** The pair the scan settles on, if any: [(iTarget, jTarget)] when the
    scan ends with [maxArea > 0]. *)
Definition selected (st : CCArgs) : option (nat * nat) :=
  s ← scanPairs st;
  if 0 <? maxArea s then i ← iTarget s; j ← jTarget s; Some (i, j) else None.

(** ** The three matching passes of [detectCCBlobs] (lines 208-220) *)

(** What the passes leave behind: the markers of the three channels, the
    array of colour-code rectangles and the rectangles drawn on the frame. *)
Record Matched : Type := mkMatched {
  usedRectsCh1 : list Z;
  usedRectsCh2 : list Z;
  usedRectsCh3 : list Z;
  myCCRects : list cv.Rect;
  drawn : list cv.Rect
}.

(** [rectangle(imgOriginal, myCCRects[code]...)] when the pass returned 0. *)
Definition draw_if_found (ret : Z) (cc : list cv.Rect) (code : nat)
    (frame : list cv.Rect) : option (list cv.Rect) :=
  if ret =? 0 then r ← cc !! code; Some (frame ++ [r]) else Some frame.

(** The arguments of the three calls, each built from the results of the
    calls before it: the marker arrays of a channel are shared. *)
Definition pass12 (rects1 rects2 : list cv.Rect) (cc : list cv.Rect) : CCArgs :=
  mkCCArgs rects1 rects2
    (replicate (length rects1) 0) (replicate (length rects2) 0) cc.

Definition pass13 (rects1 rects3 : list cv.Rect) (s12 : CCArgs) : CCArgs :=
  mkCCArgs rects1 rects3 (usedA s12) (replicate (length rects3) 0) (ccRects s12).

Definition pass23 (rects2 rects3 : list cv.Rect) (s12 s13 : CCArgs) : CCArgs :=
  mkCCArgs rects2 rects3 (usedB s12) (usedB s13) (ccRects s13).

Definition matchChannelPairs (rects1 rects2 rects3 : list cv.Rect)
    (cc : list cv.Rect) : option Matched :=
  '(r0, s12) ← getCCRectBinary (pass12 rects1 rects2 cc) 0;
  frame ← draw_if_found r0 (ccRects s12) 0 [];
  '(r1, s13) ← getCCRectBinary (pass13 rects1 rects3 s12) 1;
  frame ← draw_if_found r1 (ccRects s13) 1 frame;
  '(r2, s23) ← getCCRectBinary (pass23 rects2 rects3 s12 s13) 2;
  frame ← draw_if_found r2 (ccRects s23) 2 frame;
  Some (mkMatched (usedA s13) (usedA s23) (usedB s23) (ccRects s23) frame).

(** ** RegionExpander: [dilateRects] *)

(** Body of the loop (lines 262-267) for the rectangle at index [i]; the
    four fields are updated one after the other, as in the source.  The
    arithmetic is exact; [int32.dilate_at] has it on [int]. *)
Definition dilate_at (factor : Z) (i : nat) (myRect : list cv.Rect)
    : option (list cv.Rect) :=
  r ← myRect !! i;
  let dW := cv.width r * factor ÷ 100 in
  let dH := cv.height r * factor ÷ 100 in
  let r := cv.mkRect (cv.x r) (cv.y r) (cv.width r + dW) (cv.height r) in
  let r := cv.mkRect (cv.x r) (cv.y r) (cv.width r) (cv.height r + dH) in
  let r := cv.mkRect (cv.x r - dW ÷ 2) (cv.y r) (cv.width r) (cv.height r) in
  let r := cv.mkRect (cv.x r) (cv.y r - dH ÷ 2) (cv.width r) (cv.height r) in
  store myRect i r.

Definition dilateRects (factor : Z) (myRect : list cv.Rect)
    : option (list cv.Rect) :=
  let count := length myRect in
  for_range 0 count (dilate_at factor) myRect.

(** The expansion of one region in the words of the specification:
    [newWidth = width + width*factor/100], [newHeight = height +
    height*factor/100], then [x -= dWidth/2] and [y -= dHeight/2] with
    [dWidth = newWidth - width] and [dHeight = newHeight - height]. *)
Definition spec_expand (factor : Z) (r : cv.Rect) : cv.Rect :=
  let newWidth := cv.width r + cv.width r * factor ÷ 100 in
  let newHeight := cv.height r + cv.height r * factor ÷ 100 in
  let dWidth := newWidth - cv.width r in
  let dHeight := newHeight - cv.height r in
  cv.mkRect (cv.x r - dWidth ÷ 2) (cv.y r - dHeight ÷ 2) newWidth newHeight.

(** Twice the centre of a region along each axis (the centre itself is a
    half-integer when the side is odd), and the centre as [int] arithmetic
    computes it. *)
Definition centre2_x (r : cv.Rect) : Z := 2 * cv.x r + cv.width r.
Definition centre2_y (r : cv.Rect) : Z := 2 * cv.y r + cv.height r.
Definition centre_x (r : cv.Rect) : Z := cv.x r + cv.width r ÷ 2.
Definition centre_y (r : cv.Rect) : Z := cv.y r + cv.height r ÷ 2.

(** ** RegionExtractor: [getThresholdRects] *)

Definition MINAREABLOB : Z := 64.

Section RegionExtractor.

(** The image type and the three OpenCV calls are outside the repository;
    [approxPolyDP] stands for the call with epsilon 3 on a closed curve,
    [findContours] for the call with [RETR_EXTERNAL] and
    [CHAIN_APPROX_SIMPLE]. *)
Variables Mat Point : Type.
Variable findContours : Mat -> list (list Point).
Variable approxPolyDP : list Point -> list Point.
Variable boundingRect : list Point -> cv.Rect.

(** Body of the loop (lines 240-244) for one contour. *)
Definition keep_blob (filteredRect : list cv.Rect) (contour : list Point)
    : list cv.Rect :=
  let contoursPoly := approxPolyDP contour in
  let boundRect := boundingRect contoursPoly in
  if MINAREABLOB <? cv.area boundRect
  then filteredRect ++ [boundRect]
  else filteredRect.

Definition getThresholdRects (myImgThresh : Mat)
    (filteredRect : list cv.Rect) : list cv.Rect :=
  let contours := findContours myImgThresh in
  foldl keep_blob filteredRect contours.

(** The bounding boxes of the components of a mask, before the filter. *)
Definition blob_boxes (myImgThresh : Mat) : list cv.Rect :=
  map (fun c => boundingRect (approxPolyDP c)) (findContours myImgThresh).

End RegionExtractor.

(** ** CalibrationSampler: [getBoundingBoxHSV] *)

(** A [Vec3b] pixel: [val[0]], [val[1]], [val[2]], each an unsigned byte. *)
Record Vec3b : Type := mkVec3b { val0 : Z; val1 : Z; val2 : Z }.

Definition val (p : Vec3b) (a : nat) : option Z :=
  match a with
  | 0%nat => Some (val0 p)
  | 1%nat => Some (val1 p)
  | 2%nat => Some (val2 p)
  | _ => None
  end.

Definition is_uchar (v : Z) : bool := (0 <=? v) && (v <=? 255).

Definition pixel_ok (p : Vec3b) : bool :=
  is_uchar (val0 p) && is_uchar (val1 p) && is_uchar (val2 p).

(** An image: its rows, each a list of pixels.  [at_ img j i] is
    [img.at<Vec3b>(j, i)], row [j] and column [i]; outside of the image the
    read is undefined. *)
Definition at_ (img : list (list Vec3b)) (j i : Z) : option Vec3b :=
  if (0 <=? j) && (0 <=? i)
  then row ← img !! Z.to_nat j; row !! Z.to_nat i
  else None.

(** [for (i = lo; i < hi; i++) body] with [int] bounds. *)
Definition for_int {S : Type} (lo hi : Z) (body : Z -> S -> option S) (s : S)
    : option S :=
  for_range 0 (Z.to_nat (hi - lo)) (fun k => body (lo + Z.of_nat k)) s.

(** Lines 405-406 for one component [a]; the state is [(MINHSV, MAXHSV)]. *)
Definition sample_component (intensity : Vec3b) (a : nat)
    (mm : list Z * list Z) : option (list Z * list Z) :=
  let '(MINHSV, MAXHSV) := mm in
  v ← val intensity a;
  mx ← MAXHSV !! a;
  MAXHSV ← (if mx <? v then store MAXHSV a v else Some MAXHSV);
  mn ← MINHSV !! a;
  MINHSV ← (if v <? mn then store MINHSV a v else Some MINHSV);
  Some (MINHSV, MAXHSV).

(** Lines 397-399: the reset of both vectors. *)
Definition reset_component (a : nat) (mm : list Z * list Z)
    : option (list Z * list Z) :=
  let '(MINHSV, MAXHSV) := mm in
  MAXHSV ← store MAXHSV a 0;
  MINHSV ← store MINHSV a 255;
  Some (MINHSV, MAXHSV).

Definition getBoundingBoxHSV (myImgHSV : list (list Vec3b)) (BOX : list Z)
    (MINHSV MAXHSV : list Z) : option (list Z * list Z) :=
  mm ← for_range 0 3 reset_component (MINHSV, MAXHSV);
  x1 ← BOX !! 0%nat;
  x2 ← BOX !! 2%nat;
  for_int x1 x2 (fun i mm =>
    y1 ← BOX !! 1%nat;
    y2 ← BOX !! 3%nat;
    for_int y1 y2 (fun j mm =>
      intensity ← at_ myImgHSV j i;
      for_range 0 3 (sample_component intensity) mm) mm) mm.

(** The pixels the scan visits: columns [x1 <= i < x2], rows [y1 <= j < y2]. *)
Definition scanned (myImgHSV : list (list Vec3b)) (BOX : list Z) (p : Vec3b)
    : Prop :=
  exists x1 y1 x2 y2 i j,
    BOX !! 0%nat = Some x1 /\ BOX !! 1%nat = Some y1 /\
    BOX !! 2%nat = Some x2 /\ BOX !! 3%nat = Some y2 /\
    x1 <= i < x2 /\ y1 <= j < y2 /\ at_ myImgHSV j i = Some p.

(** An image of [rows] by [cols] pixels, every component an unsigned byte. *)
Definition frame_of (myImgHSV : list (list Vec3b)) (rows cols : Z) : Prop :=
  Z.of_nat (length myImgHSV) = rows /\
  Forall (fun row => Z.of_nat (length row) = cols /\
                     Forall (fun p => pixel_ok p = true) row) myImgHSV.

(** [lo] and [hi] are the running minimum and maximum of one component
    [proj] over the pixels in [S], started at 255 and 0. *)
Definition comp_range (S : Vec3b -> Prop) (proj : Vec3b -> Z) (lo hi : Z)
    : Prop :=
  (forall p, S p -> lo <= proj p <= hi) /\
  (lo = 255 \/ exists p, S p /\ proj p = lo) /\
  (hi = 0 \/ exists p, S p /\ proj p = hi).

Definition sampled (S : Vec3b -> Prop) (mm : list Z * list Z) : Prop :=
  exists l0 l1 l2 h0 h1 h2,
    mm = ([l0; l1; l2], [h0; h1; h2]) /\
    comp_range S val0 l0 h0 /\ comp_range S val1 l1 h1 /\
    comp_range S val2 l2 h2.

(** [lo] and [hi] are the minimum and the maximum of the component [proj]
    over the pixels in [S]: bounds that some pixel attains. *)
Definition min_max_over (S : Vec3b -> Prop) (proj : Vec3b -> Z) (lo hi : Z)
    : Prop :=
  (forall p, S p -> lo <= proj p <= hi) /\
  (exists p, S p /\ proj p = lo) /\
  (exists p, S p /\ proj p = hi).

(** The pixels read when the scan of the box is [k] columns and [l] rows
    into the next column. *)
Definition visited (myImgHSV : list (list Vec3b)) (x1 y1 y2 : Z) (k l : nat)
    (p : Vec3b) : Prop :=
  exists i j,
    ((x1 <= i < x1 + Z.of_nat k /\ y1 <= j < y2) \/
     (i = x1 + Z.of_nat k /\ y1 <= j < y1 + Z.of_nat l)) /\
    at_ myImgHSV j i = Some p.

(** ** ConfigStore: [saveConfigFile] and [loadConfigFile] *)

(** The C library calls are outside the repository; they are modelled on
    the text of the file, for the directives the program's formats use:
    ordinary characters, white space and [%d]. *)

Definition newline : ascii := "010"%char.

Definition isspace (c : ascii) : bool :=
  let n := nat_of_ascii c in
  ((9 <=? n)%nat && (n <=? 13)%nat) || (n =? 32)%nat.

Fixpoint skip_space (stream : string) : string :=
  match stream with
  | String c rest => if isspace c then skip_space rest else stream
  | EmptyString => stream
  end.

(** [%d] on output: the decimal numeral, with [-] for a negative value. *)
Definition print_d (v : Z) : string :=
  DecimalString.NilEmpty.string_of_int (Z.to_int v).

Definition digit_of (c : ascii) : option (Decimal.uint -> Decimal.uint) :=
  match nat_of_ascii c with
  | 48%nat => Some Decimal.D0
  | 49%nat => Some Decimal.D1
  | 50%nat => Some Decimal.D2
  | 51%nat => Some Decimal.D3
  | 52%nat => Some Decimal.D4
  | 53%nat => Some Decimal.D5
  | 54%nat => Some Decimal.D6
  | 55%nat => Some Decimal.D7
  | 56%nat => Some Decimal.D8
  | 57%nat => Some Decimal.D9
  | _ => None
  end.

(** The longest run of digits at the head of the stream, and what follows. *)
Fixpoint scan_digits (stream : string) : Decimal.uint * string :=
  match stream with
  | String c rest =>
      match digit_of c with
      | Some D => let '(d, rest') := scan_digits rest in (D d, rest')
      | None => (Decimal.Nil, stream)
      end
  | EmptyString => (Decimal.Nil, stream)
  end.

Definition INT_MIN : Z := - 2 ^ 31.
Definition INT_MAX : Z := 2 ^ 31 - 1.
Definition is_int (v : Z) : bool := (INT_MIN <=? v) && (v <=? INT_MAX).

Inductive conversion : Type :=
  | Converted (v : Z)       (* a value to assign *)
  | MatchFailure            (* no number here: the call stops *)
  | Unrepresentable.        (* a number outside of [int]: undefined *)

Definition convert (sign : Decimal.uint -> Decimal.int) (d : Decimal.uint)
    : conversion :=
  match d with
  | Decimal.Nil => MatchFailure
  | _ => let v := Z.of_int (sign d) in
         if is_int v then Converted v else Unrepresentable
  end.

(** [%d] on input, after the white space has been skipped: an optional
    sign, then the longest run of digits. *)
Definition scan_d (stream : string) : conversion * string :=
  match stream with
  | String c rest =>
      if Ascii.eqb c "-" then
        let '(d, rest') := scan_digits rest in (convert Decimal.Neg d, rest')
      else if Ascii.eqb c "+" then
        let '(d, rest') := scan_digits rest in (convert Decimal.Pos d, rest')
      else
        let '(d, rest') := scan_digits stream in (convert Decimal.Pos d, rest')
  | EmptyString => (MatchFailure, stream)
  end.

(** [fprintf]: the text written for a format and its [int] arguments (as
    many arguments as the format has conversions, as at the call site). *)
Fixpoint fprintf (format : string) (args : list Z) : string :=
  match format with
  | EmptyString => EmptyString
  | String c format' =>
      if Ascii.eqb c "%" then
        match format' with
        | String _ format'' =>
            match args with
            | v :: args' => String.append (print_d v) (fprintf format'' args')
            | [] => fprintf format'' []
            end
        | EmptyString => EmptyString
        end
      else String c (fprintf format' args)
  end.

(** [fscanf]: the values converted, in order, and the rest of the stream.
    The call stops at the first directive that does not match; [None] is an
    undefined conversion. *)
Fixpoint fscanf (format : string) (stream : string)
    : option (list Z * string) :=
  match format with
  | EmptyString => Some ([], stream)
  | String c format' =>
      if Ascii.eqb c "%" then
        match format' with
        | String _ format'' =>
            match scan_d (skip_space stream) with
            | (Converted v, rest) =>
                '(vs, rest') ← fscanf format'' rest; Some (v :: vs, rest')
            | (MatchFailure, rest) => Some ([], rest)
            | (Unrepresentable, _) => None
            end
        | EmptyString => Some ([], stream)
        end
      else if isspace c then fscanf format' (skip_space stream)
      else
        match stream with
        | String c' rest =>
            if Ascii.eqb c c' then fscanf format' rest else Some ([], stream)
        | EmptyString => Some ([], stream)
        end
  end.

(** The one line format of the configuration file, shared by both calls:
    ["channel %d, HSVMIN{%d,%d,%d}, HSVMAX{%d,%d,%d}\n"]. *)
Definition config_format : string :=
  String.append "channel %d, HSVMIN{%d,%d,%d}, HSVMAX{%d,%d,%d}"
                (String newline EmptyString).

(** The file [babyMotionConfig.txt] as the two [fopen] calls see it. *)
Record ConfigFile : Type := mkConfigFile {
  contents : option string;   (* [None]: there is no such file *)
  may_read : bool;
  may_write : bool
}.

Definition fopen_r (f : ConfigFile) : option string :=
  if may_read f then contents f else None.

(** [M[i][k]] and [M[i][k] = v] on an [int M[][3]]. *)
Definition load2 (M : list (list Z)) (i k : nat) : option Z :=
  row ← M !! i; row !! k.

Definition store2 (M : list (list Z)) (i k : nat) (v : Z)
    : option (list (list Z)) :=
  row ← M !! i; row ← store row k v; store M i row.

Definition save_line (MIN MAX : list (list Z)) (i : nat) (text : string)
    : option string :=
  a0 ← load2 MIN i 0; a1 ← load2 MIN i 1; a2 ← load2 MIN i 2;
  b0 ← load2 MAX i 0; b1 ← load2 MAX i 1; b2 ← load2 MAX i 2;
  Some (String.append text
          (fprintf config_format [Z.of_nat i; a0; a1; a2; b0; b1; b2])).

Definition saveConfigFile (MIN MAX : list (list Z)) (nChannels : Z)
    (f : ConfigFile) : option (Z * ConfigFile) :=
  if may_write f then
    text ← for_range 0 (Z.to_nat nChannels) (save_line MIN MAX) EmptyString;
    Some (0, mkConfigFile (Some text) (may_read f) (may_write f))
  else Some (1, f).

(** The objects the pointer arguments of the [fscanf] call designate. *)
Inductive target : Type :=
  | T_ch
  | T_MIN (i k : nat)
  | T_MAX (i k : nat).

Definition assign (t : target) (v : Z) (mm : list (list Z) * list (list Z))
    : option (list (list Z) * list (list Z)) :=
  let '(MIN, MAX) := mm in
  match t with
  | T_ch => Some (MIN, MAX)
  | T_MIN i k => MIN ← store2 MIN i k v; Some (MIN, MAX)
  | T_MAX i k => MAX ← store2 MAX i k v; Some (MIN, MAX)
  end.

(** Only the values that were converted are assigned. *)
Fixpoint assign_all (ts : list target) (vs : list Z)
    (mm : list (list Z) * list (list Z))
    : option (list (list Z) * list (list Z)) :=
  match ts, vs with
  | t :: ts', v :: vs' => mm ← assign t v mm; assign_all ts' vs' mm
  | _, _ => Some mm
  end.

Definition load_line (i : nat)
    (s : string * (list (list Z) * list (list Z)))
    : option (string * (list (list Z) * list (list Z))) :=
  let '(stream, mm) := s in
  '(vs, rest) ← fscanf config_format stream;
  mm ← assign_all [T_ch; T_MIN i 0; T_MIN i 1; T_MIN i 2;
                   T_MAX i 0; T_MAX i 1; T_MAX i 2] vs mm;
  Some (rest, mm).

Definition loadConfigFile (MIN MAX : list (list Z)) (nChannels : Z)
    (f : ConfigFile) : option (Z * (list (list Z) * list (list Z))) :=
  match fopen_r f with
  | None => Some (1, (MIN, MAX))
  | Some stream =>
      '(_, mm) ← for_range 0 (Z.to_nat nChannels) load_line (stream, (MIN, MAX));
      Some (0, mm)
  end.

(** An [int[3][3]]: three rows of three [int] values. *)
Definition is_int3x3 (M : list (list Z)) : Prop :=
  length M = 3%nat /\
  Forall (fun row => length row = 3%nat /\ Forall (fun v => is_int v = true) row) M.

(** ** Vocabulary of the statements *)

(** [(i, j)] is a pair the matcher may commit, with union rectangle [u]:
    both markers read 0 and the intersection has a positive area. *)
Definition candidate (st : CCArgs) (i j : nat) (u : cv.Rect) : Prop :=
  exists ra rb,
    rectsChA st !! i = Some ra /\ rectsChB st !! j = Some rb /\
    usedA st !! i = Some 0 /\ usedB st !! j = Some 0 /\
    0 < cv.area (cv.inter ra rb) /\ u = cv.union ra rb.

(** The marker arrays cover the region lists. *)
Definition markers_cover (st : CCArgs) : Prop :=
  (length (rectsChA st) <= length (usedA st))%nat /\
  (length (rectsChB st) <= length (usedB st))%nat.

(** The pairs the scan has been through when it reaches [(i, j)]. *)
Definition before (i j i' j' : nat) : Prop :=
  (i' < i)%nat \/ (i' = i /\ j' < j)%nat.

(** What the locals of the scan hold once the pairs in [seen] are done. *)
Definition best_among (st : CCArgs) (seen : nat -> nat -> Prop) (s : Scan)
    : Prop :=
  (s = scan_init /\ forall i j u, seen i j -> ~ candidate st i j u) \/
  (exists i j u,
     s = mkScan u (Some i) (Some j) (cv.area u) /\
     seen i j /\ candidate st i j u /\
     forall i' j' u', seen i' j' -> candidate st i' j' u' ->
                      cv.area u' <= cv.area u).

(** ** The tracking pipeline of [detectCCBlobs] (lines 176-220) *)

(** What a frame gives in tracking mode: the expanded regions of the three
    channels (drawn in the channel colours) and what the three matching
    passes leave. *)
Record Detection : Type := mkDetection {
  myFilteredRects1 : list cv.Rect;
  myFilteredRects2 : list cv.Rect;
  myFilteredRects3 : list cv.Rect;
  matching : Matched
}.

(** The colours of the legacy single-channel detector [detectBlobs]:
    [Scalar(0,200,0)] and [Scalar(0,0,200)]. *)
Inductive BoxColour : Type := Green | Red.

Section Detectors.

(** As for [getThresholdRects], the OpenCV calls are parameters.  The
    masks are the images [inRange] and [erode] (and, in [detectBlobs],
    [GaussianBlur] and [dilate]) produce; those calls are outside the
    repository too and the masks are taken as given. *)
Variables Mat Point : Type.
Variable findContours : Mat -> list (list Point).
Variable approxPolyDP : list Point -> list Point.
Variable boundingRect : list Point -> cv.Rect.

Definition detectCCBlobs (imgThreshCh1 imgThreshCh2 imgThreshCh3 : Mat)
    : option Detection :=
  let dilateFactor := 35 in
  let extract :=
    getThresholdRects Mat Point findContours approxPolyDP boundingRect in
  let myFilteredRects1 := extract imgThreshCh1 [] in
  let myFilteredRects2 := extract imgThreshCh2 [] in
  let myFilteredRects3 := extract imgThreshCh3 [] in
  myFilteredRects1 ← dilateRects dilateFactor myFilteredRects1;
  myFilteredRects2 ← dilateRects dilateFactor myFilteredRects2;
  myFilteredRects3 ← dilateRects dilateFactor myFilteredRects3;
  m ← matchChannelPairs myFilteredRects1 myFilteredRects2 myFilteredRects3
        (replicate 21 cv.empty);
  Some (mkDetection myFilteredRects1 myFilteredRects2 myFilteredRects3 m).

(** [detectBlobs], lines 445-481: the area filter, the largest area, and
    the colour each kept rectangle is drawn in. *)
Definition largest_area (filteredRect : list cv.Rect) : Z :=
  foldl (fun areaThresh r =>
           if areaThresh <? cv.area r then cv.area r else areaThresh)
        0 filteredRect.

Definition detectBlobs (imgThresh : Mat) : list (cv.Rect * BoxColour) :=
  let contours := findContours imgThresh in
  let boundRect := map (fun c => boundingRect (approxPolyDP c)) contours in
  let filteredRect :=
    foldl (fun acc b => if MINAREABLOB <? cv.area b then acc ++ [b] else acc)
          [] boundRect in
  let areaThresh := largest_area filteredRect in
  map (fun r => (r, if areaThresh * 60 ÷ 100 <? cv.area r then Green else Red))
      filteredRect.

End Detectors.

(** ** Mouse and keyboard: [onMouse], [getChannelFlag] *)

(** The events [onMouse] tells apart; the constants are OpenCV's, pairwise
    distinct, and every other event falls through all the tests. *)
Inductive MouseEvent : Type :=
  | CV_EVENT_LBUTTONDOWN
  | CV_EVENT_MOUSEMOVE
  | CV_EVENT_LBUTTONUP
  | CV_EVENT_RBUTTONUP
  | CV_EVENT_other.

(** [int BBOX[4]]: the indices used are the constants 0 to 3. *)
Record Box4 : Type := mkBox4 { BBOX0 : Z; BBOX1 : Z; BBOX2 : Z; BBOX3 : Z }.

(** The array as [getBoundingBoxHSV] receives it. *)
Definition BOX_of (b : Box4) : list Z := [BBOX0 b; BBOX1 b; BBOX2 b; BBOX3 b].

(** The global variables the callbacks and the main loop share. *)
Record Globals : Type := mkGlobals {
  mouseDraggedFlag : Z;
  trackModeFlag : Z;
  channelFlag : Z;
  charCheckForKey : ascii;
  BBOX : Box4;
  frameCount : Z
}.

(** Their initial values (lines 57-62). *)
Definition globals_init : Globals :=
  mkGlobals 0 1 0 zero (mkBox4 0 0 1 1) 0.

Definition onMouse (event : MouseEvent) (x y : Z) (g : Globals) : Globals :=
  match event with
  | CV_EVENT_LBUTTONDOWN =>
      mkGlobals 1 (trackModeFlag g) (channelFlag g) (charCheckForKey g)
                (mkBox4 x y x y) (frameCount g)
  | CV_EVENT_MOUSEMOVE =>
      if mouseDraggedFlag g =? 1 then
        mkGlobals (mouseDraggedFlag g) (trackModeFlag g) (channelFlag g)
                  (charCheckForKey g)
                  (mkBox4 (BBOX0 (BBOX g)) (BBOX1 (BBOX g)) x y) (frameCount g)
      else g
  | CV_EVENT_LBUTTONUP =>
      mkGlobals 0 (trackModeFlag g) (channelFlag g) (charCheckForKey g)
                (BBOX g) (frameCount g)
  | CV_EVENT_RBUTTONUP =>
      if trackModeFlag g =? 1 then
        mkGlobals (mouseDraggedFlag g) 0 (channelFlag g) (charCheckForKey g)
                  (BBOX g) (frameCount g)
      else if trackModeFlag g =? 0 then
        mkGlobals (mouseDraggedFlag g) 1 (channelFlag g) (charCheckForKey g)
                  (BBOX g) (frameCount g)
      else g
  | CV_EVENT_other => g
  end.

Definition getChannelFlag (charKey : ascii) : Z :=
  if Ascii.eqb charKey "1" then 0
  else if Ascii.eqb charKey "2" then 1
  else if Ascii.eqb charKey "3" then 2
  else 99.

(** ** The main loop (lines 89-141) *)

(** The locals of [main] that live across iterations, with the globals. *)
Record MainState : Type := mkMainState {
  globals : Globals;
  HSVMINALL : list (list Z);
  HSVMAXALL : list (list Z)
}.

(** Lines 89-92: the thresholds before the configuration file is read. *)
Definition main_init : MainState :=
  mkMainState globals_init
    [[255; 255; 255]; [255; 255; 255]; [255; 255; 255]]
    [[0; 0; 0]; [0; 0; 0]; [0; 0; 0]].

(** Lines 104-106: a channel key selects the channel, any other key
    leaves it. *)
Definition select_channel (g : Globals) : Globals :=
  if negb (getChannelFlag (charCheckForKey g) =? 99) then
    mkGlobals (mouseDraggedFlag g) (trackModeFlag g)
              (getChannelFlag (charCheckForKey g)) (charCheckForKey g)
              (BBOX g) (frameCount g)
  else g.

(** Line 116: in calibration mode the sampler works in place on row
    [channelFlag] of both arrays. *)
Definition calibrate (imgHSV : list (list Vec3b)) (s : MainState)
    : option MainState :=
  let g := globals s in
  if channelFlag g <? 0 then None else
  let ch := Z.to_nat (channelFlag g) in
  MINHSV ← HSVMINALL s !! ch;
  MAXHSV ← HSVMAXALL s !! ch;
  '(MINHSV, MAXHSV) ← getBoundingBoxHSV imgHSV (BOX_of (BBOX g)) MINHSV MAXHSV;
  MINALL ← store (HSVMINALL s) ch MINHSV;
  MAXALL ← store (HSVMAXALL s) ch MAXHSV;
  Some (mkMainState g MINALL MAXALL).

(** What one iteration consumes: the frame ([None] when the read fails),
    converted to HSV by [cvtColor]; the mouse events the window delivers
    while [waitKey] runs; the key [waitKey] returns. *)
Record FrameInput : Type := mkFrameInput {
  frame : option (list (list Vec3b));
  events : list (MouseEvent * Z * Z);
  key : ascii
}.

Definition deliver (g : Globals) (e : MouseEvent * Z * Z) : Globals :=
  let '(event, x, y) := e in onMouse event x y g.

Inductive LoopStep : Type :=
  | Continue (s : MainState)
  | Break (s : MainState).

(** The body of the [while] loop (lines 104-139).  In tracking mode
    [detectCCBlobs] only draws: the state is left as it is.  The drawing
    calls, the timing and the [printf] of every 60th frame, which reads the
    thresholds of the selected channel, change none of the state and are
    left out. *)
Definition main_iteration (inp : FrameInput) (s : MainState)
    : option LoopStep :=
  let s := mkMainState (select_channel (globals s)) (HSVMINALL s) (HSVMAXALL s) in
  match frame inp with
  | None => Some (Break s)
  | Some imgHSV =>
      s ← (if trackModeFlag (globals s) =? 0 then calibrate imgHSV s
           else Some s);
      let g := globals s in
      let g := mkGlobals (mouseDraggedFlag g) (trackModeFlag g) (channelFlag g)
                         (charCheckForKey g) (BBOX g) (frameCount g + 1) in
      let g := foldl deliver g (events inp) in
      let g := mkGlobals (mouseDraggedFlag g) (trackModeFlag g) (channelFlag g)
                         (key inp) (BBOX g) (frameCount g) in
      Some (Continue (mkMainState g (HSVMINALL s) (HSVMAXALL s)))
  end.

Definition Esc : ascii := "027"%char.

(** The loop over the inputs that arrive, until the Esc key or a failed
    read; when the inputs run out (the camera is no longer open) the state
    reached is returned. *)
Fixpoint main_loop (inputs : list FrameInput) (s : MainState)
    : option MainState :=
  if Ascii.eqb (charCheckForKey (globals s)) Esc then Some s else
  match inputs with
  | [] => Some s
  | inp :: rest =>
      step ← main_iteration inp s;
      match step with
      | Break s' => Some s'
      | Continue s' => main_loop rest s'
      end
  end.

(** An [int[n][3]]: [n] rows of three [int] values. *)
Definition is_int_rows (n : nat) (M : list (list Z)) : Prop :=
  length M = n /\
  Forall (fun row => length row = 3%nat /\ Forall (fun v => is_int v = true) row) M.

(** What the loop keeps true of its state: a channel index inside the
    arrays, a mode that is 0 or 1, and two arrays of three rows of three. *)
Definition state_ok (s : MainState) : Prop :=
  0 <= channelFlag (globals s) <= 2 /\
  (trackModeFlag (globals s) = 0 \/ trackModeFlag (globals s) = 1) /\
  length (HSVMINALL s) = 3%nat /\ length (HSVMAXALL s) = 3%nat /\
  Forall (fun row => length row = 3%nat) (HSVMINALL s) /\
  Forall (fun row => length row = 3%nat) (HSVMAXALL s).

(** A mouse move to the point [p], as the window delivers it. *)
Definition mouse_move (p : Z * Z) : MouseEvent * Z * Z :=
  (CV_EVENT_MOUSEMOVE, fst p, snd p).

(** The pairs the scan has been through when it is done with [(i, j)]
    are [before i (j+1)]; among the candidates the scan keeps the first of
    those with the largest union. *)
Definition first_best_among (st : CCArgs) (seen : nat -> nat -> Prop)
    (s : Scan) : Prop :=
  (s = scan_init /\ forall i j u, seen i j -> ~ candidate st i j u) \/
  (exists i j u,
     s = mkScan u (Some i) (Some j) (cv.area u) /\
     seen i j /\ candidate st i j u /\
     (forall i' j' u', seen i' j' -> candidate st i' j' u' ->
                       cv.area u' <= cv.area u) /\
     (forall i' j' u', before i j i' j' -> candidate st i' j' u' ->
                       cv.area u' < cv.area u)).

(** [outer] encloses [inner]: on both axes the extent of [inner] lies
    within the extent of [outer]. *)
Definition encloses (outer inner : cv.Rect) : Prop :=
  cv.x outer <= cv.x inner /\
  cv.x inner + cv.width inner <= cv.x outer + cv.width outer /\
  cv.y outer <= cv.y inner /\
  cv.y inner + cv.height inner <= cv.y outer + cv.height outer.

(** The number of markers that are set. *)
Definition used_count (used : list Z) : nat :=
  length (filter (fun v => v <> 0) used).

(** ** The [int] of the compiled program *)

(** Where a result depends on how large an [int] gets (the products
    [width*factor] of [dilateRects], the areas that [getCCRectBinary]
    compares and keeps in [int maxArea]), the operation is written a second
    time with the arithmetic the compiled program has: 32 bits, two's
    complement, every result wrapping around.  [vector::size()] converted
    to [int] and the loop counters stay far below that range. *)
Module int32.

(** The [int] a mathematical value wraps to. *)
Definition wrap (z : Z) : Z := (z + 2 ^ 31) mod 2 ^ 32 - 2 ^ 31.

(** [a + b], [a - b] and [a * b] on [int].  A division by 100 or by 2
    cannot leave the range and stays [Z.quot]. *)
Definition add (a b : Z) : Z := wrap (a + b).
Definition sub (a b : Z) : Z := wrap (a - b).
Definition mul (a b : Z) : Z := wrap (a * b).

(** Modelled from the spec: [Rect::area] is not in the repository; the
    spec's data model gives "Area = width × height", and on [Rect_<int>]
    the result is an [int]. *)
Definition area (r : cv.Rect) : Z := mul (cv.width r) (cv.height r).

(** Body of the loop of [dilateRects] (lines 262-267) at index [i]. *)
Definition dilate_at (factor : Z) (i : nat) (myRect : list cv.Rect)
    : option (list cv.Rect) :=
  r ← myRect !! i;
  let dW := mul (cv.width r) factor ÷ 100 in
  let dH := mul (cv.height r) factor ÷ 100 in
  let r := cv.mkRect (cv.x r) (cv.y r) (add (cv.width r) dW) (cv.height r) in
  let r := cv.mkRect (cv.x r) (cv.y r) (cv.width r) (add (cv.height r) dH) in
  let r := cv.mkRect (sub (cv.x r) (dW ÷ 2)) (cv.y r) (cv.width r) (cv.height r) in
  let r := cv.mkRect (cv.x r) (sub (cv.y r) (dH ÷ 2)) (cv.width r) (cv.height r) in
  store myRect i r.

Definition dilateRects (factor : Z) (myRect : list cv.Rect)
    : option (list cv.Rect) :=
  let count := length myRect in
  for_range 0 count (dilate_at factor) myRect.

(** Body of the inner loop of [getCCRectBinary] (lines 298-309) for the
    pair [(i, j)]: both calls of [area()] give an [int], compared with 0
    and with [int maxArea]. *)
Definition scan_pair (st : CCArgs) (i j : nat) (s : Scan) : option Scan :=
  ua ← usedA st !! i;
  if negb (ua =? 0) then Some s else
  ub ← usedB st !! j;
  if negb (ub =? 0) then Some s else
  ra ← rectsChA st !! i;
  rb ← rectsChB st !! j;
  let tmpRect := cv.inter ra rb in
  if 0 <? area tmpRect then
    let tmpRect := cv.union ra rb in
    if maxArea s <? area tmpRect
    then Some (mkScan tmpRect (Some i) (Some j) (area tmpRect))
    else Some s
  else Some s.

(** The two nested loops (lines 294-311). *)
Definition scanPairs (st : CCArgs) : option Scan :=
  let iMax := length (rectsChA st) in
  let jMax := length (rectsChB st) in
  for_range 0 iMax (fun i => for_range 0 jMax (fun j => scan_pair st i j)) scan_init.

(** The scan, then the commit of lines 313-319. *)
Definition getCCRectBinary (st : CCArgs) (code : Z) : option (Z * CCArgs) :=
  s ← scanPairs st;
  commit st code s.

(** The pair the scan settles on, if any. *)
Definition selected (st : CCArgs) : option (nat * nat) :=
  s ← scanPairs st;
  if 0 <? maxArea s then i ← iTarget s; j ← jTarget s; Some (i, j) else None.

End int32.

(** Nothing overflows when [dilateRects] expands [r] by [factor]: the two
    products and the four fields written are values of an [int]. *)
Definition dilate_fits (factor : Z) (r : cv.Rect) : bool :=
  let dW := cv.width r * factor ÷ 100 in
  let dH := cv.height r * factor ÷ 100 in
  is_int (cv.width r * factor) && is_int (cv.height r * factor) &&
  is_int (cv.width r + dW) && is_int (cv.height r + dH) &&
  is_int (cv.x r - dW ÷ 2) && is_int (cv.y r - dH ÷ 2).

(** No area overflows in [getCCRectBinary]: the union of a region of one
    list with a region of the other has an area of at most [INT_MAX] (the
    area of their intersection is then below it as well). *)
Definition unions_fit (st : CCArgs) : Prop :=
  Forall (fun ra =>
            Forall (fun rb => cv.area (cv.union ra rb) <= INT_MAX)
                   (rectsChB st))
         (rectsChA st).

(** * Properties *)

Example getCCRectBinary_best_of_many :
  getCCRectBinary
    (mkCCArgs [cv.mkRect 0 0 10 10]
              [cv.mkRect 5 5 4 4; cv.mkRect 5 5 20 20]
              [0] [0; 0] [cv.empty; cv.empty; cv.empty]) 0
  = Some (0, mkCCArgs [cv.mkRect 0 0 10 10]
              [cv.mkRect 5 5 4 4; cv.mkRect 5 5 20 20]
              [1] [0; 1] [cv.mkRect 0 0 25 25; cv.empty; cv.empty]).
Proof. reflexivity. Qed.

Example config_round_trip_example :
  let MIN := [[1; 2; 3]; [-4; 50; 60]; [255; 255; 255]] in
  let MAX := [[10; 20; 30]; [40; 0; 60]; [7; 8; 9]] in
  let Z3 := [[0; 0; 0]; [0; 0; 0]; [0; 0; 0]] in
  exists f, saveConfigFile MIN MAX 3 (mkConfigFile None true true) = Some (0, f)
    /\ loadConfigFile Z3 Z3 3 f = Some (0, (MIN, MAX)).
Proof. eexists. split; [vm_compute; reflexivity|]. vm_compute. reflexivity. Qed.

(** ** Loops *)

Lemma for_range_inv {S : Type} (P : nat -> S -> Prop)
    (body : nat -> S -> option S) (count start : nat) (s : S) :
  P start s ->
  (forall i t, (start <= i < start + count)%nat -> P i t ->
     exists t', body i t = Some t' /\ P (Datatypes.S i) t') ->
  exists s', for_range start count body s = Some s' /\ P (start + count)%nat s'.
Proof.
  revert start s. induction count as [|n IH]; intros start s H0 Hstep; simpl.
  - exists s. split; [reflexivity|]. now replace (start + 0)%nat with start by lia.
  - destruct (Hstep start s ltac:(lia) H0) as (t & Hb & Ht).
    rewrite Hb. simpl.
    destruct (IH (Datatypes.S start) t Ht) as (s' & Hr & Hs').
    + intros i u Hi. apply Hstep. lia.
    + exists s'. split; [exact Hr|].
      now replace (start + Datatypes.S n)%nat with (Datatypes.S start + n)%nat by lia.
Qed.

Lemma store_Some {A : Type} (l : list A) (i : nat) (a : A) :
  (i < length l)%nat -> store l i a = Some (<[i := a]> l).
Proof. intros H. unfold store. now rewrite decide_True. Qed.

Lemma store_inv {A : Type} (l l' : list A) (i : nat) (a : A) :
  store l i a = Some l' -> (i < length l)%nat /\ l' = <[i := a]> l.
Proof. unfold store. case_decide; [|discriminate]. intros [= <-]. auto. Qed.

(** ** Rectangles *)

Lemma inter_pos_dims (a b : cv.Rect) :
  0 < cv.area (cv.inter a b) ->
  0 < Z.min (cv.x a + cv.width a) (cv.x b + cv.width b) - Z.max (cv.x a) (cv.x b) /\
  0 < Z.min (cv.y a + cv.height a) (cv.y b + cv.height b) - Z.max (cv.y a) (cv.y b).
Proof.
  unfold cv.inter, cv.area.
  repeat match goal with |- context [?a <=? 0] => destruct (Z.leb_spec a 0) end;
    simpl; lia.
Qed.

Lemma union_area_pos (a b : cv.Rect) :
  0 < cv.area (cv.inter a b) -> 0 < cv.area (cv.union a b).
Proof.
  intros H. apply inter_pos_dims in H. destruct H as [Hw Hh].
  unfold cv.union, cv.area. simpl. apply Z.mul_pos_pos; lia.
Qed.

Lemma candidate_area_pos st i j u : candidate st i j u -> 0 < cv.area u.
Proof.
  intros (ra & rb & _ & _ & _ & _ & Hpos & ->). now apply union_area_pos.
Qed.

Lemma candidate_fun st i j u u' :
  candidate st i j u -> candidate st i j u' -> u = u'.
Proof.
  intros (ra & rb & Ha & Hb & _ & _ & _ & ->) (ra' & rb' & Ha' & Hb' & _ & _ & _ & ->).
  congruence.
Qed.

Lemma candidate_lt st i j u :
  candidate st i j u ->
  (i < length (rectsChA st))%nat /\ (j < length (rectsChB st))%nat.
Proof.
  intros (ra & rb & Ha & Hb & _). split; eapply lookup_lt_Some; eassumption.
Qed.

(** ** The scan of [getCCRectBinary] *)

Lemma best_among_ext st (seen seen' : nat -> nat -> Prop) s :
  (forall i j u, candidate st i j u -> (seen i j <-> seen' i j)) ->
  best_among st seen s -> best_among st seen' s.
Proof.
  intros Hext [[-> Hnone] | (i & j & u & -> & Hs & Hc & Hmax)].
  - left. split; [reflexivity|]. intros i j u Hs Hc.
    apply (Hnone i j u); [|exact Hc]. now apply (Hext i j u).
  - right. exists i, j, u. repeat split; try assumption.
    + now apply (Hext i j u).
    + intros i' j' u' Hs' Hc'. apply (Hmax i' j' u'); [|exact Hc'].
      now apply (Hext i' j' u').
Qed.

Lemma before_succ (i j i' j' : nat) :
  before i (Datatypes.S j) i' j' <-> before i j i' j' \/ (i' = i /\ j' = j).
Proof. unfold before. lia. Qed.

(** A pair that is no candidate leaves the locals as they are. *)
Lemma best_among_skip st i j s :
  (forall u, ~ candidate st i j u) ->
  best_among st (before i j) s -> best_among st (before i (Datatypes.S j)) s.
Proof.
  intros Hno. apply best_among_ext. intros i' j' u Hc.
  rewrite before_succ. split; [auto|]. intros [H | [-> ->]]; [exact H|].
  now destruct (Hno u).
Qed.

Lemma scan_pair_step st i j s :
  markers_cover st ->
  (i < length (rectsChA st))%nat -> (j < length (rectsChB st))%nat ->
  best_among st (before i j) s ->
  exists s', scan_pair st i j s = Some s' /\
             best_among st (before i (Datatypes.S j)) s'.
Proof.
  intros [HA HB] Hi Hj Hs.
  destruct (lookup_lt_is_Some_2 (usedA st) i ltac:(lia)) as [ua Hua].
  destruct (lookup_lt_is_Some_2 (usedB st) j ltac:(lia)) as [ub Hub].
  destruct (lookup_lt_is_Some_2 (rectsChA st) i Hi) as [ra Hra].
  destruct (lookup_lt_is_Some_2 (rectsChB st) j Hj) as [rb Hrb].
  unfold scan_pair. rewrite Hua. simpl.
  destruct (Z.eqb_spec ua 0) as [-> | Hua0]; simpl.
  2:{ exists s. split; [reflexivity|]. apply best_among_skip; [|exact Hs].
      intros u (? & ? & _ & _ & Hu & _). congruence. }
  rewrite Hub. simpl.
  destruct (Z.eqb_spec ub 0) as [-> | Hub0]; simpl.
  2:{ exists s. split; [reflexivity|]. apply best_among_skip; [|exact Hs].
      intros u (? & ? & _ & _ & _ & Hu & _). congruence. }
  rewrite Hra, Hrb. simpl.
  destruct (Z.ltb_spec 0 (cv.area (cv.inter ra rb))) as [Hpos | Hnpos].
  2:{ exists s. split; [reflexivity|]. apply best_among_skip; [|exact Hs].
      intros u (ra' & rb' & Ha' & Hb' & _ & _ & Hp & _).
      rewrite Hra in Ha'. rewrite Hrb in Hb'.
      injection Ha' as <-. injection Hb' as <-. lia. }
  assert (Hc : candidate st i j (cv.union ra rb)).
  { exists ra, rb. repeat split; assumption. }
  pose proof (union_area_pos ra rb Hpos) as Hupos.
  destruct (Z.ltb_spec (maxArea s) (cv.area (cv.union ra rb))) as [Hlt | Hge].
  - eexists. split; [reflexivity|]. right.
    exists i, j, (cv.union ra rb). repeat split.
    + apply before_succ. right. auto.
    + exact Hc.
    + intros i' j' u' Hb' Hc'. apply before_succ in Hb'.
      destruct Hb' as [Hb' | [-> ->]].
      * destruct Hs as [[-> Hnone] | (i0 & j0 & u0 & -> & _ & _ & Hmax)].
        -- now destruct (Hnone i' j' u').
        -- simpl in Hlt. specialize (Hmax i' j' u' Hb' Hc'). lia.
      * rewrite (candidate_fun _ _ _ _ _ Hc' Hc). lia.
  - exists s. split; [reflexivity|].
    destruct Hs as [[-> Hnone] | (i0 & j0 & u0 & -> & Hs0 & Hc0 & Hmax)].
    + simpl in Hge. lia.
    + right. exists i0, j0, u0. repeat split; try assumption.
      * apply before_succ. auto.
      * intros i' j' u' Hb' Hc'. apply before_succ in Hb'.
        destruct Hb' as [Hb' | [-> ->]].
        -- now apply (Hmax i' j' u').
        -- rewrite (candidate_fun _ _ _ _ _ Hc' Hc). simpl in Hge. lia.
Qed.

(** The scan always ends, with the best candidate of all pairs if there is
    one and with its initial locals if there is none. *)
Lemma scanPairs_best st :
  markers_cover st ->
  exists s, scanPairs st = Some s /\ best_among st (fun _ _ => True) s.
Proof.
  intros Hcov. unfold scanPairs.
  destruct (for_range_inv (fun i s => best_among st (before i 0) s)
              (fun i => for_range 0 (length (rectsChB st))
                          (fun j => scan_pair st i j))
              (length (rectsChA st)) 0 scan_init) as (s & Hrun & Hs).
  - left. split; [reflexivity|]. unfold before. intros; lia.
  - intros i t Hi Ht.
    destruct (for_range_inv (fun j s => best_among st (before i j) s)
                (fun j => scan_pair st i j)
                (length (rectsChB st)) 0 t Ht) as (t' & Hrun & Ht').
    + intros j u Hj Hu. apply scan_pair_step; [assumption|lia|lia|assumption].
    + exists t'. split; [exact Hrun|].
      revert Ht'. apply best_among_ext.
      intros i' j' u Hc. apply candidate_lt in Hc. unfold before. simpl. lia.
  - exists s. split; [exact Hrun|].
    revert Hs. apply best_among_ext.
    intros i' j' u Hc. apply candidate_lt in Hc. unfold before. simpl. lia.
Qed.

(** The outcome of a call, from the locals the scan ends with. *)
Lemma getCCRectBinary_outcome st code :
  markers_cover st ->
  (exists i j u,
     selected st = Some (i, j) /\
     candidate st i j u /\
     (forall i' j' u', candidate st i' j' u' -> cv.area u' <= cv.area u) /\
     getCCRectBinary st code =
       (cc ← (if 0 <=? code then store (ccRects st) (Z.to_nat code) u else None);
        Some (0, mkCCArgs (rectsChA st) (rectsChB st)
                   (<[i := 1]> (usedA st)) (<[j := 1]> (usedB st)) cc)))
  \/ (selected st = None /\
      (forall i j u, ~ candidate st i j u) /\
      getCCRectBinary st code = Some (1, st)).
Proof.
  intros Hcov.
  destruct (scanPairs_best st Hcov) as (s & Hrun & [[-> Hnone] | (i & j & u & -> & _ & Hc & Hmax)]).
  - right. unfold selected, getCCRectBinary. rewrite Hrun. simpl.
    repeat split; try reflexivity. intros i j u. now apply Hnone.
  - left. exists i, j, u.
    pose proof (candidate_area_pos _ _ _ _ Hc) as Hpos.
    unfold selected, getCCRectBinary, commit. rewrite Hrun. simpl.
    destruct (Z.ltb_spec 0 (cv.area u)); [|lia]. simpl.
    repeat split; try assumption.
    + intros i' j' u'. now apply Hmax.
    + destruct Hc as (ra & rb & _ & _ & Hua & Hub & _).
      apply lookup_lt_Some in Hua, Hub.
      destruct (if 0 <=? code then _ else None) as [cc|]; simpl; [|reflexivity].
      rewrite !store_Some by assumption. reflexivity.
Qed.

(** ** The scan on [int] *)

Lemma wrap_fits (z : Z) : is_int z = true -> int32.wrap z = z.
Proof.
  unfold is_int, INT_MIN, INT_MAX, int32.wrap. intros H.
  apply andb_true_iff in H as [H1 H2]. apply Z.leb_le in H1, H2.
  rewrite Z.mod_small by lia. lia.
Qed.

Lemma wrap_small (z : Z) : 0 <= z <= INT_MAX -> int32.wrap z = z.
Proof.
  intros H. apply wrap_fits. unfold is_int, INT_MIN, INT_MAX in *.
  apply andb_true_iff. split; apply Z.leb_le; lia.
Qed.

Lemma for_range_ext {S : Type} (f g : nat -> S -> option S)
    (count start : nat) (s : S) :
  (forall i t, (start <= i < start + count)%nat -> f i t = g i t) ->
  for_range start count f s = for_range start count g s.
Proof.
  revert start s. induction count as [|n IH]; intros start s Hfg; simpl.
  - reflexivity.
  - rewrite (Hfg start s) by lia. destruct (g start s) as [t|]; simpl; [|reflexivity].
    apply IH. intros i u Hi. apply Hfg. lia.
Qed.

Lemma inter_area_nonneg (a b : cv.Rect) : 0 <= cv.area (cv.inter a b).
Proof.
  unfold cv.inter, cv.area.
  repeat match goal with |- context [?a <=? 0] => destruct (Z.leb_spec a 0) end;
    simpl; try lia.
  apply Z.mul_nonneg_nonneg; lia.
Qed.

Lemma inter_le_union (a b : cv.Rect) :
  0 < cv.area (cv.inter a b) -> cv.area (cv.inter a b) <= cv.area (cv.union a b).
Proof.
  intros H. destruct (inter_pos_dims a b H) as [Hw Hh].
  unfold cv.inter, cv.area in *.
  repeat match goal with |- context [?a <=? 0] => destruct (Z.leb_spec a 0) end;
    simpl in *; try lia.
  apply Z.mul_le_mono_nonneg; lia.
Qed.

Lemma unions_fit_at st (i j : nat) (ra rb : cv.Rect) :
  unions_fit st -> rectsChA st !! i = Some ra -> rectsChB st !! j = Some rb ->
  cv.area (cv.union ra rb) <= INT_MAX.
Proof.
  intros Hfit Ha Hb. unfold unions_fit in Hfit.
  rewrite Forall_lookup in Hfit. specialize (Hfit i ra Ha).
  rewrite Forall_lookup in Hfit. exact (Hfit j rb Hb).
Qed.

(** When no area overflows, the scan on [int] computes what the scan in
    exact arithmetic computes. *)
Lemma scan_pair_exact st (i j : nat) (s : Scan) :
  unions_fit st -> int32.scan_pair st i j s = scan_pair st i j s.
Proof.
  intros Hfit. unfold int32.scan_pair, scan_pair.
  destruct (usedA st !! i) as [ua|]; simpl; [|reflexivity].
  destruct (negb (ua =? 0)); [reflexivity|].
  destruct (usedB st !! j) as [ub|]; simpl; [|reflexivity].
  destruct (negb (ub =? 0)); [reflexivity|].
  destruct (rectsChA st !! i) as [ra|] eqn:Ha; simpl; [|reflexivity].
  destruct (rectsChB st !! j) as [rb|] eqn:Hb; simpl; [|reflexivity].
  pose proof (unions_fit_at st i j ra rb Hfit Ha Hb) as Hu.
  pose proof (inter_area_nonneg ra rb) as H0.
  destruct (Z.ltb_spec 0 (cv.area (cv.inter ra rb))) as [Hpos|Hn].
  - pose proof (inter_le_union ra rb Hpos) as Hle.
    pose proof (union_area_pos ra rb Hpos) as Hup.
    unfold int32.area, int32.mul.
    change (cv.width (cv.inter ra rb) * cv.height (cv.inter ra rb))
      with (cv.area (cv.inter ra rb)).
    change (cv.width (cv.union ra rb) * cv.height (cv.union ra rb))
      with (cv.area (cv.union ra rb)).
    rewrite (wrap_small (cv.area (cv.inter ra rb))) by lia.
    rewrite (wrap_small (cv.area (cv.union ra rb))) by lia.
    destruct (Z.ltb_spec 0 (cv.area (cv.inter ra rb))); [reflexivity|lia].
  - assert (Hz : cv.area (cv.inter ra rb) = 0) by lia.
    unfold int32.area, int32.mul.
    change (cv.width (cv.inter ra rb) * cv.height (cv.inter ra rb))
      with (cv.area (cv.inter ra rb)).
    rewrite Hz. reflexivity.
Qed.

Lemma scanPairs_exact st : unions_fit st -> int32.scanPairs st = scanPairs st.
Proof.
  intros Hfit. unfold int32.scanPairs, scanPairs.
  apply for_range_ext. intros i t _.
  apply for_range_ext. intros j u _. now apply scan_pair_exact.
Qed.

Lemma getCCRectBinary_exact st code :
  unions_fit st -> int32.getCCRectBinary st code = getCCRectBinary st code.
Proof.
  intros Hfit. unfold int32.getCCRectBinary, getCCRectBinary.
  now rewrite scanPairs_exact.
Qed.

Lemma selected_exact st : unions_fit st -> int32.selected st = selected st.
Proof.
  intros Hfit. unfold int32.selected, selected. now rewrite scanPairs_exact.
Qed.

(** Two regions of 50000 by 50000 pixels overlap, but their area does not
    fit an [int]: the compiled scan reads a negative area and the call
    returns 1. *)
Example getCCRectBinary_area_overflow :
  let a := cv.mkRect 0 0 50000 50000 in
  let st := mkCCArgs [a] [a] [0] [0] [cv.empty] in
  int32.area (cv.inter a a) = -1794967296 /\
  int32.getCCRectBinary st 0 = Some (1, st).
Proof. split; reflexivity. Qed.

(** With a region of 50000 by 50000 pixels in the second list the exact
    scan ranks its union first; the compiled scan reads a negative area
    for it and settles on the other pair. *)
Example getCCRectBinary_overflow_skips_largest :
  let st := mkCCArgs [cv.mkRect 0 0 10 10]
              [cv.mkRect 0 0 50000 50000; cv.mkRect 5 5 10 10]
              [0] [0; 0] [cv.empty] in
  selected st = Some (0, 0)%nat /\ int32.selected st = Some (0, 1)%nat /\
  int32.getCCRectBinary st 0 =
    Some (0, mkCCArgs (rectsChA st) (rectsChB st) [1] [0; 1]
               [cv.mkRect 0 0 15 15]).
Proof. repeat split; reflexivity. Qed.

(** C1. With marker arrays that cover the two region lists, a slot [code]
    inside the output array and no area beyond [INT_MAX]: the pairs that
    count are those with both markers unused and an intersection of
    positive area; if there is one, the call picks one whose union
    rectangle has the largest area of all, writes that union to
    [ccRects[code]], marks both regions used and returns 0; if there is
    none it returns 1. *)
Theorem getCCRectBinary_selects_largest_union st code :
  markers_cover st ->
  0 <= code < Z.of_nat (length (ccRects st)) ->
  unions_fit st ->
  (exists i j u,
     candidate st i j u /\
     (forall i' j' u', candidate st i' j' u' -> cv.area u' <= cv.area u) /\
     int32.getCCRectBinary st code =
       Some (0, mkCCArgs (rectsChA st) (rectsChB st)
                  (<[i := 1]> (usedA st)) (<[j := 1]> (usedB st))
                  (<[Z.to_nat code := u]> (ccRects st))))
  \/ ((forall i j u, ~ candidate st i j u) /\
      int32.getCCRectBinary st code = Some (1, st)).
Proof.
  intros Hcov Hcode Hfit. rewrite (getCCRectBinary_exact st code Hfit).
  destruct (getCCRectBinary_outcome st code Hcov)
    as [(i & j & u & _ & Hc & Hmax & Hrun) | (_ & Hnone & Hrun)].
  - left. exists i, j, u. repeat split; try assumption.
    rewrite Hrun. destruct (Z.leb_spec 0 code); [|lia].
    rewrite store_Some by lia. reflexivity.
  - right. split; assumption.
Qed.

Lemma getCCRectBinary_selects_largest_union_witness :
  let st := mkCCArgs [cv.mkRect 0 0 10 10]
              [cv.mkRect 5 5 4 4; cv.mkRect 5 5 20 20]
              [0] [0; 0] [cv.empty; cv.empty; cv.empty] in
  markers_cover st /\ 0 <= 0 < Z.of_nat (length (ccRects st)) /\
  unions_fit st /\
  ((exists i j u,
     candidate st i j u /\
     (forall i' j' u', candidate st i' j' u' -> cv.area u' <= cv.area u) /\
     int32.getCCRectBinary st 0 =
       Some (0, mkCCArgs (rectsChA st) (rectsChB st)
                  (<[i := 1]> (usedA st)) (<[j := 1]> (usedB st))
                  (<[Z.to_nat 0 := u]> (ccRects st))))
  \/ ((forall i j u, ~ candidate st i j u) /\
      int32.getCCRectBinary st 0 = Some (1, st))).
Proof.
  intros st.
  assert (H1 : markers_cover st) by (unfold markers_cover; simpl; lia).
  assert (H2 : 0 <= 0 < Z.of_nat (length (ccRects st))) by (simpl; lia).
  assert (H3 : unions_fit st)
    by (repeat constructor; vm_compute; discriminate).
  split; [exact H1|]. split; [exact H2|]. split; [exact H3|].
  exact (getCCRectBinary_selects_largest_union st 0 H1 H2 H3).
Defined.

(** C10. When no pair is a candidate the call returns 1 and every object it
    was given, the two region lists, the two marker arrays and the output
    array, is as before the call, whatever the slot [code]. *)
Theorem getCCRectBinary_no_match_unchanged st code :
  markers_cover st ->
  (forall i j u, ~ candidate st i j u) ->
  getCCRectBinary st code = Some (1, st).
Proof.
  intros Hcov Hnone.
  destruct (getCCRectBinary_outcome st code Hcov)
    as [(i & j & u & _ & Hc & _) | (_ & _ & Hrun)].
  - now destruct (Hnone i j u).
  - exact Hrun.
Qed.

Lemma getCCRectBinary_no_match_unchanged_witness :
  let st := mkCCArgs [cv.mkRect 0 0 10 10] [cv.mkRect 20 20 5 5]
              [0] [0] [cv.mkRect 1 2 3 4; cv.empty; cv.empty] in
  getCCRectBinary st 1 = Some (1, st).
Proof.
  intros st. apply (getCCRectBinary_no_match_unchanged st 1).
  - unfold markers_cover. simpl. lia.
  - intros i j u (ra & rb & Ha & Hb & _ & _ & Hpos & _).
    destruct i as [|i]; [|destruct i; discriminate].
    destruct j as [|j]; [|destruct j; discriminate].
    simpl in Ha, Hb. injection Ha as <-. injection Hb as <-.
    vm_compute in Hpos. discriminate.
Defined.

(** ** One pair presented alone *)

Lemma singleton_scan a b cc :
  scanPairs (mkCCArgs [a] [b] [0] [0] cc) =
  Some (if 0 <? cv.area (cv.inter a b)
        then mkScan (cv.union a b) (Some 0%nat) (Some 0%nat) (cv.area (cv.union a b))
        else scan_init).
Proof.
  unfold scanPairs, scan_pair. simpl.
  destruct (Z.ltb_spec 0 (cv.area (cv.inter a b))) as [Hpos|Hn]; [|reflexivity].
  apply union_area_pos in Hpos.
  destruct (Z.ltb_spec 0 (cv.area (cv.union a b))); [reflexivity|lia].
Qed.

Lemma singleton_matched a b cc code :
  0 <= code < Z.of_nat (length cc) ->
  0 < cv.area (cv.inter a b) ->
  selected (mkCCArgs [a] [b] [0] [0] cc) = Some (0, 0)%nat /\
  getCCRectBinary (mkCCArgs [a] [b] [0] [0] cc) code =
    Some (0, mkCCArgs [a] [b] [1] [1] (<[Z.to_nat code := cv.union a b]> cc)).
Proof.
  intros Hcode Hpos. unfold selected, getCCRectBinary. rewrite singleton_scan.
  pose proof (union_area_pos a b Hpos) as Hu.
  destruct (Z.ltb_spec 0 (cv.area (cv.inter a b))); [|lia].
  unfold commit. simpl.
  destruct (Z.ltb_spec 0 (cv.area (cv.union a b))); [|lia].
  split; [reflexivity|].
  destruct (Z.leb_spec 0 code); [|lia].
  rewrite store_Some by lia. reflexivity.
Qed.

Lemma singleton_unmatched a b cc code :
  ~ 0 < cv.area (cv.inter a b) ->
  selected (mkCCArgs [a] [b] [0] [0] cc) = None /\
  getCCRectBinary (mkCCArgs [a] [b] [0] [0] cc) code =
    Some (1, mkCCArgs [a] [b] [0] [0] cc).
Proof.
  intros Hn. unfold selected, getCCRectBinary. rewrite singleton_scan.
  destruct (Z.ltb_spec 0 (cv.area (cv.inter a b))); [lia|]. split; reflexivity.
Qed.

(** The counterexample to C3 as stated: in the lists of the spec's
    best-of-many example the pair [(A[0], B[0])] is presented with both
    markers unused and its intersection has area 16, but the call matches
    [(A[0], B[1])], whose union is larger, and leaves [B[0]] unused. *)
Lemma overlapping_pair_not_matched :
  let a := cv.mkRect 0 0 10 10 in
  let b := cv.mkRect 5 5 4 4 in
  let b' := cv.mkRect 5 5 20 20 in
  let st := mkCCArgs [a] [b; b'] [0] [0; 0] [cv.empty; cv.empty; cv.empty] in
  cv.area (cv.inter a b) = 16 /\
  int32.selected st = Some (0, 1)%nat /\
  int32.getCCRectBinary st 0 =
    Some (0, mkCCArgs [a] [b; b'] [1] [0; 1]
               [cv.union a b'; cv.empty; cv.empty]) /\
  ~ (int32.selected st = Some (0, 0)%nat <-> 0 < cv.area (cv.inter a b)).
Proof.
  split; [reflexivity|]. split; [reflexivity|]. split; [reflexivity|].
  intros [_ H]. assert (Hpos : 0 < 16) by lia.
  specialize (H Hpos). vm_compute in H. discriminate.
Qed.

(** C3, amended. With marker arrays that cover the lists, a slot [code]
    inside the output array and no area beyond [INT_MAX]: the call returns
    0 if and only if some pair with both markers unused has an intersection
    of positive area; the pair it matches is such a pair, receives the
    union in the slot and has both regions marked; and a pair [(a, b)]
    presented alone with both markers unused is matched if and only if
    its intersection has a positive area, nothing being changed
    otherwise.  So (0,0,10,10) and (5,5,10,10) are matched with union
    (0,0,15,15), and (0,0,10,10) and (20,20,5,5) are not. *)
Theorem pair_matched_iff_overlap st code :
  markers_cover st ->
  0 <= code < Z.of_nat (length (ccRects st)) ->
  unions_fit st ->
  (fst <$> int32.getCCRectBinary st code = Some 0 <->
     exists i j ra rb,
       rectsChA st !! i = Some ra /\ rectsChB st !! j = Some rb /\
       usedA st !! i = Some 0 /\ usedB st !! j = Some 0 /\
       0 < cv.area (cv.inter ra rb)) /\
  (forall i j, int32.selected st = Some (i, j) ->
     exists ra rb,
       rectsChA st !! i = Some ra /\ rectsChB st !! j = Some rb /\
       usedA st !! i = Some 0 /\ usedB st !! j = Some 0 /\
       0 < cv.area (cv.inter ra rb) /\
       int32.getCCRectBinary st code =
         Some (0, mkCCArgs (rectsChA st) (rectsChB st)
                    (<[i := 1]> (usedA st)) (<[j := 1]> (usedB st))
                    (<[Z.to_nat code := cv.union ra rb]> (ccRects st)))) /\
  (forall a b,
     rectsChA st = [a] -> rectsChB st = [b] ->
     usedA st = [0] -> usedB st = [0] ->
     (int32.selected st = Some (0, 0)%nat <-> 0 < cv.area (cv.inter a b)) /\
     (0 < cv.area (cv.inter a b) ->
        int32.getCCRectBinary st code =
          Some (0, mkCCArgs [a] [b] [1] [1]
                     (<[Z.to_nat code := cv.union a b]> (ccRects st)))) /\
     (~ 0 < cv.area (cv.inter a b) ->
        int32.getCCRectBinary st code = Some (1, st))) /\
  (forall cc,
     0 <= code < Z.of_nat (length cc) ->
     int32.getCCRectBinary
       (mkCCArgs [cv.mkRect 0 0 10 10] [cv.mkRect 5 5 10 10] [0] [0] cc) code =
       Some (0, mkCCArgs [cv.mkRect 0 0 10 10] [cv.mkRect 5 5 10 10] [1] [1]
                  (<[Z.to_nat code := cv.mkRect 0 0 15 15]> cc)) /\
     int32.getCCRectBinary
       (mkCCArgs [cv.mkRect 0 0 10 10] [cv.mkRect 20 20 5 5] [0] [0] cc) code =
       Some (1, mkCCArgs [cv.mkRect 0 0 10 10] [cv.mkRect 20 20 5 5] [0] [0] cc)).
Proof.
  intros Hcov Hcode Hfit.
  rewrite (getCCRectBinary_exact st code Hfit), (selected_exact st Hfit).
  split; [|split; [|split]].
  - destruct (getCCRectBinary_outcome st code Hcov)
      as [(i & j & u & _ & Hc & _ & Hrun) | (_ & Hnone & Hrun)]; rewrite Hrun.
    + destruct (Z.leb_spec 0 code); [|lia].
      rewrite store_Some by lia. simpl. split; [|reflexivity]. intros _.
      destruct Hc as (ra & rb & Ha & Hb & Hua & Hub & Hpos & _).
      exists i, j, ra, rb. auto.
    + simpl. split; [discriminate|].
      intros (i & j & ra & rb & Ha & Hb & Hua & Hub & Hpos).
      destruct (Hnone i j (cv.union ra rb)). exists ra, rb.
      repeat (split; [assumption|]). reflexivity.
  - intros i j Hsel.
    destruct (getCCRectBinary_outcome st code Hcov)
      as [(i0 & j0 & u & Hs & Hc & _ & Hrun) | (Hs & _)]; [|congruence].
    rewrite Hs in Hsel. injection Hsel as <- <-.
    destruct Hc as (ra & rb & Ha & Hb & Hua & Hub & Hpos & ->).
    exists ra, rb. repeat (split; [assumption|]).
    rewrite Hrun. destruct (Z.leb_spec 0 code); [|lia].
    rewrite store_Some by lia. reflexivity.
  - intros a b HA HB HuA HuB. destruct st as [A B uA uB cc]. simpl in *. subst.
    destruct (Z.lt_ge_cases 0 (cv.area (cv.inter a b))) as [Hpos|Hn].
    + destruct (singleton_matched a b cc code Hcode Hpos) as [Hs Hrun].
      rewrite Hs, Hrun. repeat split; auto; intros; lia.
    + destruct (singleton_unmatched a b cc code ltac:(lia)) as [Hs Hrun].
      rewrite Hs, Hrun. repeat split; try discriminate; try lia; auto.
  - intros cc Hcc. split.
    + rewrite getCCRectBinary_exact
        by (repeat constructor; vm_compute; discriminate).
      now apply singleton_matched.
    + rewrite getCCRectBinary_exact
        by (repeat constructor; vm_compute; discriminate).
      apply singleton_unmatched. vm_compute. discriminate.
Qed.

Lemma pair_matched_iff_overlap_witness :
  let a := cv.mkRect 0 0 10 10 in
  let b := cv.mkRect 5 5 10 10 in
  let cc := [cv.empty; cv.empty; cv.empty] in
  let st := mkCCArgs [a] [b] [0] [0] cc in
  markers_cover st /\ unions_fit st /\
  fst <$> int32.getCCRectBinary st 2 = Some 0 /\
  int32.getCCRectBinary st 2 =
    Some (0, mkCCArgs [a] [b] [1] [1] (<[Z.to_nat 2 := cv.union a b]> cc)).
Proof.
  intros a b cc st.
  assert (H1 : markers_cover st) by (unfold markers_cover; simpl; lia).
  assert (H2 : 0 <= 2 < Z.of_nat (length (ccRects st))) by (simpl; lia).
  assert (H3 : unions_fit st) by (repeat constructor; vm_compute; discriminate).
  split; [exact H1|]. split; [exact H3|].
  destruct (pair_matched_iff_overlap st 2 H1 H2 H3) as (Hiff & _ & Halone & _).
  split.
  - apply Hiff. exists 0%nat, 0%nat, a, b.
    repeat split; try reflexivity.
  - apply (Halone a b); try reflexivity.
Defined.

(** ** The three passes of a frame *)

(** What one call does to the markers: the pair it commits had both
    markers at 0 and has both at 1 afterwards, a marker that is not 0 stays
    as it is, and no array changes its length. *)
Lemma pass_effect st code :
  markers_cover st ->
  0 <= code < Z.of_nat (length (ccRects st)) ->
  exists r st',
    getCCRectBinary st code = Some (r, st') /\
    length (usedA st') = length (usedA st) /\
    length (usedB st') = length (usedB st) /\
    length (ccRects st') = length (ccRects st) /\
    (forall i j, selected st = Some (i, j) ->
       usedA st !! i = Some 0 /\ usedB st !! j = Some 0 /\
       usedA st' !! i = Some 1 /\ usedB st' !! j = Some 1) /\
    (forall i v, usedA st !! i = Some v -> v <> 0 -> usedA st' !! i = Some v) /\
    (forall j v, usedB st !! j = Some v -> v <> 0 -> usedB st' !! j = Some v).
Proof.
  intros Hcov Hcode.
  destruct (getCCRectBinary_outcome st code Hcov)
    as [(i & j & u & Hsel & Hc & _ & Hrun) | (Hsel & _ & Hrun)].
  - destruct (Z.leb_spec 0 code); [|lia].
    rewrite store_Some in Hrun by lia. simpl in Hrun.
    destruct Hc as (ra & rb & _ & _ & Hua & Hub & _).
    do 2 eexists. split; [exact Hrun|]. simpl.
    rewrite !length_insert.
    split; [reflexivity|]. split; [reflexivity|]. split; [reflexivity|].
    split; [|split].
    + intros i' j' Hs. rewrite Hsel in Hs. injection Hs as <- <-.
      repeat split; try assumption.
      * apply list_lookup_insert_eq. now apply lookup_lt_Some in Hua.
      * apply list_lookup_insert_eq. now apply lookup_lt_Some in Hub.
    + intros i' v Hv Hne. rewrite list_lookup_insert_ne; [exact Hv|].
      intros ->. congruence.
    + intros j' v Hv Hne. rewrite list_lookup_insert_ne; [exact Hv|].
      intros ->. congruence.
  - do 2 eexists. split; [exact Hrun|].
    split; [reflexivity|]. split; [reflexivity|]. split; [reflexivity|].
    split; [|split]; [intros i j Hs; congruence| |]; intros i v Hv _; exact Hv.
Qed.

Lemma draw_if_found_Some ret cc (code : nat) frame :
  (code < length cc)%nat -> is_Some (draw_if_found ret cc code frame).
Proof.
  intros H. unfold draw_if_found. destruct (ret =? 0); [|eauto].
  destruct (lookup_lt_is_Some_2 cc code H) as [r ->]. simpl. eauto.
Qed.

(** C2. In the three passes of a frame, {1,2} then {1,3} then {2,3}, every
    call returns, and a region committed by one pass is not the region a
    later pass commits for the same channel: channel 1 between the first
    and the second pass, channel 2 between the first and the third, channel
    3 between the second and the third. *)
Theorem used_region_never_selected_again
    (rects1 rects2 rects3 cc : list cv.Rect) :
  (3 <= length cc)%nat ->
  exists r0 s12 r1 s13 r2 s23,
    getCCRectBinary (pass12 rects1 rects2 cc) 0 = Some (r0, s12) /\
    getCCRectBinary (pass13 rects1 rects3 s12) 1 = Some (r1, s13) /\
    getCCRectBinary (pass23 rects2 rects3 s12 s13) 2 = Some (r2, s23) /\
    is_Some (matchChannelPairs rects1 rects2 rects3 cc) /\
    (forall i j i' k,
       selected (pass12 rects1 rects2 cc) = Some (i, j) ->
       selected (pass13 rects1 rects3 s12) = Some (i', k) -> i' <> i) /\
    (forall i j j' k,
       selected (pass12 rects1 rects2 cc) = Some (i, j) ->
       selected (pass23 rects2 rects3 s12 s13) = Some (j', k) -> j' <> j) /\
    (forall i k j k',
       selected (pass13 rects1 rects3 s12) = Some (i, k) ->
       selected (pass23 rects2 rects3 s12 s13) = Some (j, k') -> k' <> k).
Proof.
  intros Hcc.
  destruct (pass_effect (pass12 rects1 rects2 cc) 0)
    as (r0 & s12 & Hrun1 & HlA1 & HlB1 & Hlc1 & Hsel1 & _ & _).
  { unfold markers_cover. simpl. rewrite !length_replicate. lia. }
  { simpl. lia. }
  simpl in HlA1, HlB1, Hlc1. rewrite length_replicate in HlA1, HlB1.
  destruct (pass_effect (pass13 rects1 rects3 s12) 1)
    as (r1 & s13 & Hrun2 & HlA2 & HlB2 & Hlc2 & Hsel2 & HkeepA2 & _).
  { unfold markers_cover. simpl. rewrite length_replicate. lia. }
  { simpl. lia. }
  simpl in HlA2, HlB2, Hlc2, HkeepA2. rewrite length_replicate in HlB2.
  destruct (pass_effect (pass23 rects2 rects3 s12 s13) 2)
    as (r2 & s23 & Hrun3 & HlA3 & HlB3 & Hlc3 & Hsel3 & _ & _).
  { unfold markers_cover. simpl. lia. }
  { simpl. lia. }
  simpl in Hlc3.
  exists r0, s12, r1, s13, r2, s23.
  split; [exact Hrun1|]. split; [exact Hrun2|]. split; [exact Hrun3|].
  split; [|split; [|split]].
  - unfold matchChannelPairs. rewrite Hrun1. simpl.
    destruct (draw_if_found_Some r0 (ccRects s12) 0 []) as [f0 ->]; [lia|]. simpl.
    rewrite Hrun2. simpl.
    destruct (draw_if_found_Some r1 (ccRects s13) 1 f0) as [f1 ->]; [lia|]. simpl.
    rewrite Hrun3. simpl.
    destruct (draw_if_found_Some r2 (ccRects s23) 2 f1) as [f2 ->]; [lia|]. simpl.
    eauto.
  - intros i j i' k H1 H2 ->.
    destruct (Hsel1 i j H1) as (_ & _ & Hi & _).
    destruct (Hsel2 i k H2) as (Hi' & _). simpl in Hi'. congruence.
  - intros i j j' k H1 H3 ->.
    destruct (Hsel1 i j H1) as (_ & _ & _ & Hj).
    destruct (Hsel3 j k H3) as (Hj' & _). simpl in Hj'. congruence.
  - intros i k j k' H2 H3 ->.
    destruct (Hsel2 i k H2) as (_ & _ & _ & Hk).
    destruct (Hsel3 j k H3) as (_ & Hk' & _). simpl in Hk'. congruence.
Qed.

Lemma used_region_never_selected_again_witness :
  let rects1 := [cv.mkRect 0 0 10 10] in
  let rects2 := [cv.mkRect 5 5 10 10] in
  let rects3 := [cv.mkRect 8 0 10 10; cv.mkRect 12 12 6 6] in
  let cc := replicate 21 cv.empty in
  exists r0 s12 r1 s13 r2 s23,
    getCCRectBinary (pass12 rects1 rects2 cc) 0 = Some (r0, s12) /\
    getCCRectBinary (pass13 rects1 rects3 s12) 1 = Some (r1, s13) /\
    getCCRectBinary (pass23 rects2 rects3 s12 s13) 2 = Some (r2, s23) /\
    is_Some (matchChannelPairs rects1 rects2 rects3 cc) /\
    (forall i j i' k,
       selected (pass12 rects1 rects2 cc) = Some (i, j) ->
       selected (pass13 rects1 rects3 s12) = Some (i', k) -> i' <> i) /\
    (forall i j j' k,
       selected (pass12 rects1 rects2 cc) = Some (i, j) ->
       selected (pass23 rects2 rects3 s12 s13) = Some (j', k) -> j' <> j) /\
    (forall i k j k',
       selected (pass13 rects1 rects3 s12) = Some (i, k) ->
       selected (pass23 rects2 rects3 s12 s13) = Some (j, k') -> k' <> k).
Proof.
  intros rects1 rects2 rects3 cc.
  apply (used_region_never_selected_again rects1 rects2 rects3 cc).
  simpl. lia.
Defined.

Example three_passes_share_markers :
  matchChannelPairs [cv.mkRect 0 0 10 10] [cv.mkRect 5 5 10 10]
    [cv.mkRect 8 0 10 10; cv.mkRect 12 12 6 6] [cv.empty; cv.empty; cv.empty]
  = Some (mkMatched [1] [1] [0; 0]
            [cv.mkRect 0 0 15 15; cv.empty; cv.empty] [cv.mkRect 0 0 15 15]).
Proof. reflexivity. Qed.

(** ** RegionExpander *)

Lemma dilate_at_expand factor (done todo : list cv.Rect) (r : cv.Rect) :
  dilate_at factor (length done) (done ++ r :: todo) =
  Some ((done ++ [spec_expand factor r]) ++ todo).
Proof.
  unfold dilate_at. rewrite list_lookup_middle by reflexivity. simpl.
  rewrite store_Some by (rewrite length_app; simpl; lia).
  replace (length done) with (length done + 0)%nat at 1 by lia.
  rewrite insert_app_r. simpl. rewrite <- app_assoc. simpl.
  unfold spec_expand. rewrite !Z.add_simpl_l. reflexivity.
Qed.

Lemma dilate_loop factor (todo done : list cv.Rect) :
  for_range (length done) (length todo) (dilate_at factor) (done ++ todo) =
  Some (done ++ map (spec_expand factor) todo).
Proof.
  revert done. induction todo as [|r todo IH]; intros done; simpl.
  - reflexivity.
  - rewrite dilate_at_expand. simpl.
    specialize (IH (done ++ [spec_expand factor r])).
    rewrite length_app in IH. simpl in IH.
    replace (length done + 1)%nat with (Datatypes.S (length done)) in IH by lia.
    rewrite IH. now rewrite <- app_assoc.
Qed.

Lemma dilateRects_map factor (myRect : list cv.Rect) :
  dilateRects factor myRect = Some (map (spec_expand factor) myRect).
Proof. exact (dilate_loop factor myRect []). Qed.

(** When nothing overflows, [dilateRects] on [int] computes the expansion
    that the exact arithmetic gives. *)
Lemma dilate_fits_fields factor (r : cv.Rect) :
  dilate_fits factor r = true ->
  let dW := cv.width r * factor ÷ 100 in
  let dH := cv.height r * factor ÷ 100 in
  int32.mul (cv.width r) factor = cv.width r * factor /\
  int32.mul (cv.height r) factor = cv.height r * factor /\
  int32.add (cv.width r) dW = cv.width r + dW /\
  int32.add (cv.height r) dH = cv.height r + dH /\
  int32.sub (cv.x r) (dW ÷ 2) = cv.x r - dW ÷ 2 /\
  int32.sub (cv.y r) (dH ÷ 2) = cv.y r - dH ÷ 2.
Proof.
  unfold dilate_fits. cbv zeta. rewrite !andb_true_iff.
  intros [[[[[H1 H2] H3] H4] H5] H6].
  unfold int32.mul, int32.add, int32.sub.
  rewrite !wrap_fits by assumption. repeat split; reflexivity.
Qed.

Lemma dilate_at_int32_expand factor (done todo : list cv.Rect) (r : cv.Rect) :
  dilate_fits factor r = true ->
  int32.dilate_at factor (length done) (done ++ r :: todo) =
  Some ((done ++ [spec_expand factor r]) ++ todo).
Proof.
  intros Hfit. rewrite <- dilate_at_expand.
  destruct (dilate_fits_fields factor r Hfit) as (HW & HH & Hw & Hh & Hx & Hy).
  unfold int32.dilate_at, dilate_at.
  rewrite list_lookup_middle by reflexivity. simpl.
  rewrite HW, HH, Hw, Hh, Hx, Hy. reflexivity.
Qed.

Lemma dilate_int32_loop factor (todo done : list cv.Rect) :
  Forall (fun r => dilate_fits factor r = true) todo ->
  for_range (length done) (length todo) (int32.dilate_at factor) (done ++ todo) =
  Some (done ++ map (spec_expand factor) todo).
Proof.
  revert done. induction todo as [|r todo IH]; intros done Hfit; simpl.
  - reflexivity.
  - apply Forall_cons in Hfit as [Hr Hfit].
    rewrite dilate_at_int32_expand by assumption. simpl.
    specialize (IH (done ++ [spec_expand factor r]) Hfit).
    rewrite length_app in IH. simpl in IH.
    replace (length done + 1)%nat with (Datatypes.S (length done)) in IH by lia.
    rewrite IH. now rewrite <- app_assoc.
Qed.

Lemma dilateRects_int32_map factor (myRect : list cv.Rect) :
  Forall (fun r => dilate_fits factor r = true) myRect ->
  int32.dilateRects factor myRect = Some (map (spec_expand factor) myRect).
Proof. exact (dilate_int32_loop factor myRect []). Qed.

(** A region 100000000 pixels wide: [width*35] does not fit an [int], and
    the compiled program narrows the region instead of widening it. *)
Example dilateRects_width_overflow :
  dilate_fits 35 (cv.mkRect 5 6 100000000 10) = false /\
  int32.dilateRects 35 [cv.mkRect 5 6 100000000 10] =
    Some [cv.mkRect 3974841 5 92050328 13] /\
  spec_expand 35 (cv.mkRect 5 6 100000000 10) =
    cv.mkRect (-17499995) 5 135000000 13.
Proof. repeat split; reflexivity. Qed.

(** C6. When nothing overflows, a call replaces every region of the list,
    once, by the region with [newWidth = width + width*factor/100],
    [newHeight = height + height*factor/100] (division truncating) and the
    corner moved by [x -= dWidth/2], [y -= dHeight/2], where
    [dWidth = newWidth - width] and [dHeight = newHeight - height]; the list
    keeps its length and order. *)
Theorem dilateRects_expands_each_region_once factor (myRect : list cv.Rect) :
  Forall (fun r => dilate_fits factor r = true) myRect ->
  exists out,
    int32.dilateRects factor myRect = Some out /\
    out = map (spec_expand factor) myRect /\
    length out = length myRect /\
    forall i r, myRect !! i = Some r ->
      out !! i = Some (cv.mkRect
        (cv.x r - (cv.width r + cv.width r * factor ÷ 100 - cv.width r) ÷ 2)
        (cv.y r - (cv.height r + cv.height r * factor ÷ 100 - cv.height r) ÷ 2)
        (cv.width r + cv.width r * factor ÷ 100)
        (cv.height r + cv.height r * factor ÷ 100)).
Proof.
  intros Hfit. exists (map (spec_expand factor) myRect).
  split; [now apply dilateRects_int32_map|]. split; [reflexivity|].
  split; [apply length_map|].
  intros i r Hr. change (map (spec_expand factor) myRect) with (spec_expand factor <$> myRect).
  rewrite list_lookup_fmap, Hr. reflexivity.
Qed.

Lemma dilateRects_expands_each_region_once_witness :
  let myRect := [cv.mkRect 100 50 20 10; cv.mkRect 0 0 9 8] in
  exists out,
    int32.dilateRects 35 myRect = Some out /\
    out = map (spec_expand 35) myRect /\
    length out = length myRect /\
    forall i r, myRect !! i = Some r ->
      out !! i = Some (cv.mkRect
        (cv.x r - (cv.width r + cv.width r * 35 ÷ 100 - cv.width r) ÷ 2)
        (cv.y r - (cv.height r + cv.height r * 35 ÷ 100 - cv.height r) ÷ 2)
        (cv.width r + cv.width r * 35 ÷ 100)
        (cv.height r + cv.height r * 35 ÷ 100)).
Proof.
  intros myRect. apply (dilateRects_expands_each_region_once 35 myRect).
  repeat constructor.
Defined.

Example dilateRects_35 :
  dilateRects 35 [cv.mkRect 100 50 20 10; cv.mkRect 0 0 9 8] =
  Some [cv.mkRect 97 49 27 13; cv.mkRect (-1) (-1) 12 10].
Proof. reflexivity. Qed.

Lemma expand_fields f (r : cv.Rect) :
  0 <= cv.width r -> 0 <= cv.height r -> 0 <= f ->
  let dW := cv.width r * f / 100 in
  let dH := cv.height r * f / 100 in
  spec_expand f r =
  cv.mkRect (cv.x r - dW / 2) (cv.y r - dH / 2) (cv.width r + dW) (cv.height r + dH)
  /\ 0 <= dW /\ 0 <= dH.
Proof.
  intros Hw Hh Hf dW dH. unfold spec_expand.
  assert (HdW : cv.width r * f ÷ 100 = dW)
    by (apply Z.quot_div_nonneg; [apply Z.mul_nonneg_nonneg; lia | lia]).
  assert (HdH : cv.height r * f ÷ 100 = dH)
    by (apply Z.quot_div_nonneg; [apply Z.mul_nonneg_nonneg; lia | lia]).
  assert (0 <= dW) by (apply Z.div_pos; [apply Z.mul_nonneg_nonneg; lia | lia]).
  assert (0 <= dH) by (apply Z.div_pos; [apply Z.mul_nonneg_nonneg; lia | lia]).
  rewrite HdW, HdH.
  replace (cv.width r + dW - cv.width r) with dW by lia.
  replace (cv.height r + dH - cv.height r) with dH by lia.
  rewrite !Z.quot_div_nonneg by lia. auto.
Qed.

Lemma div100_zero_iff (a : Z) : 0 <= a -> (a / 100 = 0 <-> a < 100).
Proof.
  intros Ha. split; intros H.
  - pose proof (Z.div_mod a 100 ltac:(lia)). pose proof (Z.mod_pos_bound a 100 ltac:(lia)). lia.
  - apply Z.div_small. lia.
Qed.

(** The counterexample to the equality clause of C5: a 9 by 9 region grown
    by 1 percent keeps its area although the factor is not 0. *)
Lemma dilate_area_equal_nonzero_factor :
  let r := cv.mkRect 10 10 9 9 in
  0 <= cv.width r /\ 0 <= cv.height r /\ 0 <= 1 /\
  exists r', int32.dilateRects 1 [r] = Some [r'] /\ cv.area r' = cv.area r /\ 1 <> 0.
Proof.
  simpl. split; [lia|]. split; [lia|]. split; [lia|].
  exists (cv.mkRect 10 10 9 9).
  split; [reflexivity|]. split; [reflexivity | discriminate].
Qed.

(** C5, amended. For a region with [w, h >= 0] and a factor [f >= 0],
    when nothing overflows, the expanded region has its centre within 1 of
    the original centre on each
    axis (twice the centre moves by 0 or 1, and so does the centre in [int]
    arithmetic) and an area that is at least the original area; the two
    areas are equal exactly when [w = 0], [h = 0], or both [w*f < 100] and
    [h*f < 100], which is the case for [f = 0]. *)
Theorem dilate_centre_and_area f (r : cv.Rect) :
  0 <= cv.width r -> 0 <= cv.height r -> 0 <= f ->
  dilate_fits f r = true ->
  exists r',
    int32.dilateRects f [r] = Some [r'] /\
    0 <= centre2_x r' - centre2_x r <= 1 /\
    0 <= centre2_y r' - centre2_y r <= 1 /\
    0 <= centre_x r' - centre_x r <= 1 /\
    0 <= centre_y r' - centre_y r <= 1 /\
    cv.area r <= cv.area r' /\
    (cv.area r' = cv.area r <->
       cv.width r = 0 \/ cv.height r = 0 \/
       (cv.width r * f < 100 /\ cv.height r * f < 100)) /\
    (f = 0 -> r' = r).
Proof.
  intros Hw Hh Hf Hfit. exists (spec_expand f r).
  split; [apply dilateRects_int32_map; repeat constructor; exact Hfit|].
  clear Hfit.
  destruct (expand_fields f r Hw Hh Hf) as (-> & HdW & HdH).
  pose proof (div100_zero_iff (cv.width r * f) ltac:(apply Z.mul_nonneg_nonneg; lia)) as HzW.
  pose proof (div100_zero_iff (cv.height r * f) ltac:(apply Z.mul_nonneg_nonneg; lia)) as HzH.
  set (dW := cv.width r * f / 100) in *.
  set (dH := cv.height r * f / 100) in *.
  destruct r as [x y w h]. unfold centre2_x, centre2_y, centre_x, centre_y, cv.area.
  simpl in *.
  rewrite !Z.quot_div_nonneg by lia.
  pose proof (Z.div_mod dW 2 ltac:(lia)). pose proof (Z.mod_pos_bound dW 2 ltac:(lia)).
  pose proof (Z.div_mod dH 2 ltac:(lia)). pose proof (Z.mod_pos_bound dH 2 ltac:(lia)).
  pose proof (Z.div_mod w 2 ltac:(lia)). pose proof (Z.mod_pos_bound w 2 ltac:(lia)).
  pose proof (Z.div_mod h 2 ltac:(lia)). pose proof (Z.mod_pos_bound h 2 ltac:(lia)).
  pose proof (Z.div_mod (w + dW) 2 ltac:(lia)). pose proof (Z.mod_pos_bound (w + dW) 2 ltac:(lia)).
  pose proof (Z.div_mod (h + dH) 2 ltac:(lia)). pose proof (Z.mod_pos_bound (h + dH) 2 ltac:(lia)).
  split; [lia|]. split; [lia|]. split; [lia|]. split; [lia|].
  assert (Hexp : (w + dW) * (h + dH) = w * h + (w * dH + dW * h + dW * dH)) by ring.
  assert (0 <= w * dH) by (apply Z.mul_nonneg_nonneg; lia).
  assert (0 <= dW * h) by (apply Z.mul_nonneg_nonneg; lia).
  assert (0 <= dW * dH) by (apply Z.mul_nonneg_nonneg; lia).
  split; [lia|]. split; [split|].
  - intros Heq.
    destruct (Z.eq_dec w 0) as [|Hw0]; [auto|].
    destruct (Z.eq_dec h 0) as [|Hh0]; [auto|].
    right. right.
    assert (w * dH = 0) by lia. assert (dW * h = 0) by lia.
    assert (dH = 0) by (destruct (Z.eq_mul_0 w dH) as [Hz _]; destruct (Hz ltac:(lia)); lia).
    assert (dW = 0) by (destruct (Z.eq_mul_0 dW h) as [Hz _]; destruct (Hz ltac:(lia)); lia).
    split; [apply HzW | apply HzH]; assumption.
  - intros [-> | [-> | [Hsw Hsh]]].
    + assert (dW = 0) by (subst dW; reflexivity). lia.
    + assert (dH = 0) by (subst dH; reflexivity). lia.
    + assert (dW = 0) by (apply HzW; exact Hsw).
      assert (dH = 0) by (apply HzH; exact Hsh). lia.
  - intros ->. assert (dW = 0) by (subst dW; rewrite Z.mul_0_r; reflexivity).
    assert (dH = 0) by (subst dH; rewrite Z.mul_0_r; reflexivity).
    f_equal; lia.
Qed.

Lemma dilate_centre_and_area_witness :
  let r := cv.mkRect 100 50 20 10 in
  exists r',
    int32.dilateRects 35 [r] = Some [r'] /\
    0 <= centre2_x r' - centre2_x r <= 1 /\
    0 <= centre2_y r' - centre2_y r <= 1 /\
    0 <= centre_x r' - centre_x r <= 1 /\
    0 <= centre_y r' - centre_y r <= 1 /\
    cv.area r <= cv.area r' /\
    (cv.area r' = cv.area r <->
       cv.width r = 0 \/ cv.height r = 0 \/
       (cv.width r * 35 < 100 /\ cv.height r * 35 < 100)) /\
    (35 = 0 -> r' = r).
Proof.
  intros r. apply (dilate_centre_and_area 35 r); [simpl; lia ..|reflexivity].
Defined.

(** ** RegionExtractor *)

Section RegionExtractorFacts.

Variables Mat Point : Type.
Variable findContours : Mat -> list (list Point).
Variable approxPolyDP : list Point -> list Point.
Variable boundingRect : list Point -> cv.Rect.

Local Abbreviation extract := (getThresholdRects Mat Point findContours approxPolyDP boundingRect).
Local Abbreviation boxes := (blob_boxes Mat Point findContours approxPolyDP boundingRect).

Lemma keep_blob_loop (contours : list (list Point)) (filteredRect : list cv.Rect) :
  foldl (keep_blob Point approxPolyDP boundingRect) filteredRect contours =
  filteredRect ++
    filter (fun b => MINAREABLOB < cv.area b)
           (map (fun c => boundingRect (approxPolyDP c)) contours).
Proof.
  revert filteredRect. induction contours as [|c cs IH]; intros acc; simpl.
  - now rewrite app_nil_r.
  - rewrite IH. unfold keep_blob.
    destruct (Z.ltb_spec MINAREABLOB (cv.area (boundingRect (approxPolyDP c)))).
    + rewrite filter_cons_True by assumption. now rewrite <- app_assoc.
    + rewrite filter_cons_False by lia. reflexivity.
Qed.

Lemma getThresholdRects_filter (img : Mat) (filteredRect : list cv.Rect) :
  extract img filteredRect =
  filteredRect ++ filter (fun b => MINAREABLOB < cv.area b) (boxes img).
Proof. apply keep_blob_loop. Qed.

(** C8. Called on an empty output vector, as [detectCCBlobs] does, the
    extractor returns only regions whose bounding-box area exceeds
    [MINAREABLOB = 64]: a component at or below the threshold is dropped,
    one above it is kept, and a mask whose only component is bounded by a
    5 by 5 box gives the empty list.  On a vector that is not empty the
    regions are appended to what it holds. *)
Theorem getThresholdRects_area_filter (img : Mat) :
  MINAREABLOB = 64 /\
  Forall (fun r => MINAREABLOB < cv.area r) (extract img []) /\
  (forall r, r ∈ boxes img -> cv.area r <= MINAREABLOB -> r ∉ extract img []) /\
  (forall r, r ∈ boxes img -> MINAREABLOB < cv.area r -> r ∈ extract img []) /\
  (forall bx by_, boxes img = [cv.mkRect bx by_ 5 5] -> extract img [] = []) /\
  (forall out0, extract img out0 = out0 ++ extract img []).
Proof.
  split; [reflexivity|]. split; [|split; [|split; [|split]]].
  - rewrite getThresholdRects_filter. simpl.
    apply Forall_forall. intros r Hr. apply list_elem_of_filter in Hr. tauto.
  - intros r _ Hsmall Hin. rewrite getThresholdRects_filter in Hin. simpl in Hin.
    apply list_elem_of_filter in Hin. lia.
  - intros r Hin Hbig. rewrite getThresholdRects_filter. simpl.
    apply list_elem_of_filter. auto.
  - intros bx by_ Hone. rewrite getThresholdRects_filter, Hone. reflexivity.
  - intros out0. now rewrite !getThresholdRects_filter.
Qed.

End RegionExtractorFacts.

Example getThresholdRects_small_blob :
  getThresholdRects unit (Z * Z) (fun _ => [[(3, 3); (7, 3); (7, 7); (3, 7)]])
    (fun c => c) (fun _ => cv.mkRect 3 3 5 5) tt [] = [].
Proof. reflexivity. Qed.

(** ** CalibrationSampler *)

Lemma for_range_idle {S : Type} (body : nat -> S -> option S)
    (count start : nat) (s : S) :
  (forall i, (start <= i < start + count)%nat -> body i s = Some s) ->
  for_range start count body s = Some s.
Proof.
  intros Hidle.
  destruct (for_range_inv (fun _ t => t = s) body count start s eq_refl)
    as (s' & Hrun & ->); [|exact Hrun].
  intros i t Hi ->. exists s. auto.
Qed.

Lemma for_int_empty {S : Type} (lo hi : Z) (body : Z -> S -> option S) (s : S) :
  hi <= lo -> for_int lo hi body s = Some s.
Proof.
  intros H. unfold for_int. replace (Z.to_nat (hi - lo)) with 0%nat by lia.
  reflexivity.
Qed.

Lemma reset_vectors (MINHSV MAXHSV : list Z) :
  length MINHSV = 3%nat -> length MAXHSV = 3%nat ->
  for_range 0 3 reset_component (MINHSV, MAXHSV) =
  Some ([255; 255; 255], [0; 0; 0]).
Proof.
  intros Hmin Hmax.
  destruct MINHSV as [|a0 [|a1 [|a2 [|]]]]; try discriminate.
  destruct MAXHSV as [|b0 [|b1 [|b2 [|]]]]; try discriminate.
  reflexivity.
Qed.

(** One pixel: each component of [MINHSV] and [MAXHSV] takes the minimum
    and the maximum with the pixel's. *)
Lemma sample_pixel (p : Vec3b) (l0 l1 l2 h0 h1 h2 : Z) :
  for_range 0 3 (sample_component p) ([l0; l1; l2], [h0; h1; h2]) =
  Some ([Z.min l0 (val0 p); Z.min l1 (val1 p); Z.min l2 (val2 p)],
        [Z.max h0 (val0 p); Z.max h1 (val1 p); Z.max h2 (val2 p)]).
Proof.
  destruct p as [v0 v1 v2]. simpl.
  repeat match goal with
         | |- context [?a <? ?b] => destruct (Z.ltb_spec a b); simpl
         end;
    repeat f_equal; lia.
Qed.

Lemma comp_range_ext (S S' : Vec3b -> Prop) proj lo hi :
  (forall p, S p <-> S' p) -> comp_range S proj lo hi -> comp_range S' proj lo hi.
Proof.
  intros Hext (Hb & Hlo & Hhi). repeat split.
  - apply Hb. now apply Hext.
  - apply Hb. now apply Hext.
  - destruct Hlo as [|(p & Hp & Hv)]; [auto|]. right. exists p. split; [now apply Hext|exact Hv].
  - destruct Hhi as [|(p & Hp & Hv)]; [auto|]. right. exists p. split; [now apply Hext|exact Hv].
Qed.

Lemma comp_range_add (S : Vec3b -> Prop) proj lo hi (p : Vec3b) :
  comp_range S proj lo hi ->
  comp_range (fun q => S q \/ q = p) proj (Z.min lo (proj p)) (Z.max hi (proj p)).
Proof.
  intros (Hb & Hlo & Hhi). repeat split.
  - destruct H as [Hq | ->]; [specialize (Hb _ Hq)|]; lia.
  - destruct H as [Hq | ->]; [specialize (Hb _ Hq)|]; lia.
  - destruct (Z.min_spec lo (proj p)) as [[_ ->] | [_ ->]].
    + destruct Hlo as [|(q & Hq & Hv)]; [auto|]. right. exists q. auto.
    + right. exists p. auto.
  - destruct (Z.max_spec hi (proj p)) as [[_ ->] | [_ ->]].
    + right. exists p. auto.
    + destruct Hhi as [|(q & Hq & Hv)]; [auto|]. right. exists q. auto.
Qed.

Lemma sampled_ext (S S' : Vec3b -> Prop) mm :
  (forall p, S p <-> S' p) -> sampled S mm -> sampled S' mm.
Proof.
  intros Hext (l0 & l1 & l2 & h0 & h1 & h2 & -> & H0 & H1 & H2).
  exists l0, l1, l2, h0, h1, h2.
  repeat split; try reflexivity; eapply comp_range_ext; try eassumption;
    try apply H0; try apply H1; try apply H2.
Qed.

Lemma sampled_add (S : Vec3b -> Prop) mm (p : Vec3b) :
  sampled S mm ->
  exists mm', for_range 0 3 (sample_component p) mm = Some mm' /\
              sampled (fun q => S q \/ q = p) mm'.
Proof.
  intros (l0 & l1 & l2 & h0 & h1 & h2 & -> & H0 & H1 & H2).
  rewrite sample_pixel. eexists. split; [reflexivity|].
  do 6 eexists. split; [reflexivity|].
  split; [|split]; now apply comp_range_add.
Qed.

Lemma at_in_frame img rows cols (j i : Z) :
  frame_of img rows cols -> 0 <= j < rows -> 0 <= i < cols ->
  exists p, at_ img j i = Some p /\ pixel_ok p = true.
Proof.
  intros [Hrows Hall] Hj Hi. unfold at_.
  destruct (Z.leb_spec 0 j); [|lia]. destruct (Z.leb_spec 0 i); [|lia]. simpl.
  destruct (lookup_lt_is_Some_2 img (Z.to_nat j) ltac:(lia)) as [row Hrow].
  rewrite Hrow. simpl.
  rewrite Forall_forall in Hall.
  destruct (Hall row) as [Hlen Hpix].
  { eapply list_elem_of_lookup_2. exact Hrow. }
  destruct (lookup_lt_is_Some_2 row (Z.to_nat i) ltac:(lia)) as [p Hp].
  exists p. split; [exact Hp|].
  rewrite Forall_forall in Hpix. apply Hpix.
  eapply list_elem_of_lookup_2. exact Hp.
Qed.

Lemma sampled_nothing : sampled (fun _ => False) ([255; 255; 255], [0; 0; 0]).
Proof.
  exists 255, 255, 255, 0, 0, 0. split; [reflexivity|].
  repeat split; auto; contradiction.
Qed.

Lemma scanned_box img (x1 y1 x2 y2 : Z) (p : Vec3b) :
  scanned img [x1; y1; x2; y2] p <->
  exists i j, x1 <= i < x2 /\ y1 <= j < y2 /\ at_ img j i = Some p.
Proof.
  unfold scanned. simpl. split.
  - intros (a & b & c & d & i & j & [= <-] & [= <-] & [= <-] & [= <-] & H).
    exists i, j. tauto.
  - intros (i & j & H). exists x1, y1, x2, y2, i, j. tauto.
Qed.

(** The scan of a box that lies in the frame ends, with the minimum and
    maximum of each component over the pixels of the box. *)
Lemma getBoundingBoxHSV_sampled img rows cols (x1 y1 x2 y2 : Z)
    (MINHSV MAXHSV : list Z) :
  frame_of img rows cols ->
  0 <= x1 -> x2 <= cols -> 0 <= y1 -> y2 <= rows ->
  length MINHSV = 3%nat -> length MAXHSV = 3%nat ->
  exists mm,
    getBoundingBoxHSV img [x1; y1; x2; y2] MINHSV MAXHSV = Some mm /\
    sampled (scanned img [x1; y1; x2; y2]) mm.
Proof.
  intros Hframe Hx1 Hx2 Hy1 Hy2 Hmin Hmax.
  unfold getBoundingBoxHSV. rewrite reset_vectors by assumption. simpl.
  unfold for_int at 1.
  edestruct (for_range_inv
               (fun k mm => sampled (visited img x1 y1 y2 k 0) mm))
    as (mm & Hrun & Hmm); [| |exists mm; split; [exact Hrun|]].
  - eapply sampled_ext; [|exact sampled_nothing].
    intros p. split; [contradiction|]. intros (i & j & Hij & _). lia.
  - intros k t Hk Ht. simpl. unfold for_int.
    edestruct (for_range_inv
                 (fun l mm => sampled (visited img x1 y1 y2 k l) mm))
      as (t' & Hrun & Ht'); [exact Ht| |exists t'; split; [exact Hrun|]].
    + intros l u Hl Hu. simpl.
      destruct (at_in_frame img rows cols (y1 + Z.of_nat l) (x1 + Z.of_nat k) Hframe)
        as (p & Hp & _); [lia|lia|].
      rewrite Hp. simpl.
      destruct (sampled_add _ u p Hu) as (u' & Hu' & Hs). exists u'.
      split; [exact Hu'|].
      revert Hs. apply sampled_ext. intros q. split.
      * intros [(i & j & Hij & Hq) | ->].
        -- exists i, j. split; [lia|exact Hq].
        -- exists (x1 + Z.of_nat k), (y1 + Z.of_nat l). split; [lia|exact Hp].
      * intros (i & j & Hij & Hq).
        destruct (Z.eq_dec j (y1 + Z.of_nat l)) as [Hj|Hj];
          [destruct (Z.eq_dec i (x1 + Z.of_nat k)) as [Hi|Hi]|].
        -- right. subst i j. congruence.
        -- left. exists i, j. split; [lia|exact Hq].
        -- left. exists i, j. split; [lia|exact Hq].
    + revert Ht'. apply sampled_ext. intros q.
      split; intros (i & j & Hij & Hq); exists i, j; (split; [lia|exact Hq]).
  - revert Hmm. apply sampled_ext. intros q. rewrite scanned_box.
    split.
    + intros (i & j & Hij & Hq). exists i, j. split; [lia|]. split; [lia|exact Hq].
    + intros (i & j & Hi & Hj & Hq). exists i, j. split; [lia|exact Hq].
Qed.

Lemma at_pixel_ok img rows cols (j i : Z) (p : Vec3b) :
  frame_of img rows cols -> at_ img j i = Some p -> pixel_ok p = true.
Proof.
  intros [_ Hall] Hat. unfold at_ in Hat.
  destruct ((0 <=? j) && (0 <=? i)); [|discriminate].
  destruct (img !! Z.to_nat j) as [row|] eqn:Hrow; [|discriminate]. simpl in Hat.
  rewrite Forall_forall in Hall.
  destruct (Hall row) as [_ Hpix]; [eapply list_elem_of_lookup_2; exact Hrow|].
  rewrite Forall_forall in Hpix. apply Hpix.
  eapply list_elem_of_lookup_2. exact Hat.
Qed.

Lemma comp_range_min_max (S : Vec3b -> Prop) proj lo hi (p0 : Vec3b) :
  S p0 -> (forall p, S p -> 0 <= proj p <= 255) ->
  comp_range S proj lo hi -> min_max_over S proj lo hi.
Proof.
  intros H0 Hbyte (Hb & Hlo & Hhi).
  pose proof (Hb p0 H0). pose proof (Hbyte p0 H0).
  split; [exact Hb|]. split.
  - destruct Hlo as [-> | Hlo]; [|exact Hlo]. exists p0. split; [exact H0|lia].
  - destruct Hhi as [-> | Hhi]; [|exact Hhi]. exists p0. split; [exact H0|lia].
Qed.

Lemma pixel_ok_bounds (p : Vec3b) :
  pixel_ok p = true ->
  0 <= val0 p <= 255 /\ 0 <= val1 p <= 255 /\ 0 <= val2 p <= 255.
Proof. unfold pixel_ok, is_uchar. lia. Qed.

(** C7. For a box with [x1 < x2] and [y1 < y2] inside the frame the call
    returns, and each component of [MINHSV] and [MAXHSV] is the minimum and
    the maximum of that component over the pixels the scan reads (columns
    [x1 <= i < x2], rows [y1 <= j < y2]).  So a box of one colour gives
    [MINHSV = MAXHSV =] that colour, and a box whose pixels are (3,3,3)
    and (7,1,9), both present, gives (3,1,3) and (7,3,9). *)
Theorem getBoundingBoxHSV_min_max img rows cols (x1 y1 x2 y2 : Z)
    (MINHSV MAXHSV : list Z) :
  frame_of img rows cols ->
  0 <= x1 < x2 -> x2 <= cols -> 0 <= y1 < y2 -> y2 <= rows ->
  length MINHSV = 3%nat -> length MAXHSV = 3%nat ->
  let S := scanned img [x1; y1; x2; y2] in
  exists l0 l1 l2 h0 h1 h2,
    getBoundingBoxHSV img [x1; y1; x2; y2] MINHSV MAXHSV =
      Some ([l0; l1; l2], [h0; h1; h2]) /\
    min_max_over S val0 l0 h0 /\
    min_max_over S val1 l1 h1 /\
    min_max_over S val2 l2 h2 /\
    (forall c, (forall p, S p -> p = c) ->
       [l0; l1; l2] = [val0 c; val1 c; val2 c] /\
       [h0; h1; h2] = [val0 c; val1 c; val2 c]) /\
    ((forall p, S p -> p = mkVec3b 3 3 3 \/ p = mkVec3b 7 1 9) ->
     S (mkVec3b 3 3 3) -> S (mkVec3b 7 1 9) ->
       [l0; l1; l2] = [3; 1; 3] /\ [h0; h1; h2] = [7; 3; 9]).
Proof.
  intros Hframe Hx Hx2 Hy Hy2 Hmin Hmax S.
  destruct (getBoundingBoxHSV_sampled img rows cols x1 y1 x2 y2 MINHSV MAXHSV)
    as (mm & Hrun & (l0 & l1 & l2 & h0 & h1 & h2 & -> & H0 & H1 & H2));
    try assumption; try lia.
  destruct (at_in_frame img rows cols y1 x1 Hframe) as (p0 & Hp0 & _); [lia|lia|].
  assert (HS0 : S p0).
  { apply scanned_box. exists x1, y1. split; [lia|]. split; [lia|exact Hp0]. }
  assert (Hbyte : forall p, S p -> pixel_ok p = true).
  { intros p Hp. apply scanned_box in Hp. destruct Hp as (i & j & _ & _ & Hat).
    eapply at_pixel_ok; eassumption. }
  apply (comp_range_min_max S val0 l0 h0 p0 HS0) in H0;
    [|intros p Hp; apply pixel_ok_bounds; auto].
  apply (comp_range_min_max S val1 l1 h1 p0 HS0) in H1;
    [|intros p Hp; apply pixel_ok_bounds; auto].
  apply (comp_range_min_max S val2 l2 h2 p0 HS0) in H2;
    [|intros p Hp; apply pixel_ok_bounds; auto].
  exists l0, l1, l2, h0, h1, h2.
  split; [exact Hrun|]. split; [exact H0|]. split; [exact H1|]. split; [exact H2|].
  destruct H0 as (Hb0 & (pl0 & Sl0 & El0) & (ph0 & Sh0 & Eh0)).
  destruct H1 as (Hb1 & (pl1 & Sl1 & El1) & (ph1 & Sh1 & Eh1)).
  destruct H2 as (Hb2 & (pl2 & Sl2 & El2) & (ph2 & Sh2 & Eh2)).
  split.
  - intros c Hc.
    apply Hc in Sl0, Sl1, Sl2, Sh0, Sh1, Sh2. subst. auto.
  - intros Htwo Sa Sb.
    pose proof (Hb0 _ Sa) as A0. pose proof (Hb0 _ Sb) as B0.
    pose proof (Hb1 _ Sa) as A1. pose proof (Hb1 _ Sb) as B1.
    pose proof (Hb2 _ Sa) as A2. pose proof (Hb2 _ Sb) as B2.
    simpl in A0, B0, A1, B1, A2, B2.
    destruct (Htwo _ Sl0) as [-> | ->]; destruct (Htwo _ Sh0) as [-> | ->];
      simpl in El0, Eh0; try lia;
    destruct (Htwo _ Sl1) as [-> | ->]; destruct (Htwo _ Sh1) as [-> | ->];
      simpl in El1, Eh1; try lia;
    destruct (Htwo _ Sl2) as [-> | ->]; destruct (Htwo _ Sh2) as [-> | ->];
      simpl in El2, Eh2; try lia;
    subst; auto.
Qed.

Lemma getBoundingBoxHSV_min_max_witness :
  let img := [[mkVec3b 3 3 3; mkVec3b 7 1 9]; [mkVec3b 7 1 9; mkVec3b 3 3 3]] in
  let S := scanned img [0; 0; 2; 2] in
  exists l0 l1 l2 h0 h1 h2,
    getBoundingBoxHSV img [0; 0; 2; 2] [10; 20; 30] [40; 50; 60] =
      Some ([l0; l1; l2], [h0; h1; h2]) /\
    min_max_over S val0 l0 h0 /\
    min_max_over S val1 l1 h1 /\
    min_max_over S val2 l2 h2 /\
    (forall c, (forall p, S p -> p = c) ->
       [l0; l1; l2] = [val0 c; val1 c; val2 c] /\
       [h0; h1; h2] = [val0 c; val1 c; val2 c]) /\
    ((forall p, S p -> p = mkVec3b 3 3 3 \/ p = mkVec3b 7 1 9) ->
     S (mkVec3b 3 3 3) -> S (mkVec3b 7 1 9) ->
       [l0; l1; l2] = [3; 1; 3] /\ [h0; h1; h2] = [7; 3; 9]).
Proof.
  intros img.
  apply (getBoundingBoxHSV_min_max img 2 2 0 0 2 2 [10; 20; 30] [40; 50; 60]);
    try lia; try reflexivity.
  split; [reflexivity|]. repeat constructor.
Defined.

Example getBoundingBoxHSV_two_colours :
  getBoundingBoxHSV
    [[mkVec3b 3 3 3; mkVec3b 7 1 9]; [mkVec3b 7 1 9; mkVec3b 3 3 3]]
    [0; 0; 2; 2] [10; 20; 30] [40; 50; 60]
  = Some ([3; 1; 3], [7; 3; 9]).
Proof. reflexivity. Qed.

(** A box with [x1 < x2] and [y1 < y2] that reaches outside of the image
    makes the scan read outside of it: there is no bounds check. *)
Example getBoundingBoxHSV_outside :
  getBoundingBoxHSV
    [[mkVec3b 3 3 3; mkVec3b 7 1 9]; [mkVec3b 7 1 9; mkVec3b 3 3 3]]
    [1; 1; 3; 3] [10; 20; 30] [40; 50; 60]
  = None.
Proof. reflexivity. Qed.

(** The counterexample to C4: a zero-area box inside the frame, and one
    outside of it, both change thresholds that held another range. *)
Lemma degenerate_box_changes_thresholds :
  let img := [[mkVec3b 3 3 3; mkVec3b 7 1 9]; [mkVec3b 7 1 9; mkVec3b 3 3 3]] in
  let MINHSV := [10; 20; 30] in
  let MAXHSV := [40; 50; 60] in
  getBoundingBoxHSV img [1; 1; 1; 1] MINHSV MAXHSV
    = Some ([255; 255; 255], [0; 0; 0]) /\
  getBoundingBoxHSV img [5; 5; 5; 5] MINHSV MAXHSV
    = Some ([255; 255; 255], [0; 0; 0]) /\
  ([255; 255; 255], [0; 0; 0]) <> (MINHSV, MAXHSV).
Proof. simpl. repeat split; discriminate. Qed.

(** C4, amended. For a degenerate box ([x2 <= x1] or [y2 <= y1]), inside
    the frame or not, the call reads no pixel and leaves the empty range:
    [MINHSV = (255,255,255)] and [MAXHSV = (0,0,0)], whatever the two
    vectors held before; they are unchanged only if they already held it. *)
Theorem getBoundingBoxHSV_degenerate_resets img (x1 y1 x2 y2 : Z)
    (MINHSV MAXHSV : list Z) :
  x2 <= x1 \/ y2 <= y1 ->
  length MINHSV = 3%nat -> length MAXHSV = 3%nat ->
  getBoundingBoxHSV img [x1; y1; x2; y2] MINHSV MAXHSV =
    Some ([255; 255; 255], [0; 0; 0]) /\
  (getBoundingBoxHSV img [x1; y1; x2; y2] MINHSV MAXHSV = Some (MINHSV, MAXHSV)
   <-> MINHSV = [255; 255; 255] /\ MAXHSV = [0; 0; 0]).
Proof.
  intros Hdeg Hmin Hmax.
  assert (Hrun : getBoundingBoxHSV img [x1; y1; x2; y2] MINHSV MAXHSV =
                 Some ([255; 255; 255], [0; 0; 0])).
  { unfold getBoundingBoxHSV. rewrite reset_vectors by assumption. simpl.
    destruct (Z.le_gt_cases x2 x1) as [Hx|Hx].
    - now apply for_int_empty.
    - destruct Hdeg as [|Hy]; [lia|].
      unfold for_int at 1. apply for_range_idle. intros k _.
      now apply for_int_empty. }
  split; [exact Hrun|]. rewrite Hrun. split.
  - intros [= <- <-]. auto.
  - intros [-> ->]. reflexivity.
Qed.

Lemma getBoundingBoxHSV_degenerate_resets_witness :
  getBoundingBoxHSV [[mkVec3b 3 3 3]] [0; 0; 1; 0] [10; 20; 30] [40; 50; 60] =
    Some ([255; 255; 255], [0; 0; 0]).
Proof.
  apply (getBoundingBoxHSV_degenerate_resets
           [[mkVec3b 3 3 3]] 0 0 1 0 [10; 20; 30] [40; 50; 60]).
  - right. lia.
  - reflexivity.
  - reflexivity.
Defined.

(** ** ConfigStore *)

Arguments print_d : simpl never.

Lemma string_append_assoc (s1 s2 s3 : string) :
  String.append (String.append s1 s2) s3 = String.append s1 (String.append s2 s3).
Proof. induction s1 as [|c s1 IH]; simpl; [reflexivity|now rewrite IH]. Qed.

Lemma digit_not_sign_or_space (c : ascii) (D : Decimal.uint -> Decimal.uint) :
  digit_of c = Some D ->
  Ascii.eqb c "-" = false /\ Ascii.eqb c "+" = false /\ isspace c = false.
Proof.
  destruct c as [[] [] [] [] [] [] [] []]; vm_compute; intros H;
    try discriminate H; auto.
Qed.

(** A numeral and its text: every character is the digit it stands for. *)
Lemma scan_digits_numeral (d : Decimal.uint) (rest : string) :
  scan_digits rest = (Decimal.Nil, rest) ->
  scan_digits (String.append (NilEmpty.string_of_uint d) rest) = (d, rest).
Proof.
  intros Hrest. induction d; simpl; try rewrite IHd; try reflexivity.
  exact Hrest.
Qed.

Lemma numeral_head (d : Decimal.uint) :
  d <> Decimal.Nil ->
  exists c s D, NilEmpty.string_of_uint d = String c s /\ digit_of c = Some D.
Proof.
  intros Hd. destruct d; [congruence|..]; simpl; do 3 eexists; split; reflexivity.
Qed.

Lemma convert_numeral sign (d : Decimal.uint) :
  d <> Decimal.Nil -> is_int (Z.of_int (sign d)) = true ->
  convert sign d = Converted (Z.of_int (sign d)).
Proof.
  intros Hd Hint. unfold convert. rewrite Hint. destruct d; [congruence|..]; reflexivity.
Qed.

(** What [print_d] writes starts with a digit or with [-]. *)
Lemma skip_space_print (v : Z) (rest : string) :
  skip_space (String.append (print_d v) rest) = String.append (print_d v) rest.
Proof.
  unfold print_d. destruct v as [|p|p]; simpl; try reflexivity;
    destruct (numeral_head (Pos.to_uint p) (Unsigned.to_uint_nonnil p))
      as (c & s & D & -> & HD);
    apply digit_not_sign_or_space in HD; destruct HD as (_ & _ & Hsp);
    simpl; now rewrite Hsp.
Qed.

Lemma scan_d_minus (rest : string) :
  scan_d (String "-" rest) =
  (let '(d, rest') := scan_digits rest in (convert Decimal.Neg d, rest')).
Proof. reflexivity. Qed.

Lemma scan_d_unsigned (c : ascii) (s : string) :
  Ascii.eqb c "-" = false -> Ascii.eqb c "+" = false ->
  scan_d (String c s) =
  (let '(d, rest') := scan_digits (String c s) in (convert Decimal.Pos d, rest')).
Proof. intros Hm Hp. unfold scan_d. now rewrite Hm, Hp. Qed.

(** [%d] reads back what [%d] wrote, when what follows is not a digit. *)
Lemma scan_d_print (v : Z) (rest : string) :
  is_int v = true ->
  scan_digits rest = (Decimal.Nil, rest) ->
  scan_d (String.append (print_d v) rest) = (Converted v, rest).
Proof.
  intros Hint Hrest. unfold print_d.
  destruct v as [|p|p].
  - unfold scan_d. simpl. rewrite Hrest. reflexivity.
  - assert (Hv : Z.of_int (Decimal.Pos (Pos.to_uint p)) = Z.pos p)
      by exact (of_to (Z.pos p)).
    change (NilEmpty.string_of_int (Z.to_int (Z.pos p)))
      with (NilEmpty.string_of_uint (Pos.to_uint p)).
    destruct (numeral_head (Pos.to_uint p) (Unsigned.to_uint_nonnil p))
      as (c & s & D & Hs & HD).
    pose proof (scan_digits_numeral (Pos.to_uint p) rest Hrest) as Hscan.
    rewrite Hs in *. simpl String.append in *.
    apply digit_not_sign_or_space in HD. destruct HD as (Hm & Hp & _).
    rewrite scan_d_unsigned by assumption. rewrite Hscan.
    rewrite convert_numeral; [now rewrite Hv | apply Unsigned.to_uint_nonnil |].
    now rewrite Hv.
  - assert (Hv : Z.of_int (Decimal.Neg (Pos.to_uint p)) = Z.neg p)
      by exact (of_to (Z.neg p)).
    change (NilEmpty.string_of_int (Z.to_int (Z.neg p)))
      with (String "-" (NilEmpty.string_of_uint (Pos.to_uint p))).
    pose proof (scan_digits_numeral (Pos.to_uint p) rest Hrest) as Hscan.
    simpl String.append. rewrite scan_d_minus, Hscan.
    rewrite convert_numeral; [now rewrite Hv | apply Unsigned.to_uint_nonnil |].
    now rewrite Hv.
Qed.

(** One directive of [fscanf] at a time. *)
Lemma fscanf_lit (c : ascii) (fmt rest : string) :
  Ascii.eqb c "%" = false -> isspace c = false ->
  fscanf (String c fmt) (String c rest) = fscanf fmt rest.
Proof. intros H1 H2. simpl. now rewrite H1, H2, Ascii.eqb_refl. Qed.

Lemma fscanf_space (c : ascii) (fmt stream : string) :
  Ascii.eqb c "%" = false -> isspace c = true ->
  fscanf (String c fmt) stream = fscanf fmt (skip_space stream).
Proof. intros H1 H2. simpl. now rewrite H1, H2. Qed.

Lemma fscanf_d (c : ascii) (fmt : string) (v : Z) (rest : string) :
  is_int v = true -> scan_digits rest = (Decimal.Nil, rest) ->
  fscanf (String "%" (String c fmt)) (String.append (print_d v) rest) =
  ('(vs, rest') ← fscanf fmt rest; Some (v :: vs, rest')).
Proof.
  intros Hint Hrest. simpl. rewrite skip_space_print, scan_d_print by assumption.
  reflexivity.
Qed.

Lemma fscanf_end (stream : string) : fscanf EmptyString stream = Some ([], stream).
Proof. reflexivity. Qed.

Lemma skip_space_cons (c : ascii) (s : string) :
  isspace c = true -> skip_space (String c s) = skip_space s.
Proof. intros H. simpl. now rewrite H. Qed.

Lemma skip_space_stop (c : ascii) (s : string) :
  isspace c = false -> skip_space (String c s) = String c s.
Proof. intros H. simpl. now rewrite H. Qed.

(** One line: the values written are the values read, and the stream is
    left at the start of the next line. *)
Lemma config_line_round_trip (i a0 a1 a2 b0 b1 b2 : Z) (rest : string) :
  Forall (fun v => is_int v = true) [i; a0; a1; a2; b0; b1; b2] ->
  skip_space rest = rest ->
  fscanf config_format
    (String.append (fprintf config_format [i; a0; a1; a2; b0; b1; b2]) rest) =
  Some ([i; a0; a1; a2; b0; b1; b2], rest).
Proof.
  intros Hint Hrest.
  repeat match goal with H : Forall _ (_ :: _) |- _ => apply Forall_cons in H; destruct H end.
  unfold config_format. simpl fprintf. simpl String.append.
  repeat (rewrite string_append_assoc; simpl String.append).
  repeat first
    [ rewrite fscanf_lit by reflexivity
    | rewrite fscanf_space by reflexivity
    | rewrite skip_space_cons by reflexivity
    | rewrite skip_space_stop by reflexivity
    | rewrite skip_space_print
    | rewrite fscanf_d by (assumption || reflexivity)
    | rewrite fscanf_end ].
  rewrite Hrest. reflexivity.

Qed.

Lemma fprintf_lit (c : ascii) (fmt : string) (args : list Z) :
  Ascii.eqb c "%" = false ->
  fprintf (String c fmt) args = String c (fprintf fmt args).
Proof. intros H. simpl. now rewrite H. Qed.

Lemma skip_space_line (args : list Z) (rest : string) :
  skip_space (String.append (fprintf config_format args) rest) =
  String.append (fprintf config_format args) rest.
Proof.
  assert (Hhead : exists t, config_format = String "c" t)
    by (eexists; reflexivity).
  destruct Hhead as [t ->].
  rewrite fprintf_lit by reflexivity.
  change (skip_space (String "c" (String.append (fprintf t args) rest)) =
          String "c" (String.append (fprintf t args) rest)).
  now rewrite skip_space_stop.
Qed.

Lemma string_append_nil_r (s : string) : String.append s EmptyString = s.
Proof. induction s as [|c s IH]; simpl; [reflexivity|now rewrite IH]. Qed.

Lemma is_int3x3_shape (M : list (list Z)) :
  is_int3x3 M ->
  exists a0 a1 a2 b0 b1 b2 c0 c1 c2,
    M = [[a0; a1; a2]; [b0; b1; b2]; [c0; c1; c2]] /\
    Forall (fun v => is_int v = true) [a0; a1; a2; b0; b1; b2; c0; c1; c2].
Proof.
  intros [Hlen Hrows].
  destruct M as [|r0 [|r1 [|r2 [|]]]]; try discriminate.
  repeat match goal with H : Forall _ (_ :: _) |- _ => apply Forall_cons in H; destruct H end.
  repeat match goal with H : _ /\ _ |- _ => destruct H end.
  destruct r0 as [|a0 [|a1 [|a2 [|]]]]; try discriminate.
  destruct r1 as [|b0 [|b1 [|b2 [|]]]]; try discriminate.
  destruct r2 as [|c0 [|c1 [|c2 [|]]]]; try discriminate.
  repeat match goal with H : Forall _ (_ :: _) |- _ => apply Forall_cons in H; destruct H end.
  do 9 eexists. split; [reflexivity|]. repeat constructor; assumption.
Qed.

(** The body of one iteration of the loading loop. *)
Lemma load_line_eq (i : nat) (stream : string) (mm : list (list Z) * list (list Z)) :
  load_line i (stream, mm) =
  ('(vs, rest) ← fscanf config_format stream;
   mm ← assign_all [T_ch; T_MIN i 0; T_MIN i 1; T_MIN i 2;
                    T_MAX i 0; T_MAX i 1; T_MAX i 2] vs mm;
   Some (rest, mm)).
Proof. reflexivity. Qed.

Lemma bind_Some {A B : Type} (x : A) (f : A -> option B) : (Some x ≫= f) = f x.
Proof. reflexivity. Qed.

Lemma load_line_row (i : nat) (stream rest : string) (vs : list Z)
    (mm mm' : list (list Z) * list (list Z)) :
  fscanf config_format stream = Some (vs, rest) ->
  assign_all [T_ch; T_MIN i 0; T_MIN i 1; T_MIN i 2;
              T_MAX i 0; T_MAX i 1; T_MAX i 2] vs mm = Some mm' ->
  load_line i (stream, mm) = Some (rest, mm').
Proof.
  intros Hscan Hassign. rewrite load_line_eq, Hscan, bind_Some.
  cbv beta iota. rewrite Hassign. reflexivity.
Qed.

Lemma for_range_3_steps {S : Type} (body : nat -> S -> option S) (s s1 s2 s3 : S) :
  body 0%nat s = Some s1 -> body 1%nat s1 = Some s2 -> body 2%nat s2 = Some s3 ->
  for_range 0 3 body s = Some s3.
Proof. intros H0 H1 H2. simpl. rewrite H0. simpl. rewrite H1. simpl. rewrite H2. reflexivity. Qed.

(** The text [saveConfigFile] writes for three channels. *)
Lemma save_three_lines (a0 a1 a2 a3 a4 a5 a6 a7 a8 b0 b1 b2 b3 b4 b5 b6 b7 b8 : Z) :
  for_range 0 3
    (save_line [[a0; a1; a2]; [a3; a4; a5]; [a6; a7; a8]]
               [[b0; b1; b2]; [b3; b4; b5]; [b6; b7; b8]]) EmptyString =
  Some (String.append
          (String.append
             (fprintf config_format [0; a0; a1; a2; b0; b1; b2])
             (fprintf config_format [1; a3; a4; a5; b3; b4; b5]))
          (fprintf config_format [2; a6; a7; a8; b6; b7; b8])).
Proof. apply for_range_3_steps with (s1 := fprintf config_format [0; a0; a1; a2; b0; b1; b2])
  (s2 := String.append (fprintf config_format [0; a0; a1; a2; b0; b1; b2])
             (fprintf config_format [1; a3; a4; a5; b3; b4; b5])); reflexivity. Qed.

Lemma saveConfigFile_eq (MIN MAX : list (list Z)) (nChannels : Z) (f : ConfigFile) :
  may_write f = true ->
  saveConfigFile MIN MAX nChannels f =
  (text ← for_range 0 (Z.to_nat nChannels) (save_line MIN MAX) EmptyString;
   Some (0, mkConfigFile (Some text) (may_read f) (may_write f))).
Proof. intros Hw. unfold saveConfigFile. now rewrite Hw. Qed.

Lemma loadConfigFile_eq (MIN MAX : list (list Z)) (nChannels : Z)
    (text : string) (w : bool) :
  loadConfigFile MIN MAX nChannels (mkConfigFile (Some text) true w) =
  ('(_, mm) ← for_range 0 (Z.to_nat nChannels) load_line (text, (MIN, MAX));
   Some (0, mm)).
Proof. reflexivity. Qed.

(** C9. For three channels of [int] thresholds, when the file can be
    written and read: [saveConfigFile] returns 0 and [loadConfigFile] on the
    file it leaves returns 0 with exactly the [MIN] and [MAX] that were
    saved, whatever the destination arrays held. *)
Theorem config_save_load_round_trip (MIN MAX MIN0 MAX0 : list (list Z)) (f : ConfigFile) :
  is_int3x3 MIN -> is_int3x3 MAX -> is_int3x3 MIN0 -> is_int3x3 MAX0 ->
  may_write f = true -> may_read f = true ->
  exists f',
    saveConfigFile MIN MAX 3 f = Some (0, f') /\
    loadConfigFile MIN0 MAX0 3 f' = Some (0, (MIN, MAX)).
Proof.
  intros HMIN HMAX HMIN0 HMAX0 Hw Hr.
  destruct (is_int3x3_shape _ HMIN) as (a0 & a1 & a2 & a3 & a4 & a5 & a6 & a7 & a8 & -> & Ha).
  destruct (is_int3x3_shape _ HMAX) as (b0 & b1 & b2 & b3 & b4 & b5 & b6 & b7 & b8 & -> & Hb).
  destruct (is_int3x3_shape _ HMIN0) as (c0 & c1 & c2 & c3 & c4 & c5 & c6 & c7 & c8 & -> & _).
  destruct (is_int3x3_shape _ HMAX0) as (d0 & d1 & d2 & d3 & d4 & d5 & d6 & d7 & d8 & -> & _).
  clear HMIN HMAX HMIN0 HMAX0.
  repeat match goal with H : Forall _ (_ :: _) |- _ => apply Forall_cons in H; destruct H end.
  rewrite saveConfigFile_eq by exact Hw.
  change (Z.to_nat 3) with 3%nat.
  rewrite save_three_lines, bind_Some, Hr.
  eexists. split; [reflexivity|].
  rewrite loadConfigFile_eq. change (Z.to_nat 3) with 3%nat.
  rewrite string_append_assoc.
  rewrite <- (string_append_nil_r (fprintf config_format [2; a6; a7; a8; b6; b7; b8])).
  assert (Hload :
    for_range 0 3 load_line
      (String.append (fprintf config_format [0; a0; a1; a2; b0; b1; b2])
         (String.append (fprintf config_format [1; a3; a4; a5; b3; b4; b5])
            (String.append (fprintf config_format [2; a6; a7; a8; b6; b7; b8])
               EmptyString)),
       ([[c0; c1; c2]; [c3; c4; c5]; [c6; c7; c8]],
        [[d0; d1; d2]; [d3; d4; d5]; [d6; d7; d8]])) =
    Some (EmptyString,
          ([[a0; a1; a2]; [a3; a4; a5]; [a6; a7; a8]],
           [[b0; b1; b2]; [b3; b4; b5]; [b6; b7; b8]]))).
  { eapply for_range_3_steps.
    - eapply load_line_row;
        [apply (config_line_round_trip 0);
           [repeat constructor; assumption|apply skip_space_line]
        |reflexivity].
    - eapply load_line_row;
        [apply (config_line_round_trip 1);
           [repeat constructor; assumption|apply skip_space_line]
        |reflexivity].
    - eapply load_line_row;
        [apply (config_line_round_trip 2);
           [repeat constructor; assumption|reflexivity]
        |reflexivity]. }
  rewrite Hload, bind_Some. reflexivity.
Qed.

Lemma config_save_load_round_trip_witness :
  let MIN := [[1; 2; 3]; [-4; 50; 60]; [255; 255; 255]] in
  let MAX := [[10; 20; 30]; [40; 0; 60]; [7; 8; 9]] in
  let Z3 := [[0; 0; 0]; [0; 0; 0]; [0; 0; 0]] in
  exists f',
    saveConfigFile MIN MAX 3 (mkConfigFile None true true) = Some (0, f') /\
    loadConfigFile Z3 Z3 3 f' = Some (0, (MIN, MAX)).
Proof.
  intros MIN MAX Z3.
  apply (config_save_load_round_trip MIN MAX Z3 Z3 (mkConfigFile None true true));
    try reflexivity; (split; [reflexivity | repeat constructor]).
Defined.

(** * Further properties of the code *)

(** ** More on [getCCRectBinary] *)

(** X1. With no region on one side the call returns 1 and leaves every
    argument as it is; no marker is read, so the marker arrays may have
    any length, and the slot [code] may be any [int]. *)
Theorem getCCRectBinary_empty_side st code :
  rectsChA st = [] \/ rectsChB st = [] ->
  getCCRectBinary st code = Some (1, st).
Proof.
  intros Hempty. unfold getCCRectBinary, scanPairs.
  assert (Hscan : for_range 0 (length (rectsChA st))
            (fun i => for_range 0 (length (rectsChB st))
                        (fun j => scan_pair st i j)) scan_init = Some scan_init).
  { destruct Hempty as [-> | ->]; [reflexivity|].
    apply for_range_idle. reflexivity. }
  rewrite Hscan. reflexivity.
Qed.

Lemma getCCRectBinary_empty_side_witness :
  let st := mkCCArgs [cv.mkRect 0 0 10 10; cv.mkRect 3 3 9 9] [] [] []
              [cv.mkRect 1 2 3 4] in
  getCCRectBinary st (-7) = Some (1, st).
Proof.
  intros st. apply (getCCRectBinary_empty_side st (-7)). right. reflexivity.
Defined.

(** What a call that returns has done, read off [getCCRectBinary_outcome]. *)
Lemma getCCRectBinary_result st code r st' :
  markers_cover st ->
  getCCRectBinary st code = Some (r, st') ->
  (r = 1 /\ st' = st /\ selected st = None /\
   forall i j u, ~ candidate st i j u) \/
  (exists i j u,
     r = 0 /\ selected st = Some (i, j) /\ candidate st i j u /\
     (forall i' j' u', candidate st i' j' u' -> cv.area u' <= cv.area u) /\
     0 <= code /\ (Z.to_nat code < length (ccRects st))%nat /\
     st' = mkCCArgs (rectsChA st) (rectsChB st)
             (<[i := 1]> (usedA st)) (<[j := 1]> (usedB st))
             (<[Z.to_nat code := u]> (ccRects st))).
Proof.
  intros Hcov Hrun.
  destruct (getCCRectBinary_outcome st code Hcov)
    as [(i & j & u & Hsel & Hc & Hmax & Heq) | (Hsel & Hnone & Heq)].
  - right. exists i, j, u. rewrite Heq in Hrun.
    destruct (Z.leb_spec 0 code) as [Hcode|]; [|discriminate].
    destruct (store (ccRects st) (Z.to_nat code) u) as [cc|] eqn:Hst;
      [|discriminate].
    apply store_inv in Hst. destruct Hst as [Hlt ->].
    simpl in Hrun. injection Hrun as <- <-.
    repeat split; try assumption; reflexivity.
  - left. rewrite Heq in Hrun. injection Hrun as <- <-. auto.
Qed.

(** X2. A call that returns writes at most the slot [code] of the output
    array and at most one marker in each array, from 0 to 1; the two region
    lists and the length of every array are as before, and the value
    returned is 0 or 1. *)
Theorem getCCRectBinary_footprint st code r st' :
  markers_cover st ->
  getCCRectBinary st code = Some (r, st') ->
  (r = 0 \/ r = 1) /\
  rectsChA st' = rectsChA st /\ rectsChB st' = rectsChB st /\
  length (usedA st') = length (usedA st) /\
  length (usedB st') = length (usedB st) /\
  length (ccRects st') = length (ccRects st) /\
  (forall k, k <> Z.to_nat code -> ccRects st' !! k = ccRects st !! k) /\
  (usedA st' = usedA st \/
   exists i, usedA st !! i = Some 0 /\ usedA st' = <[i := 1]> (usedA st)) /\
  (usedB st' = usedB st \/
   exists j, usedB st !! j = Some 0 /\ usedB st' = <[j := 1]> (usedB st)).
Proof.
  intros Hcov Hrun.
  destruct (getCCRectBinary_result st code r st' Hcov Hrun)
    as [(-> & -> & _) | (i & j & u & -> & _ & Hc & _ & _ & _ & ->)].
  - repeat split; auto.
  - destruct Hc as (ra & rb & _ & _ & Hua & Hub & _). simpl.
    rewrite !length_insert.
    split; [auto|]. do 5 (split; [reflexivity|]). split; [|split].
    + intros k Hk. now rewrite list_lookup_insert_ne.
    + right. exists i. auto.
    + right. exists j. auto.
Qed.

Lemma getCCRectBinary_footprint_witness :
  let st := mkCCArgs [cv.mkRect 0 0 10 10]
              [cv.mkRect 5 5 4 4; cv.mkRect 5 5 20 20]
              [0] [0; 0] [cv.empty; cv.empty; cv.empty] in
  let st' := mkCCArgs [cv.mkRect 0 0 10 10]
              [cv.mkRect 5 5 4 4; cv.mkRect 5 5 20 20]
              [1] [0; 1] [cv.empty; cv.mkRect 0 0 25 25; cv.empty] in
  getCCRectBinary st 1 = Some (0, st') /\
  (forall k, k <> Z.to_nat 1 -> ccRects st' !! k = ccRects st !! k).
Proof.
  intros st st'.
  assert (Hcov : markers_cover st) by (unfold markers_cover; simpl; lia).
  assert (Hrun : getCCRectBinary st 1 = Some (0, st')) by reflexivity.
  split; [exact Hrun|].
  exact (proj1 (proj2 (proj2 (proj2 (proj2 (proj2 (proj2
           (getCCRectBinary_footprint st 1 0 st' Hcov Hrun)))))))).
Defined.

Lemma union_encloses (a b : cv.Rect) :
  encloses (cv.union a b) a /\ encloses (cv.union a b) b.
Proof. unfold encloses, cv.union. simpl. lia. Qed.

Lemma encloses_area (outer inner : cv.Rect) :
  0 <= cv.width inner -> 0 <= cv.height inner ->
  encloses outer inner -> cv.area inner <= cv.area outer.
Proof.
  unfold encloses, cv.area. intros Hw Hh (H1 & H2 & H3 & H4).
  apply Z.mul_le_mono_nonneg; lia.
Qed.

Lemma inter_pos_sides (a b : cv.Rect) :
  0 < cv.area (cv.inter a b) ->
  0 < cv.width a /\ 0 < cv.height a /\ 0 < cv.width b /\ 0 < cv.height b.
Proof. intros H. apply inter_pos_dims in H. lia. Qed.

(** X3. When the call returns 0, the rectangle in slot [code] is the union
    of a region of each list whose intersection has a positive area; it
    encloses both regions, so its area is at least the area of each. *)
Theorem getCCRectBinary_result_encloses_pair st code st' :
  markers_cover st ->
  getCCRectBinary st code = Some (0, st') ->
  exists i j ra rb u,
    rectsChA st !! i = Some ra /\ rectsChB st !! j = Some rb /\
    0 < cv.area (cv.inter ra rb) /\
    ccRects st' !! Z.to_nat code = Some u /\ u = cv.union ra rb /\
    encloses u ra /\ encloses u rb /\
    cv.area ra <= cv.area u /\ cv.area rb <= cv.area u.
Proof.
  intros Hcov Hrun.
  destruct (getCCRectBinary_result st code 0 st' Hcov Hrun)
    as [(Hr & _) | (i & j & u & _ & _ & Hc & _ & _ & Hlt & ->)]; [discriminate|].
  destruct Hc as (ra & rb & Ha & Hb & _ & _ & Hpos & ->).
  exists i, j, ra, rb, (cv.union ra rb).
  destruct (union_encloses ra rb) as [Ea Eb].
  destruct (inter_pos_sides ra rb Hpos) as (? & ? & ? & ?).
  split; [exact Ha|]. split; [exact Hb|]. split; [exact Hpos|].
  split; [simpl; now apply list_lookup_insert_eq|]. split; [reflexivity|].
  split; [exact Ea|]. split; [exact Eb|].
  split; apply encloses_area; try assumption; lia.
Qed.

Lemma getCCRectBinary_result_encloses_pair_witness :
  let st := mkCCArgs [cv.mkRect 0 0 10 10]
              [cv.mkRect 5 5 4 4; cv.mkRect 5 5 20 20]
              [0] [0; 0] [cv.empty; cv.empty; cv.empty] in
  let st' := mkCCArgs [cv.mkRect 0 0 10 10]
              [cv.mkRect 5 5 4 4; cv.mkRect 5 5 20 20]
              [1] [0; 1] [cv.empty; cv.mkRect 0 0 25 25; cv.empty] in
  exists i j ra rb u,
    rectsChA st !! i = Some ra /\ rectsChB st !! j = Some rb /\
    0 < cv.area (cv.inter ra rb) /\
    ccRects st' !! Z.to_nat 1 = Some u /\ u = cv.union ra rb /\
    encloses u ra /\ encloses u rb /\
    cv.area ra <= cv.area u /\ cv.area rb <= cv.area u.
Proof.
  intros st st'.
  apply (getCCRectBinary_result_encloses_pair st 1 st').
  - unfold markers_cover. simpl. lia.
  - reflexivity.
Defined.

Lemma first_best_among_ext st (seen seen' : nat -> nat -> Prop) s :
  (forall i j u, candidate st i j u -> (seen i j <-> seen' i j)) ->
  first_best_among st seen s -> first_best_among st seen' s.
Proof.
  intros Hext [[-> Hnone] | (i & j & u & -> & Hs & Hc & Hmax & Hfirst)].
  - left. split; [reflexivity|]. intros i j u Hs Hc.
    apply (Hnone i j u); [|exact Hc]. now apply (Hext i j u).
  - right. exists i, j, u. split; [reflexivity|].
    split; [now apply (Hext i j u)|]. split; [exact Hc|]. split; [|exact Hfirst].
    intros i' j' u' Hs' Hc'. apply (Hmax i' j' u'); [|exact Hc'].
    now apply (Hext i' j' u').
Qed.

Lemma first_best_among_skip st i j s :
  (forall u, ~ candidate st i j u) ->
  first_best_among st (before i j) s ->
  first_best_among st (before i (Datatypes.S j)) s.
Proof.
  intros Hno. apply first_best_among_ext. intros i' j' u Hc.
  rewrite before_succ. split; [auto|]. intros [H | [-> ->]]; [exact H|].
  now destruct (Hno u).
Qed.

Lemma scan_pair_first_step st i j s :
  markers_cover st ->
  (i < length (rectsChA st))%nat -> (j < length (rectsChB st))%nat ->
  first_best_among st (before i j) s ->
  exists s', scan_pair st i j s = Some s' /\
             first_best_among st (before i (Datatypes.S j)) s'.
Proof.
  intros [HA HB] Hi Hj Hs.
  destruct (lookup_lt_is_Some_2 (usedA st) i ltac:(lia)) as [ua Hua].
  destruct (lookup_lt_is_Some_2 (usedB st) j ltac:(lia)) as [ub Hub].
  destruct (lookup_lt_is_Some_2 (rectsChA st) i Hi) as [ra Hra].
  destruct (lookup_lt_is_Some_2 (rectsChB st) j Hj) as [rb Hrb].
  unfold scan_pair. rewrite Hua. simpl.
  destruct (Z.eqb_spec ua 0) as [-> | Hua0]; simpl.
  2:{ exists s. split; [reflexivity|]. apply first_best_among_skip; [|exact Hs].
      intros u (? & ? & _ & _ & Hu & _). congruence. }
  rewrite Hub. simpl.
  destruct (Z.eqb_spec ub 0) as [-> | Hub0]; simpl.
  2:{ exists s. split; [reflexivity|]. apply first_best_among_skip; [|exact Hs].
      intros u (? & ? & _ & _ & _ & Hu & _). congruence. }
  rewrite Hra, Hrb. simpl.
  destruct (Z.ltb_spec 0 (cv.area (cv.inter ra rb))) as [Hpos | Hnpos].
  2:{ exists s. split; [reflexivity|]. apply first_best_among_skip; [|exact Hs].
      intros u (ra' & rb' & Ha' & Hb' & _ & _ & Hp & _).
      rewrite Hra in Ha'. rewrite Hrb in Hb'.
      injection Ha' as <-. injection Hb' as <-. lia. }
  assert (Hc : candidate st i j (cv.union ra rb)).
  { exists ra, rb. repeat split; assumption. }
  pose proof (union_area_pos ra rb Hpos) as Hupos.
  destruct (Z.ltb_spec (maxArea s) (cv.area (cv.union ra rb))) as [Hlt | Hge].
  - eexists. split; [reflexivity|]. right.
    exists i, j, (cv.union ra rb).
    assert (Hold : forall i' j' u', before i j i' j' -> candidate st i' j' u' ->
                     cv.area u' < cv.area (cv.union ra rb)).
    { intros i' j' u' Hb' Hc'.
      destruct Hs as [[-> Hnone] | (i0 & j0 & u0 & -> & _ & _ & Hmax & _)].
      - now destruct (Hnone i' j' u').
      - simpl in Hlt. specialize (Hmax i' j' u' Hb' Hc'). lia. }
    split; [reflexivity|]. split; [apply before_succ; right; auto|].
    split; [exact Hc|]. split; [|exact Hold].
    intros i' j' u' Hb' Hc'. apply before_succ in Hb'.
    destruct Hb' as [Hb' | [-> ->]].
    + specialize (Hold i' j' u' Hb' Hc'). lia.
    + rewrite (candidate_fun _ _ _ _ _ Hc' Hc). lia.
  - exists s. split; [reflexivity|].
    destruct Hs as [[-> Hnone] | (i0 & j0 & u0 & -> & Hs0 & Hc0 & Hmax & Hfirst)].
    + simpl in Hge. lia.
    + right. exists i0, j0, u0. split; [reflexivity|].
      split; [apply before_succ; auto|]. split; [exact Hc0|]. split; [|exact Hfirst].
      intros i' j' u' Hb' Hc'. apply before_succ in Hb'.
      destruct Hb' as [Hb' | [-> ->]].
      * now apply (Hmax i' j' u').
      * rewrite (candidate_fun _ _ _ _ _ Hc' Hc). simpl in Hge. lia.
Qed.

Lemma scanPairs_first_best st :
  markers_cover st ->
  exists s, scanPairs st = Some s /\ first_best_among st (fun _ _ => True) s.
Proof.
  intros Hcov. unfold scanPairs.
  destruct (for_range_inv (fun i s => first_best_among st (before i 0) s)
              (fun i => for_range 0 (length (rectsChB st))
                          (fun j => scan_pair st i j))
              (length (rectsChA st)) 0 scan_init) as (s & Hrun & Hs).
  - left. split; [reflexivity|]. unfold before. intros; lia.
  - intros i t Hi Ht.
    destruct (for_range_inv (fun j s => first_best_among st (before i j) s)
                (fun j => scan_pair st i j)
                (length (rectsChB st)) 0 t Ht) as (t' & Hrun & Ht').
    + intros j u Hj Hu. apply scan_pair_first_step; [assumption|lia|lia|assumption].
    + exists t'. split; [exact Hrun|].
      revert Ht'. apply first_best_among_ext.
      intros i' j' u Hc. apply candidate_lt in Hc. unfold before. simpl. lia.
  - exists s. split; [exact Hrun|].
    revert Hs. apply first_best_among_ext.
    intros i' j' u Hc. apply candidate_lt in Hc. unfold before. simpl. lia.
Qed.

(** X4. Ties go to the first pair: when no area is beyond [INT_MAX], the
    pair the scan settles on has a union area that is at least that of
    every candidate and strictly larger than that of every candidate met
    earlier in the scan (a smaller [i], or the same [i] and a smaller
    [j]). *)
Theorem selected_is_first_largest st i j :
  markers_cover st ->
  unions_fit st ->
  int32.selected st = Some (i, j) ->
  exists u,
    candidate st i j u /\
    (forall i' j' u', candidate st i' j' u' -> cv.area u' <= cv.area u) /\
    (forall i' j' u', candidate st i' j' u' ->
       (i' < i)%nat \/ (i' = i /\ (j' < j)%nat) -> cv.area u' < cv.area u).
Proof.
  intros Hcov Hfit Hsel. rewrite (selected_exact st Hfit) in Hsel.
  destruct (scanPairs_first_best st Hcov)
    as (s & Hrun & [[-> _] | (i0 & j0 & u & -> & _ & Hc & Hmax & Hfirst)]);
    unfold selected in Hsel; rewrite Hrun in Hsel; simpl in Hsel.
  - discriminate.
  - pose proof (candidate_area_pos _ _ _ _ Hc) as Hpos.
    destruct (Z.ltb_spec 0 (cv.area u)); [|lia]. simpl in Hsel.
    injection Hsel as <- <-. exists u. split; [exact Hc|]. split.
    + intros i' j' u'. now apply Hmax.
    + intros i' j' u' Hc' Hb. apply (Hfirst i' j' u'); [exact Hb|exact Hc'].
Qed.

Lemma selected_is_first_largest_witness :
  let st := mkCCArgs [cv.mkRect 0 0 10 10]
              [cv.mkRect 5 5 4 4; cv.mkRect 5 5 20 20; cv.mkRect 5 5 20 20]
              [0] [0; 0; 0] [cv.empty] in
  exists u,
    candidate st 0 1 u /\
    (forall i' j' u', candidate st i' j' u' -> cv.area u' <= cv.area u) /\
    (forall i' j' u', candidate st i' j' u' ->
       (i' < 0)%nat \/ (i' = 0%nat /\ (j' < 1)%nat) -> cv.area u' < cv.area u).
Proof.
  intros st. apply (selected_is_first_largest st 0 1).
  - unfold markers_cover. simpl. lia.
  - repeat constructor; vm_compute; discriminate.
  - reflexivity.
Defined.

(** X5. Called again on the same two lists, with the markers the first
    call left, the matcher commits a pair that shares no region with the
    first one: repeated calls pair off distinct regions. *)
Theorem getCCRectBinary_again_disjoint st code st1 code' st2 :
  markers_cover st ->
  getCCRectBinary st code = Some (0, st1) ->
  getCCRectBinary st1 code' = Some (0, st2) ->
  exists i j i' j',
    selected st = Some (i, j) /\ selected st1 = Some (i', j') /\
    i' <> i /\ j' <> j /\
    usedA st2 = <[i' := 1]> (<[i := 1]> (usedA st)) /\
    usedB st2 = <[j' := 1]> (<[j := 1]> (usedB st)).
Proof.
  intros Hcov Hrun1 Hrun2.
  destruct (getCCRectBinary_result st code 0 st1 Hcov Hrun1)
    as [(Hr & _) | (i & j & u & _ & Hsel & Hc & _ & _ & _ & ->)]; [discriminate|].
  assert (Hcov1 : markers_cover
            (mkCCArgs (rectsChA st) (rectsChB st) (<[i := 1]> (usedA st))
               (<[j := 1]> (usedB st)) (<[Z.to_nat code := u]> (ccRects st)))).
  { destruct Hcov. unfold markers_cover. simpl. now rewrite !length_insert. }
  destruct (getCCRectBinary_result _ code' 0 st2 Hcov1 Hrun2)
    as [(Hr & _) | (i' & j' & u' & _ & Hsel' & Hc' & _ & _ & _ & ->)]; [discriminate|].
  exists i, j, i', j'. split; [exact Hsel|]. split; [exact Hsel'|].
  destruct Hc as (ra & rb & _ & _ & Hua & Hub & _).
  destruct Hc' as (ra' & rb' & _ & _ & Hua' & Hub' & _). simpl in Hua', Hub'.
  split; [|split; [|split; reflexivity]].
  - intros ->. rewrite list_lookup_insert_eq in Hua'; [discriminate|].
    now apply lookup_lt_Some in Hua.
  - intros ->. rewrite list_lookup_insert_eq in Hub'; [discriminate|].
    now apply lookup_lt_Some in Hub.
Qed.

Lemma getCCRectBinary_again_disjoint_witness :
  let st := mkCCArgs [cv.mkRect 0 0 10 10; cv.mkRect 30 30 10 10]
              [cv.mkRect 5 5 10 10; cv.mkRect 35 35 10 10]
              [0; 0] [0; 0] [cv.empty; cv.empty] in
  let st1 := mkCCArgs (rectsChA st) (rectsChB st) [1; 0] [1; 0]
               [cv.mkRect 0 0 15 15; cv.empty] in
  let st2 := mkCCArgs (rectsChA st) (rectsChB st) [1; 1] [1; 1]
               [cv.mkRect 0 0 15 15; cv.mkRect 30 30 15 15] in
  exists i j i' j',
    selected st = Some (i, j) /\ selected st1 = Some (i', j') /\
    i' <> i /\ j' <> j /\
    usedA st2 = <[i' := 1]> (<[i := 1]> (usedA st)) /\
    usedB st2 = <[j' := 1]> (<[j := 1]> (usedB st)).
Proof.
  intros st st1 st2.
  apply (getCCRectBinary_again_disjoint st 0 st1 1 st2).
  - unfold markers_cover. simpl. lia.
  - reflexivity.
  - reflexivity.
Defined.

(** ** More on the three passes and on the pipeline *)

Lemma used_count_replicate (n : nat) : used_count (replicate n 0) = 0%nat.
Proof.
  unfold used_count. induction n as [|n IH]; [reflexivity|].
  simpl. rewrite filter_cons_False by (intros H; now apply H). exact IH.
Qed.

Lemma used_count_le_length (l : list Z) : (used_count l <= length l)%nat.
Proof. apply length_filter. Qed.

Lemma used_count_insert (l : list Z) (i : nat) :
  l !! i = Some 0 -> used_count (<[i := 1]> l) = Datatypes.S (used_count l).
Proof.
  unfold used_count. revert i. induction l as [|v l IH]; intros i Hi.
  - discriminate.
  - destruct i as [|i]; simpl in Hi.
    + injection Hi as ->.
      change (<[0%nat := 1]> (0 :: l)) with (1 :: l).
      rewrite filter_cons_True by (intros ?; discriminate).
      rewrite filter_cons_False by (intros H; now apply H). reflexivity.
    + change (<[Datatypes.S i := 1]> (v :: l)) with (v :: <[i := 1]> l).
      rewrite !filter_cons. destruct (decide (v <> 0)); simpl;
        rewrite IH by assumption; reflexivity.
Qed.

(** One pass followed by its drawing step: [d] is 1 when a colour code
    was found and 0 otherwise. *)
Lemma pass_and_draw st (code : nat) (pic : list cv.Rect) :
  markers_cover st ->
  (code < length (ccRects st))%nat ->
  exists r st' pic' (d : nat),
    getCCRectBinary st (Z.of_nat code) = Some (r, st') /\
    draw_if_found r (ccRects st') code pic = Some pic' /\
    (d <= 1)%nat /\
    length pic' = (length pic + d)%nat /\
    used_count (usedA st') = (used_count (usedA st) + d)%nat /\
    used_count (usedB st') = (used_count (usedB st) + d)%nat /\
    length (usedA st') = length (usedA st) /\
    length (usedB st') = length (usedB st) /\
    length (ccRects st') = length (ccRects st) /\
    (forall x, x ∈ pic' ->
       x ∈ pic \/
       exists ra rb, ra ∈ rectsChA st /\ rb ∈ rectsChB st /\
                     0 < cv.area (cv.inter ra rb) /\ x = cv.union ra rb).
Proof.
  intros Hcov Hcode.
  destruct (getCCRectBinary_outcome st (Z.of_nat code) Hcov)
    as [(i & j & u & _ & Hc & _ & Hrun) | (_ & _ & Hrun)].
  - destruct (Z.leb_spec 0 (Z.of_nat code)); [|lia].
    rewrite Nat2Z.id in Hrun. rewrite store_Some in Hrun by exact Hcode.
    simpl in Hrun.
    destruct Hc as (ra & rb & Ha & Hb & Hua & Hub & Hpos & ->).
    do 2 eexists. exists (pic ++ [cv.union ra rb]), 1%nat.
    split; [exact Hrun|]. simpl.
    split; [unfold draw_if_found; simpl;
            now rewrite list_lookup_insert_eq by exact Hcode|].
    split; [lia|]. split; [rewrite length_app; simpl; lia|].
    rewrite !used_count_insert by assumption. rewrite !length_insert.
    split; [lia|]. split; [lia|]. do 3 (split; [reflexivity|]).
    intros x Hx. apply elem_of_app in Hx. destruct Hx as [Hx|Hx]; [auto|].
    apply list_elem_of_singleton in Hx. subst x. right. exists ra, rb.
    split; [eapply list_elem_of_lookup_2; exact Ha|].
    split; [eapply list_elem_of_lookup_2; exact Hb|]. auto.
  - exists 1, st, pic, 0%nat. split; [exact Hrun|].
    split; [reflexivity|]. split; [lia|]. split; [lia|].
    split; [lia|]. split; [lia|]. do 3 (split; [reflexivity|]). auto.
Qed.

(** The three passes together. *)
Lemma matchChannelPairs_summary (rects1 rects2 rects3 cc : list cv.Rect) :
  (3 <= length cc)%nat ->
  exists m,
    matchChannelPairs rects1 rects2 rects3 cc = Some m /\
    length (usedRectsCh1 m) = length rects1 /\
    length (usedRectsCh2 m) = length rects2 /\
    length (usedRectsCh3 m) = length rects3 /\
    (used_count (usedRectsCh1 m) + used_count (usedRectsCh2 m) +
     used_count (usedRectsCh3 m) = 2 * length (drawn m))%nat /\
    (length (drawn m) <= 3)%nat /\
    (forall x, x ∈ drawn m ->
       exists ra rb,
         ((ra ∈ rects1 /\ rb ∈ rects2) \/ (ra ∈ rects1 /\ rb ∈ rects3) \/
          (ra ∈ rects2 /\ rb ∈ rects3)) /\
         0 < cv.area (cv.inter ra rb) /\ x = cv.union ra rb).
Proof.
  intros Hcc.
  destruct (pass_and_draw (pass12 rects1 rects2 cc) 0 [])
    as (r0 & s12 & p0 & d0 & Hrun0 & Hdraw0 & Hd0 & Hl0 & HcA0 & HcB0
        & HlA0 & HlB0 & Hlc0 & Hin0).
  { unfold markers_cover. simpl. rewrite !length_replicate. lia. }
  { simpl. lia. }
  simpl in HcA0, HcB0, HlA0, HlB0, Hlc0, Hl0, Hin0.
  rewrite used_count_replicate in HcA0, HcB0.
  rewrite length_replicate in HlA0, HlB0.
  destruct (pass_and_draw (pass13 rects1 rects3 s12) 1 p0)
    as (r1 & s13 & p1 & d1 & Hrun1 & Hdraw1 & Hd1 & Hl1 & HcA1 & HcB1
        & HlA1 & HlB1 & Hlc1 & Hin1).
  { unfold markers_cover. simpl. rewrite length_replicate. lia. }
  { simpl. lia. }
  simpl in HcA1, HcB1, HlA1, HlB1, Hlc1, Hin1.
  rewrite used_count_replicate in HcB1. rewrite length_replicate in HlB1.
  destruct (pass_and_draw (pass23 rects2 rects3 s12 s13) 2 p1)
    as (r2 & s23 & p2 & d2 & Hrun2 & Hdraw2 & Hd2 & Hl2 & HcA2 & HcB2
        & HlA2 & HlB2 & Hlc2 & Hin2).
  { unfold markers_cover. simpl. lia. }
  { simpl. lia. }
  simpl in HcA2, HcB2, HlA2, HlB2, Hlc2, Hin2.
  exists (mkMatched (usedA s13) (usedA s23) (usedB s23) (ccRects s23) p2).
  split.
  { unfold matchChannelPairs.
    change 0 with (Z.of_nat 0). change 1 with (Z.of_nat 1).
    change 2 with (Z.of_nat 2).
    rewrite Hrun0. simpl. rewrite Hdraw0. simpl.
    rewrite Hrun1. simpl. rewrite Hdraw1. simpl.
    rewrite Hrun2. simpl. rewrite Hdraw2. reflexivity. }
  simpl. split; [lia|]. split; [lia|]. split; [lia|]. split; [lia|].
  split; [lia|].
  intros x Hx. destruct (Hin2 x Hx) as [Hx1 | (ra & rb & Ha & Hb & Hpos & ->)].
  2:{ exists ra, rb. auto. }
  destruct (Hin1 x Hx1) as [Hx0 | (ra & rb & Ha & Hb & Hpos & ->)].
  2:{ exists ra, rb. auto. }
  destruct (Hin0 x Hx0) as [Hnil | (ra & rb & Ha & Hb & Hpos & ->)].
  - now apply not_elem_of_nil in Hnil.
  - exists ra, rb. auto.
Qed.

(** X6. The three passes of a frame always return (the output array has
    room for the three slots); afterwards the marker arrays are as long as
    the region lists, the markers set over the three channels number twice
    the colour codes drawn, and so at most three colour codes are drawn and
    never more than half the number of regions. *)
Theorem matchChannelPairs_marker_accounting
    (rects1 rects2 rects3 cc : list cv.Rect) :
  (3 <= length cc)%nat ->
  exists m,
    matchChannelPairs rects1 rects2 rects3 cc = Some m /\
    length (usedRectsCh1 m) = length rects1 /\
    length (usedRectsCh2 m) = length rects2 /\
    length (usedRectsCh3 m) = length rects3 /\
    (used_count (usedRectsCh1 m) + used_count (usedRectsCh2 m) +
     used_count (usedRectsCh3 m) = 2 * length (drawn m))%nat /\
    (length (drawn m) <= 3)%nat /\
    (2 * length (drawn m) <= length rects1 + length rects2 + length rects3)%nat.
Proof.
  intros Hcc.
  destruct (matchChannelPairs_summary rects1 rects2 rects3 cc Hcc)
    as (m & Hrun & H1 & H2 & H3 & Hsum & Hle & _).
  exists m. repeat (split; [assumption|]).
  pose proof (used_count_le_length (usedRectsCh1 m)).
  pose proof (used_count_le_length (usedRectsCh2 m)).
  pose proof (used_count_le_length (usedRectsCh3 m)). lia.
Qed.

Lemma matchChannelPairs_marker_accounting_witness :
  let rects1 := [cv.mkRect 0 0 10 10] in
  let rects2 := [cv.mkRect 5 5 10 10] in
  let rects3 := [cv.mkRect 8 0 10 10] in
  let cc := replicate 21 cv.empty in
  exists m,
    matchChannelPairs rects1 rects2 rects3 cc = Some m /\
    length (usedRectsCh1 m) = length rects1 /\
    length (usedRectsCh2 m) = length rects2 /\
    length (usedRectsCh3 m) = length rects3 /\
    (used_count (usedRectsCh1 m) + used_count (usedRectsCh2 m) +
     used_count (usedRectsCh3 m) = 2 * length (drawn m))%nat /\
    (length (drawn m) <= 3)%nat /\
    (2 * length (drawn m) <= length rects1 + length rects2 + length rects3)%nat.
Proof.
  intros rects1 rects2 rects3 cc.
  apply (matchChannelPairs_marker_accounting rects1 rects2 rects3 cc).
  simpl. lia.
Defined.

(** X7. Every colour-code rectangle drawn in a frame is the union of two
    regions of two different channels whose intersection has a positive
    area, and it encloses both of them. *)
Theorem drawn_codes_are_unions (rects1 rects2 rects3 cc : list cv.Rect) m :
  (3 <= length cc)%nat ->
  matchChannelPairs rects1 rects2 rects3 cc = Some m ->
  forall x, x ∈ drawn m ->
    exists ra rb,
      ((ra ∈ rects1 /\ rb ∈ rects2) \/ (ra ∈ rects1 /\ rb ∈ rects3) \/
       (ra ∈ rects2 /\ rb ∈ rects3)) /\
      0 < cv.area (cv.inter ra rb) /\ x = cv.union ra rb /\
      encloses x ra /\ encloses x rb.
Proof.
  intros Hcc Hrun x Hx.
  destruct (matchChannelPairs_summary rects1 rects2 rects3 cc Hcc)
    as (m' & Hrun' & _ & _ & _ & _ & _ & Hin).
  rewrite Hrun in Hrun'. injection Hrun' as <-.
  destruct (Hin x Hx) as (ra & rb & Hwhere & Hpos & ->).
  exists ra, rb. destruct (union_encloses ra rb). auto.
Qed.

Lemma drawn_codes_are_unions_witness :
  let rects1 := [cv.mkRect 0 0 10 10] in
  let rects2 := [cv.mkRect 5 5 10 10] in
  let rects3 := [cv.mkRect 8 0 10 10; cv.mkRect 12 12 6 6] in
  let x := cv.mkRect 0 0 15 15 in
  exists ra rb,
    ((ra ∈ rects1 /\ rb ∈ rects2) \/ (ra ∈ rects1 /\ rb ∈ rects3) \/
     (ra ∈ rects2 /\ rb ∈ rects3)) /\
    0 < cv.area (cv.inter ra rb) /\ x = cv.union ra rb /\
    encloses x ra /\ encloses x rb.
Proof.
  intros rects1 rects2 rects3 x.
  apply (drawn_codes_are_unions rects1 rects2 rects3
           [cv.empty; cv.empty; cv.empty]
           (mkMatched [1] [1] [0; 0]
              [cv.mkRect 0 0 15 15; cv.empty; cv.empty] [cv.mkRect 0 0 15 15])).
  - simpl. lia.
  - reflexivity.
  - apply list_elem_of_here.
Defined.

(** ** More on [dilateRects] *)

Lemma quot100_nonpos (a : Z) : a <= 0 -> a ÷ 100 <= 0.
Proof.
  intros Ha. replace a with (- (- a)) by lia. rewrite Z.quot_opp_l by lia.
  pose proof (Z.quot_pos (- a) 100 ltac:(lia) ltac:(lia)). lia.
Qed.

Lemma quot100_nonneg (a : Z) : 0 <= a -> 0 <= a ÷ 100.
Proof. intros Ha. apply Z.quot_pos; lia. Qed.

(** A region of positive area does not lose area, whatever the signs of
    its sides. *)
Lemma expand_area_ge f (r : cv.Rect) :
  0 <= f -> 0 < cv.area r -> cv.area r <= cv.area (spec_expand f r).
Proof.
  intros Hf Hpos. unfold spec_expand, cv.area in *. simpl.
  destruct r as [x y w h]. simpl in *.
  set (dW := w * f ÷ 100). set (dH := h * f ÷ 100).
  assert (Hexp : (w + dW) * (h + dH) = w * h + (w * dH + dW * h + dW * dH))
    by ring.
  rewrite Hexp.
  destruct (Z.lt_ge_cases 0 w) as [Hw|Hw].
  - assert (Hh : 0 < h).
    { destruct (Z.lt_ge_cases 0 h) as [|Hh]; [assumption|].
      pose proof (Z.mul_nonneg_nonpos w h ltac:(lia) Hh). lia. }
    assert (0 <= dW) by (apply quot100_nonneg, Z.mul_nonneg_nonneg; lia).
    assert (0 <= dH) by (apply quot100_nonneg, Z.mul_nonneg_nonneg; lia).
    pose proof (Z.mul_nonneg_nonneg w dH ltac:(lia) ltac:(lia)).
    pose proof (Z.mul_nonneg_nonneg dW h ltac:(lia) ltac:(lia)).
    pose proof (Z.mul_nonneg_nonneg dW dH ltac:(lia) ltac:(lia)). lia.
  - assert (Hw' : w < 0).
    { destruct (Z.eq_dec w 0) as [->|]; [simpl in Hpos; lia|lia]. }
    assert (Hh : h < 0).
    { destruct (Z.lt_ge_cases h 0) as [|Hh]; [assumption|].
      pose proof (Z.mul_nonpos_nonneg w h ltac:(lia) Hh). lia. }
    assert (dW <= 0) by (apply quot100_nonpos, Z.mul_nonpos_nonneg; lia).
    assert (dH <= 0) by (apply quot100_nonpos, Z.mul_nonpos_nonneg; lia).
    pose proof (Z.mul_nonpos_nonpos w dH ltac:(lia) ltac:(lia)).
    pose proof (Z.mul_nonpos_nonpos dW h ltac:(lia) ltac:(lia)).
    pose proof (Z.mul_nonpos_nonpos dW dH ltac:(lia) ltac:(lia)). lia.
Qed.

Lemma expand_encloses f (r : cv.Rect) :
  0 <= f -> 0 <= cv.width r -> 0 <= cv.height r ->
  encloses (spec_expand f r) r.
Proof.
  intros Hf Hw Hh.
  destruct (expand_fields f r Hw Hh Hf) as (-> & HdW & HdH).
  unfold encloses. simpl.
  pose proof (Z.div_mod (cv.width r * f / 100) 2 ltac:(lia)).
  pose proof (Z.mod_pos_bound (cv.width r * f / 100) 2 ltac:(lia)).
  pose proof (Z.div_mod (cv.height r * f / 100) 2 ltac:(lia)).
  pose proof (Z.mod_pos_bound (cv.height r * f / 100) 2 ltac:(lia)).
  lia.
Qed.

(** X8. For a factor [f >= 0] and regions whose sides are not negative,
    when nothing overflows, every expanded region encloses the region it
    comes from: expansion never cuts a region. *)
Theorem dilateRects_encloses f (myRect : list cv.Rect) :
  0 <= f ->
  Forall (fun r => 0 <= cv.width r /\ 0 <= cv.height r) myRect ->
  Forall (fun r => dilate_fits f r = true) myRect ->
  exists out,
    int32.dilateRects f myRect = Some out /\ Forall2 encloses out myRect.
Proof.
  intros Hf Hall Hfit. exists (map (spec_expand f) myRect).
  split; [now apply dilateRects_int32_map|]. clear Hfit.
  induction Hall as [|r l [Hw Hh] _ IH]; simpl; constructor.
  - now apply expand_encloses.
  - exact IH.
Qed.

Lemma dilateRects_encloses_witness :
  exists out,
    int32.dilateRects 35 [cv.mkRect 100 50 20 10; cv.mkRect 0 0 9 8] = Some out /\
    Forall2 encloses out [cv.mkRect 100 50 20 10; cv.mkRect 0 0 9 8].
Proof.
  apply (dilateRects_encloses 35); [lia| |].
  - repeat constructor; simpl; lia.
  - repeat constructor.
Defined.

Lemma encloses_inter_pos (a b a' b' : cv.Rect) :
  encloses a' a -> encloses b' b ->
  0 < cv.area (cv.inter a b) ->
  cv.area (cv.inter a b) <= cv.area (cv.inter a' b').
Proof.
  intros (A1 & A2 & A3 & A4) (B1 & B2 & B3 & B4) Hpos.
  pose proof (inter_pos_dims a b Hpos) as [Hw Hh].
  unfold cv.inter, cv.area in *.
  repeat match goal with
         | |- context [?v <=? 0] => destruct (Z.leb_spec v 0)
         end; simpl in *; try lia.
  apply Z.mul_le_mono_nonneg; lia.
Qed.

(** X9. Expansion never destroys an overlap: for [f >= 0], when nothing
    overflows, if a region of one list and a region of another intersect
    in a positive area (their sides are then positive), so do their
    expansions, in an area at least as large. *)
Theorem dilateRects_keeps_overlap f (rectsA rectsB outA outB : list cv.Rect)
    (i j : nat) (a b : cv.Rect) :
  0 <= f ->
  Forall (fun r => dilate_fits f r = true) rectsA ->
  Forall (fun r => dilate_fits f r = true) rectsB ->
  int32.dilateRects f rectsA = Some outA ->
  int32.dilateRects f rectsB = Some outB ->
  rectsA !! i = Some a -> rectsB !! j = Some b ->
  0 < cv.area (cv.inter a b) ->
  exists a' b',
    outA !! i = Some a' /\ outB !! j = Some b' /\
    cv.area (cv.inter a b) <= cv.area (cv.inter a' b') /\
    0 < cv.area (cv.inter a' b').
Proof.
  intros Hf HfA HfB HA HB Ha Hb Hpos.
  rewrite dilateRects_int32_map in HA, HB by assumption.
  injection HA as <-. injection HB as <-.
  exists (spec_expand f a), (spec_expand f b).
  change (map (spec_expand f) rectsA) with (spec_expand f <$> rectsA).
  change (map (spec_expand f) rectsB) with (spec_expand f <$> rectsB).
  rewrite !list_lookup_fmap, Ha, Hb.
  split; [reflexivity|]. split; [reflexivity|].
  destruct (inter_pos_sides a b Hpos) as (? & ? & ? & ?).
  assert (Hle : cv.area (cv.inter a b) <=
                cv.area (cv.inter (spec_expand f a) (spec_expand f b))).
  { apply encloses_inter_pos; [apply expand_encloses; lia ..|exact Hpos]. }
  split; [exact Hle|lia].
Qed.

Lemma dilateRects_keeps_overlap_witness :
  exists a' b',
    [cv.mkRect 97 49 27 13] !! 0%nat = Some a' /\
    [cv.mkRect 106 52 27 13] !! 0%nat = Some b' /\
    cv.area (cv.inter (cv.mkRect 100 50 20 10) (cv.mkRect 109 53 20 10)) <=
      cv.area (cv.inter a' b') /\
    0 < cv.area (cv.inter a' b').
Proof.
  apply (dilateRects_keeps_overlap 35
           [cv.mkRect 100 50 20 10] [cv.mkRect 109 53 20 10]
           [cv.mkRect 97 49 27 13] [cv.mkRect 106 52 27 13] 0 0);
    try reflexivity; try (repeat constructor); lia.
Defined.

(** ** The detectors *)

Lemma largest_area_from (l : list cv.Rect) (acc : Z) :
  let m := foldl (fun areaThresh r =>
                    if areaThresh <? cv.area r then cv.area r else areaThresh)
                 acc l in
  acc <= m /\ (forall r, r ∈ l -> cv.area r <= m) /\
  (m = acc \/ exists r, r ∈ l /\ cv.area r = m).
Proof.
  revert acc. induction l as [|r l IH]; intros acc; simpl.
  - split; [lia|]. split; [|auto]. intros r Hr. now apply not_elem_of_nil in Hr.
  - destruct (IH (if acc <? cv.area r then cv.area r else acc))
      as (Hge & Hall & Hatt).
    destruct (Z.ltb_spec acc (cv.area r)) as [Hlt|Hle].
    + split; [lia|]. split.
      * intros r' Hr'. apply elem_of_cons in Hr'.
        destruct Hr' as [->|Hr']; [lia|now apply Hall].
      * right. destruct Hatt as [Heq|(r0 & Hr0 & Heq)].
        -- exists r. split; [apply list_elem_of_here|now rewrite Heq].
        -- exists r0. split; [now apply list_elem_of_further|exact Heq].
    + split; [lia|]. split.
      * intros r' Hr'. apply elem_of_cons in Hr'.
        destruct Hr' as [->|Hr']; [lia|now apply Hall].
      * destruct Hatt as [Heq|(r0 & Hr0 & Heq)]; [auto|].
        right. exists r0. split; [now apply list_elem_of_further|exact Heq].
Qed.

Lemma filter_loop (boxes acc : list cv.Rect) :
  foldl (fun acc b => if MINAREABLOB <? cv.area b then acc ++ [b] else acc)
        acc boxes =
  acc ++ filter (fun b => MINAREABLOB < cv.area b) boxes.
Proof.
  revert acc. induction boxes as [|b bs IH]; intros acc; simpl.
  - now rewrite app_nil_r.
  - rewrite IH. destruct (Z.ltb_spec MINAREABLOB (cv.area b)).
    + rewrite filter_cons_True by assumption. now rewrite <- app_assoc.
    + rewrite filter_cons_False by lia. reflexivity.
Qed.

Section DetectorFacts.

Variables Mat Point : Type.
Variable findContours : Mat -> list (list Point).
Variable approxPolyDP : list Point -> list Point.
Variable boundingRect : list Point -> cv.Rect.

Local Abbreviation detect :=
  (detectCCBlobs Mat Point findContours approxPolyDP boundingRect).
Local Abbreviation legacy :=
  (detectBlobs Mat Point findContours approxPolyDP boundingRect).
Local Abbreviation blobs :=
  (blob_boxes Mat Point findContours approxPolyDP boundingRect).

Lemma expanded_above_threshold (img : Mat) :
  Forall (fun r => MINAREABLOB < cv.area r)
    (map (spec_expand 35)
       (getThresholdRects Mat Point findContours approxPolyDP boundingRect
          img [])).
Proof.
  rewrite getThresholdRects_filter. simpl.
  apply Forall_forall. intros r Hr. apply list_elem_of_fmap in Hr.
  destruct Hr as (r0 & -> & Hr0). apply list_elem_of_filter in Hr0.
  destruct Hr0 as [Hbig _].
  pose proof (expand_area_ge 35 r0 ltac:(lia)
                ltac:(unfold MINAREABLOB in Hbig; lia)).
  lia.
Qed.


(** X11. The legacy detector [detectBlobs] draws exactly the boxes with
    an area above [MINAREABLOB], in the order of the contours, and a box
    whose area is the largest of those drawn is always drawn green. *)
Theorem detectBlobs_largest_is_green (img : Mat) :
  map fst (legacy img) = filter (fun b => MINAREABLOB < cv.area b) (blobs img) /\
  (forall r c, (r, c) ∈ legacy img -> MINAREABLOB < cv.area r) /\
  (forall r c, (r, c) ∈ legacy img ->
     (forall r' c', (r', c') ∈ legacy img -> cv.area r' <= cv.area r) ->
     c = Green).
Proof.
  unfold detectBlobs, blob_boxes. rewrite filter_loop. simpl.
  set (kept := filter _ _).
  assert (Hkept : forall r, r ∈ kept -> MINAREABLOB < cv.area r).
  { intros r Hr. apply list_elem_of_filter in Hr. tauto. }
  split; [|split].
  - rewrite map_map. simpl. apply map_id.
  - intros r c Hin. apply list_elem_of_fmap in Hin.
    destruct Hin as (r0 & [= -> _] & Hr0). now apply Hkept.
  - intros r c Hin Hmax. apply list_elem_of_fmap in Hin.
    destruct Hin as (r0 & [= -> ->] & Hr0).
    pose proof (Hkept _ Hr0) as Hbig. unfold MINAREABLOB in Hbig.
    destruct (largest_area_from kept 0) as (_ & Hall & Hatt).
    fold (largest_area kept) in Hall, Hatt.
    assert (Heq : largest_area kept = cv.area r0).
    { pose proof (Hall _ Hr0).
      destruct Hatt as [Hz | (r1 & Hr1 & Hr1eq)]; [lia|].
      assert (cv.area r1 <= cv.area r0); [|lia].
      apply (Hmax r1 (if largest_area kept * 60 ÷ 100 <? cv.area r1
                      then Green else Red)).
      apply list_elem_of_fmap. exists r1. auto. }
    rewrite Heq.
    assert (cv.area r0 * 60 ÷ 100 < cv.area r0).
    { rewrite Z.quot_div_nonneg by lia.
      apply Z.div_lt_upper_bound; lia. }
    destruct (Z.ltb_spec (cv.area r0 * 60 ÷ 100) (cv.area r0)); [reflexivity|lia].
Qed.

End DetectorFacts.

(** ** More on [getBoundingBoxHSV] *)

(** X12. The sampler has no memory: whatever the two vectors hold before
    the call, the result is the same (they are reset before the scan). *)
Theorem getBoundingBoxHSV_ignores_previous img (BOX : list Z)
    (MINHSV MAXHSV MINHSV' MAXHSV' : list Z) :
  length MINHSV = 3%nat -> length MAXHSV = 3%nat ->
  length MINHSV' = 3%nat -> length MAXHSV' = 3%nat ->
  getBoundingBoxHSV img BOX MINHSV MAXHSV =
  getBoundingBoxHSV img BOX MINHSV' MAXHSV'.
Proof.
  intros H1 H2 H3 H4. unfold getBoundingBoxHSV.
  now rewrite (reset_vectors MINHSV MAXHSV), (reset_vectors MINHSV' MAXHSV').
Qed.

Lemma getBoundingBoxHSV_ignores_previous_witness :
  let img := [[mkVec3b 3 3 3; mkVec3b 7 1 9]; [mkVec3b 7 1 9; mkVec3b 3 3 3]] in
  getBoundingBoxHSV img [0; 0; 2; 1] [10; 20; 30] [40; 50; 60] =
  getBoundingBoxHSV img [0; 0; 2; 1] [255; 255; 255] [0; 0; 0].
Proof.
  intros img.
  apply (getBoundingBoxHSV_ignores_previous img [0; 0; 2; 1]); reflexivity.
Defined.

Lemma scanned_pixel_ok img rows cols (BOX : list Z) (p : Vec3b) :
  frame_of img rows cols -> scanned img BOX p -> pixel_ok p = true.
Proof.
  intros Hframe (x1 & y1 & x2 & y2 & i & j & _ & _ & _ & _ & _ & _ & Hat).
  eapply at_pixel_ok; eassumption.
Qed.

(** The result for a box inside the frame, as bounds on each component. *)
Lemma sampled_bytes (S : Vec3b -> Prop) proj lo hi :
  (forall p, S p -> 0 <= proj p <= 255) ->
  comp_range S proj lo hi -> 0 <= lo <= 255 /\ 0 <= hi <= 255.
Proof.
  intros Hbyte (_ & Hlo & Hhi).
  destruct Hlo as [-> | (p & Hp & <-)]; destruct Hhi as [-> | (q & Hq & <-)];
    repeat match goal with
           | H : S ?x |- _ => apply Hbyte in H
           end; lia.
Qed.

Lemma getBoundingBoxHSV_range img rows cols (x1 y1 x2 y2 : Z)
    (MINHSV MAXHSV : list Z) :
  frame_of img rows cols ->
  0 <= x1 < x2 -> x2 <= cols -> 0 <= y1 < y2 -> y2 <= rows ->
  length MINHSV = 3%nat -> length MAXHSV = 3%nat ->
  exists l0 l1 l2 h0 h1 h2,
    getBoundingBoxHSV img [x1; y1; x2; y2] MINHSV MAXHSV =
      Some ([l0; l1; l2], [h0; h1; h2]) /\
    min_max_over (scanned img [x1; y1; x2; y2]) val0 l0 h0 /\
    min_max_over (scanned img [x1; y1; x2; y2]) val1 l1 h1 /\
    min_max_over (scanned img [x1; y1; x2; y2]) val2 l2 h2.
Proof.
  intros Hframe Hx Hx2 Hy Hy2 Hmin Hmax.
  destruct (getBoundingBoxHSV_sampled img rows cols x1 y1 x2 y2 MINHSV MAXHSV)
    as (mm & Hrun & (l0 & l1 & l2 & h0 & h1 & h2 & -> & H0 & H1 & H2));
    try assumption; try lia.
  destruct (at_in_frame img rows cols y1 x1 Hframe) as (p0 & Hp0 & _); [lia|lia|].
  assert (HS0 : scanned img [x1; y1; x2; y2] p0).
  { apply scanned_box. exists x1, y1. split; [lia|]. split; [lia|exact Hp0]. }
  assert (Hbyte : forall p, scanned img [x1; y1; x2; y2] p ->
                    0 <= val0 p <= 255 /\ 0 <= val1 p <= 255 /\ 0 <= val2 p <= 255).
  { intros p Hp. apply pixel_ok_bounds. eapply scanned_pixel_ok; eassumption. }
  exists l0, l1, l2, h0, h1, h2. split; [exact Hrun|].
  split; [|split]; eapply comp_range_min_max; try eassumption;
    intros p Hp; apply Hbyte in Hp; lia.
Qed.

(** X13. For a box inside the frame, degenerate or not, the call returns
    two vectors of three bytes; when the box has pixels ([x1 < x2] and
    [y1 < y2]) each minimum is at most the maximum of its component. *)
Theorem getBoundingBoxHSV_bytes_in_order img rows cols (x1 y1 x2 y2 : Z)
    (MINHSV MAXHSV : list Z) :
  frame_of img rows cols ->
  0 <= x1 -> x2 <= cols -> 0 <= y1 -> y2 <= rows ->
  length MINHSV = 3%nat -> length MAXHSV = 3%nat ->
  exists mn mx,
    getBoundingBoxHSV img [x1; y1; x2; y2] MINHSV MAXHSV = Some (mn, mx) /\
    length mn = 3%nat /\ length mx = 3%nat /\
    Forall (fun v => 0 <= v <= 255) mn /\ Forall (fun v => 0 <= v <= 255) mx /\
    (x1 < x2 -> y1 < y2 -> Forall2 Z.le mn mx).
Proof.
  intros Hframe Hx1 Hx2 Hy1 Hy2 Hmin Hmax.
  destruct (getBoundingBoxHSV_sampled img rows cols x1 y1 x2 y2 MINHSV MAXHSV)
    as (mm & Hrun & (l0 & l1 & l2 & h0 & h1 & h2 & -> & H0 & H1 & H2));
    try assumption.
  assert (Hbyte : forall p, scanned img [x1; y1; x2; y2] p ->
                    0 <= val0 p <= 255 /\ 0 <= val1 p <= 255 /\ 0 <= val2 p <= 255).
  { intros p Hp. apply pixel_ok_bounds. eapply scanned_pixel_ok; eassumption. }
  pose proof (sampled_bytes _ val0 l0 h0
                (fun p Hp => proj1 (Hbyte p Hp)) H0).
  pose proof (sampled_bytes _ val1 l1 h1
                (fun p Hp => proj1 (proj2 (Hbyte p Hp))) H1).
  pose proof (sampled_bytes _ val2 l2 h2
                (fun p Hp => proj2 (proj2 (Hbyte p Hp))) H2).
  exists [l0; l1; l2], [h0; h1; h2]. split; [exact Hrun|].
  split; [reflexivity|]. split; [reflexivity|].
  split; [repeat constructor; lia|]. split; [repeat constructor; lia|].
  intros Hx Hy.
  destruct (at_in_frame img rows cols y1 x1 Hframe) as (p0 & Hp0 & _); [lia|lia|].
  assert (HS0 : scanned img [x1; y1; x2; y2] p0).
  { apply scanned_box. exists x1, y1. split; [lia|]. split; [lia|exact Hp0]. }
  destruct H0 as (B0 & _). destruct H1 as (B1 & _). destruct H2 as (B2 & _).
  pose proof (B0 _ HS0). pose proof (B1 _ HS0). pose proof (B2 _ HS0).
  repeat constructor; lia.
Qed.

Lemma getBoundingBoxHSV_bytes_in_order_witness :
  let img := [[mkVec3b 3 3 3; mkVec3b 7 1 9]; [mkVec3b 7 1 9; mkVec3b 3 3 3]] in
  exists mn mx,
    getBoundingBoxHSV img [0; 0; 2; 2] [10; 20; 30] [40; 50; 60] = Some (mn, mx) /\
    length mn = 3%nat /\ length mx = 3%nat /\
    Forall (fun v => 0 <= v <= 255) mn /\ Forall (fun v => 0 <= v <= 255) mx /\
    (0 < 2 -> 0 < 2 -> Forall2 Z.le mn mx).
Proof.
  intros img.
  apply (getBoundingBoxHSV_bytes_in_order img 2 2 0 0 2 2); try lia;
    try reflexivity.
  split; [reflexivity|]. repeat constructor.
Defined.

Lemma min_max_over_mono (S S' : Vec3b -> Prop) proj lo hi lo' hi' :
  (forall p, S p -> S' p) ->
  min_max_over S proj lo hi -> min_max_over S' proj lo' hi' ->
  lo' <= lo /\ hi <= hi'.
Proof.
  intros Hsub (_ & (p & Hp & <-) & (q & Hq & <-)) (Hb' & _).
  pose proof (Hb' p (Hsub p Hp)). pose proof (Hb' q (Hsub q Hq)). lia.
Qed.

(** X14. A larger box gives a wider range: if one box with pixels lies in
    another and both lie in the frame, then on every component the minimum
    over the larger box is at most the minimum over the smaller one and the
    maximum is at least its maximum. *)
Theorem getBoundingBoxHSV_wider_box_wider_range img rows cols
    (x1 y1 x2 y2 X1 Y1 X2 Y2 : Z) (MINHSV MAXHSV : list Z) :
  frame_of img rows cols ->
  0 <= X1 -> X1 <= x1 -> x1 < x2 -> x2 <= X2 -> X2 <= cols ->
  0 <= Y1 -> Y1 <= y1 -> y1 < y2 -> y2 <= Y2 -> Y2 <= rows ->
  length MINHSV = 3%nat -> length MAXHSV = 3%nat ->
  exists mn mx MN MX,
    getBoundingBoxHSV img [x1; y1; x2; y2] MINHSV MAXHSV = Some (mn, mx) /\
    getBoundingBoxHSV img [X1; Y1; X2; Y2] MINHSV MAXHSV = Some (MN, MX) /\
    Forall2 Z.le MN mn /\ Forall2 Z.le mx MX.
Proof.
  intros Hframe Ha Hb Hc Hd He Hf Hg Hh Hi Hj Hmin Hmax.
  destruct (getBoundingBoxHSV_range img rows cols x1 y1 x2 y2 MINHSV MAXHSV)
    as (l0 & l1 & l2 & h0 & h1 & h2 & Hrun & M0 & M1 & M2);
    try assumption; try lia.
  destruct (getBoundingBoxHSV_range img rows cols X1 Y1 X2 Y2 MINHSV MAXHSV)
    as (L0 & L1 & L2 & U0 & U1 & U2 & Hrun' & N0 & N1 & N2);
    try assumption; try lia.
  assert (Hsub : forall p, scanned img [x1; y1; x2; y2] p ->
                           scanned img [X1; Y1; X2; Y2] p).
  { intros p Hp. apply scanned_box in Hp. destruct Hp as (i & j & Hci & Hcj & Hat).
    apply scanned_box. exists i, j. split; [lia|]. split; [lia|exact Hat]. }
  pose proof (min_max_over_mono _ _ _ _ _ _ _ Hsub M0 N0).
  pose proof (min_max_over_mono _ _ _ _ _ _ _ Hsub M1 N1).
  pose proof (min_max_over_mono _ _ _ _ _ _ _ Hsub M2 N2).
  do 4 eexists. split; [exact Hrun|]. split; [exact Hrun'|].
  split; repeat constructor; lia.
Qed.

Lemma getBoundingBoxHSV_wider_box_wider_range_witness :
  let img := [[mkVec3b 3 3 3; mkVec3b 7 1 9]; [mkVec3b 7 1 9; mkVec3b 3 3 3]] in
  exists mn mx MN MX,
    getBoundingBoxHSV img [0; 0; 1; 1] [10; 20; 30] [40; 50; 60] = Some (mn, mx) /\
    getBoundingBoxHSV img [0; 0; 2; 2] [10; 20; 30] [40; 50; 60] = Some (MN, MX) /\
    Forall2 Z.le MN mn /\ Forall2 Z.le mx MX.
Proof.
  intros img.
  apply (getBoundingBoxHSV_wider_box_wider_range img 2 2 0 0 1 1 0 0 2 2);
    try lia; try reflexivity.
  split; [reflexivity|]. repeat constructor.
Defined.

Lemma for_range_fails {S : Type} (body : nat -> S -> option S)
    (count start k : nat) (s : S) :
  (start <= k < start + count)%nat ->
  (forall t, body k t = None) ->
  for_range start count body s = None.
Proof.
  revert start s. induction count as [|n IH]; intros start s Hk Hfail; [lia|].
  simpl. destruct (body start s) as [s'|] eqn:Hb; [|reflexivity]. simpl.
  destruct (Nat.eq_dec k start) as [->|Hne]; [rewrite Hfail in Hb; discriminate|].
  apply IH; [lia|exact Hfail].
Qed.

Lemma for_int_fails {S : Type} (lo hi i : Z) (body : Z -> S -> option S) (s : S) :
  lo <= i < hi -> (forall t, body i t = None) -> for_int lo hi body s = None.
Proof.
  intros Hi Hfail. unfold for_int.
  apply (for_range_fails _ _ _ (Z.to_nat (i - lo))); [lia|].
  intros t. replace (lo + Z.of_nat (Z.to_nat (i - lo))) with i by lia.
  apply Hfail.
Qed.

Lemma at_outside img rows cols (j i : Z) :
  frame_of img rows cols ->
  ~ (0 <= j < rows /\ 0 <= i < cols) -> at_ img j i = None.
Proof.
  intros [Hrows Hall] Hout. unfold at_.
  destruct (Z.leb_spec 0 j); [|reflexivity].
  destruct (Z.leb_spec 0 i); [|reflexivity]. simpl.
  destruct (img !! Z.to_nat j) as [row|] eqn:Hrow; [|reflexivity]. simpl.
  apply lookup_ge_None.
  rewrite Forall_forall in Hall.
  destruct (Hall row) as [Hlen _]; [eapply list_elem_of_lookup_2; exact Hrow|].
  apply lookup_lt_Some in Hrow. lia.
Qed.

(** X15. There is no bounds check: for a box with pixels ([x1 < x2] and
    [y1 < y2]) that does not lie inside the frame, the scan reads a pixel
    outside of the image, which the language leaves undefined. *)
Theorem getBoundingBoxHSV_outside_frame_undefined img rows cols
    (x1 y1 x2 y2 : Z) (MINHSV MAXHSV : list Z) :
  frame_of img rows cols ->
  x1 < x2 -> y1 < y2 ->
  ~ (0 <= x1 /\ x2 <= cols /\ 0 <= y1 /\ y2 <= rows) ->
  length MINHSV = 3%nat -> length MAXHSV = 3%nat ->
  getBoundingBoxHSV img [x1; y1; x2; y2] MINHSV MAXHSV = None.
Proof.
  intros Hframe Hx Hy Hout Hmin Hmax.
  assert (Hij : exists i j, x1 <= i < x2 /\ y1 <= j < y2 /\
                            ~ (0 <= j < rows /\ 0 <= i < cols)).
  { destruct (Z.lt_ge_cases x1 0); [exists x1, y1; lia|].
    destruct (Z.lt_ge_cases cols x2); [exists (x2 - 1), y1; lia|].
    destruct (Z.lt_ge_cases y1 0); [exists x1, y1; lia|].
    exists x1, (y2 - 1). lia. }
  destruct Hij as (i & j & Hi & Hj & Hbad).
  unfold getBoundingBoxHSV. rewrite reset_vectors by assumption. simpl.
  apply (for_int_fails x1 x2 i); [exact Hi|]. intros t.
  apply (for_int_fails y1 y2 j); [exact Hj|]. intros u.
  now rewrite (at_outside img rows cols j i Hframe Hbad).
Qed.

Lemma getBoundingBoxHSV_outside_frame_undefined_witness :
  getBoundingBoxHSV
    [[mkVec3b 3 3 3; mkVec3b 7 1 9]; [mkVec3b 7 1 9; mkVec3b 3 3 3]]
    [-1; 0; 1; 1] [10; 20; 30] [40; 50; 60] = None.
Proof.
  apply (getBoundingBoxHSV_outside_frame_undefined _ 2 2); try lia;
    try reflexivity.
  split; [reflexivity|]. repeat constructor.
Defined.

(** ** Mouse, keyboard and the main loop *)

(** X16. A right click toggles the mode between 0 and 1 and touches
    nothing else, so two right clicks restore the state; no other event
    changes the mode. *)
Theorem onMouse_right_click_toggles (g : Globals) (x y x' y' : Z) :
  trackModeFlag g = 0 \/ trackModeFlag g = 1 ->
  let g' := onMouse CV_EVENT_RBUTTONUP x y g in
  trackModeFlag g' = 1 - trackModeFlag g /\
  mouseDraggedFlag g' = mouseDraggedFlag g /\ channelFlag g' = channelFlag g /\
  BBOX g' = BBOX g /\
  onMouse CV_EVENT_RBUTTONUP x' y' g' = g /\
  (forall event, event <> CV_EVENT_RBUTTONUP ->
     trackModeFlag (onMouse event x y g) = trackModeFlag g).
Proof.
  intros Hmode. destruct g as [d t c k b n]. simpl in *.
  assert (Hother : forall event, event <> CV_EVENT_RBUTTONUP ->
            trackModeFlag (onMouse event x y (mkGlobals d t c k b n)) = t).
  { intros [] Hne; simpl; try reflexivity; [|congruence].
    destruct (d =? 1); reflexivity. }
  destruct Hmode as [-> | ->]; simpl; auto 10.
Qed.

Lemma onMouse_right_click_toggles_witness :
  let g' := onMouse CV_EVENT_RBUTTONUP 5 7 globals_init in
  trackModeFlag g' = 1 - trackModeFlag globals_init /\
  onMouse CV_EVENT_RBUTTONUP 9 9 g' = globals_init.
Proof.
  intros g'.
  assert (H : trackModeFlag globals_init = 0 \/ trackModeFlag globals_init = 1)
    by (right; reflexivity).
  pose proof (onMouse_right_click_toggles globals_init 5 7 9 9 H)
    as (H1 & _ & _ & _ & H5 & _).
  split; [exact H1|exact H5].
Defined.

Lemma last_cons_default {A : Type} (x : A) (l : list A) (d : A) :
  List.last (x :: l) d = List.last l x.
Proof.
  revert x d. induction l as [|y l IH]; intros x d; [reflexivity|].
  change (List.last (x :: y :: l) d) with (List.last (y :: l) d).
  change (List.last (y :: l) x) with (List.last (y :: l) x).
  rewrite (IH y d). now rewrite (IH y x).
Qed.

Lemma drag_moves (ms : list (Z * Z)) (t c : Z) (k : ascii)
    (b0 b1 b2 b3 n : Z) :
  foldl deliver (mkGlobals 1 t c k (mkBox4 b0 b1 b2 b3) n) (map mouse_move ms) =
  mkGlobals 1 t c k
    (mkBox4 b0 b1 (fst (List.last ms (b2, b3))) (snd (List.last ms (b2, b3)))) n.
Proof.
  revert b2 b3. induction ms as [|[x y] ms IH]; intros b2 b3; [reflexivity|].
  rewrite last_cons_default.
  change (foldl deliver (mkGlobals 1 t c k (mkBox4 b0 b1 b2 b3) n)
            (map mouse_move ((x, y) :: ms)))
    with (foldl deliver (mkGlobals 1 t c k (mkBox4 b0 b1 x y) n)
            (map mouse_move ms)).
  apply IH.
Qed.

Lemma idle_moves (ms : list (Z * Z)) (g : Globals) :
  mouseDraggedFlag g = 0 -> foldl deliver g (map mouse_move ms) = g.
Proof.
  intros Hd. induction ms as [|[x y] ms IH]; [reflexivity|].
  cbn [map foldl]. unfold mouse_move at 1, deliver at 2. cbn [fst snd onMouse].
  rewrite Hd. exact IH.
Qed.

(** X17. A drag gesture: after a left press at [(x0, y0)], any moves and
    the release, the box runs from the press point to the point of the last
    move (the press point when there was none; the release point itself
    plays no part), the drag flag is down again, mode and channel are
    untouched, and later moves without a press leave all of it alone. *)
Theorem onMouse_drag_sets_box (g : Globals) (x0 y0 xu yu : Z)
    (ms later : list (Z * Z)) :
  let g' := foldl deliver g
              ((CV_EVENT_LBUTTONDOWN, x0, y0) :: map mouse_move ms
               ++ [(CV_EVENT_LBUTTONUP, xu, yu)]) in
  BBOX g' = mkBox4 x0 y0 (fst (List.last ms (x0, y0)))
                         (snd (List.last ms (x0, y0))) /\
  mouseDraggedFlag g' = 0 /\
  trackModeFlag g' = trackModeFlag g /\ channelFlag g' = channelFlag g /\
  foldl deliver g' (map mouse_move later) = g'.
Proof.
  cbv zeta. destruct g as [d t c k b n].
  change (foldl deliver (mkGlobals d t c k b n)
            ((CV_EVENT_LBUTTONDOWN, x0, y0) :: map mouse_move ms
             ++ [(CV_EVENT_LBUTTONUP, xu, yu)]))
    with (foldl deliver (mkGlobals 1 t c k (mkBox4 x0 y0 x0 y0) n)
            (map mouse_move ms ++ [(CV_EVENT_LBUTTONUP, xu, yu)])).
  rewrite foldl_app, drag_moves. simpl.
  repeat split. apply idle_moves. reflexivity.
Qed.

Lemma getChannelFlag_values (c : ascii) :
  (getChannelFlag c = 0 /\ c = "1"%char) \/
  (getChannelFlag c = 1 /\ c = "2"%char) \/
  (getChannelFlag c = 2 /\ c = "3"%char) \/
  (getChannelFlag c = 99 /\ c <> "1"%char /\ c <> "2"%char /\ c <> "3"%char).
Proof.
  unfold getChannelFlag.
  destruct (Ascii.eqb_spec c "1"); [auto|].
  destruct (Ascii.eqb_spec c "2"); [auto|].
  destruct (Ascii.eqb_spec c "3"); [auto 6|]. auto 10.
Qed.

(** X18. The keys 1, 2 and 3 select the channels 0, 1 and 2 and every
    other key leaves the channel as it is, so the channel stays an index
    into the threshold arrays; nothing else of the state changes. *)
Theorem select_channel_valid (g : Globals) :
  0 <= channelFlag g <= 2 ->
  let g' := select_channel g in
  0 <= channelFlag g' <= 2 /\
  (charCheckForKey g = "1"%char -> channelFlag g' = 0) /\
  (charCheckForKey g = "2"%char -> channelFlag g' = 1) /\
  (charCheckForKey g = "3"%char -> channelFlag g' = 2) /\
  (charCheckForKey g <> "1"%char -> charCheckForKey g <> "2"%char ->
   charCheckForKey g <> "3"%char -> g' = g) /\
  trackModeFlag g' = trackModeFlag g /\ BBOX g' = BBOX g /\
  mouseDraggedFlag g' = mouseDraggedFlag g /\
  charCheckForKey g' = charCheckForKey g.
Proof.
  intros Hch. unfold select_channel.
  destruct (getChannelFlag_values (charCheckForKey g))
    as [[-> Hk] | [[-> Hk] | [[-> Hk] | [-> (H1 & H2 & H3)]]]]; simpl;
    try rewrite Hk; repeat split; try lia; try congruence; try reflexivity.
Qed.

Lemma select_channel_valid_witness :
  let g := mkGlobals 0 1 0 "3"%char (mkBox4 0 0 1 1) 12 in
  channelFlag (select_channel g) = 2.
Proof.
  intros g.
  assert (H : 0 <= channelFlag g <= 2) by (simpl; lia).
  exact (proj1 (proj2 (proj2 (proj2 (select_channel_valid g H)))) eq_refl).
Defined.

Lemma for_range_inv_partial {S : Type} (P : nat -> S -> Prop)
    (body : nat -> S -> option S) (count start : nat) (s s' : S) :
  for_range start count body s = Some s' ->
  P start s ->
  (forall i t t', (start <= i < start + count)%nat -> P i t ->
     body i t = Some t' -> P (Datatypes.S i) t') ->
  P (start + count)%nat s'.
Proof.
  revert start s. induction count as [|n IH]; intros start s Hrun H0 Hstep.
  - simpl in Hrun. injection Hrun as <-.
    now replace (start + 0)%nat with start by lia.
  - simpl in Hrun. destruct (body start s) as [t|] eqn:Hb; [|discriminate].
    simpl in Hrun.
    replace (start + Datatypes.S n)%nat with (Datatypes.S start + n)%nat by lia.
    apply (IH (Datatypes.S start) t Hrun).
    + apply (Hstep start s t); [lia|exact H0|exact Hb].
    + intros i u u' Hi. apply Hstep. lia.
Qed.

Lemma sample_component_lengths (p : Vec3b) (a : nat) mm mm' :
  sample_component p a mm = Some mm' ->
  length (fst mm') = length (fst mm) /\ length (snd mm') = length (snd mm).
Proof.
  destruct mm as [mn mx]. unfold sample_component. intros H.
  destruct (val p a) as [v|]; [|discriminate]. simpl in H.
  destruct (mx !! a) as [hi|]; [|discriminate]. simpl in H.
  destruct (if hi <? v then store mx a v else Some mx) as [mx'|] eqn:Hmx;
    [|discriminate]. simpl in H.
  destruct (mn !! a) as [lo|]; [|discriminate]. simpl in H.
  destruct (if v <? lo then store mn a v else Some mn) as [mn'|] eqn:Hmn;
    [|discriminate]. simpl in H. injection H as <-. simpl.
  split.
  - destruct (v <? lo); [|now injection Hmn as <-].
    apply store_inv in Hmn. destruct Hmn as [_ ->]. apply length_insert.
  - destruct (hi <? v); [|now injection Hmx as <-].
    apply store_inv in Hmx. destruct Hmx as [_ ->]. apply length_insert.
Qed.

(** Whatever the image and the box, a call that returns gives back two
    vectors of three components. *)
Lemma getBoundingBoxHSV_lengths img (BOX MINHSV MAXHSV mn mx : list Z) :
  length MINHSV = 3%nat -> length MAXHSV = 3%nat ->
  getBoundingBoxHSV img BOX MINHSV MAXHSV = Some (mn, mx) ->
  length mn = 3%nat /\ length mx = 3%nat.
Proof.
  intros Hmin Hmax. unfold getBoundingBoxHSV.
  rewrite reset_vectors by assumption. rewrite bind_Some.
  destruct (BOX !! 0%nat) as [x1|]; [|discriminate]. rewrite bind_Some.
  destruct (BOX !! 2%nat) as [x2|]; [|discriminate]. rewrite bind_Some.
  unfold for_int at 1. intros Hrun.
  pose (P := fun (_ : nat) (mm : list Z * list Z) =>
               length (fst mm) = 3%nat /\ length (snd mm) = 3%nat).
  apply (for_range_inv_partial P _ _ _ _ _ Hrun); [split; reflexivity|].
  intros k t t' _ Ht Hcol.
  destruct (BOX !! 1%nat) as [y1|]; [|discriminate]. rewrite bind_Some in Hcol.
  destruct (BOX !! 3%nat) as [y2|]; [|discriminate]. rewrite bind_Some in Hcol.
  unfold for_int in Hcol.
  apply (for_range_inv_partial P _ _ _ _ _ Hcol); [exact Ht|].
  intros l u u' _ Hu Hpix.
  destruct (at_ img (y1 + Z.of_nat l) (x1 + Z.of_nat k)) as [p|]; [|discriminate].
  rewrite bind_Some in Hpix.
  apply (for_range_inv_partial P _ _ _ _ _ Hpix); [exact Hu|].
  intros a v v' _ [Hv1 Hv2] Hcomp.
  apply sample_component_lengths in Hcomp. unfold P. lia.
Qed.

Lemma deliver_keeps (g : Globals) (e : MouseEvent * Z * Z) :
  (trackModeFlag g = 0 \/ trackModeFlag g = 1) ->
  channelFlag (deliver g e) = channelFlag g /\
  (trackModeFlag (deliver g e) = 0 \/ trackModeFlag (deliver g e) = 1).
Proof.
  intros Hmode. destruct e as [[event x] y]. destruct g as [d t c k b n].
  simpl in *. destruct event; simpl; auto.
  - destruct (d =? 1); simpl; auto.
  - destruct Hmode as [-> | ->]; simpl; auto.
Qed.

Lemma deliver_all_keeps (es : list (MouseEvent * Z * Z)) (g : Globals) :
  (trackModeFlag g = 0 \/ trackModeFlag g = 1) ->
  channelFlag (foldl deliver g es) = channelFlag g /\
  (trackModeFlag (foldl deliver g es) = 0 \/
   trackModeFlag (foldl deliver g es) = 1).
Proof.
  revert g. induction es as [|e es IH]; intros g Hmode; [auto|].
  simpl. destruct (deliver_keeps g e Hmode) as [Hc Hm].
  destruct (IH (deliver g e) Hm) as [Hc' Hm']. rewrite Hc'. auto.
Qed.

Lemma select_channel_keeps (g : Globals) :
  0 <= channelFlag g <= 2 ->
  0 <= channelFlag (select_channel g) <= 2 /\
  trackModeFlag (select_channel g) = trackModeFlag g /\
  BBOX (select_channel g) = BBOX g.
Proof.
  intros Hch. unfold select_channel.
  destruct (getChannelFlag_values (charCheckForKey g))
    as [[-> _] | [[-> _] | [[-> _] | [-> _]]]]; simpl; repeat split; lia.
Qed.

Lemma Forall_insert_row (M : list (list Z)) (k : nat) (row : list Z) :
  Forall (fun r => length r = 3%nat) M -> length row = 3%nat ->
  Forall (fun r => length r = 3%nat) (<[k := row]> M).
Proof. intros HM Hrow. now apply Forall_insert. Qed.

(** What a calibration step does, when it returns. *)
Lemma calibrate_inv img (s s' : MainState) :
  calibrate img s = Some s' ->
  exists ch MINHSV MAXHSV mn mx,
    ch = Z.to_nat (channelFlag (globals s)) /\
    HSVMINALL s !! ch = Some MINHSV /\ HSVMAXALL s !! ch = Some MAXHSV /\
    getBoundingBoxHSV img (BOX_of (BBOX (globals s))) MINHSV MAXHSV
      = Some (mn, mx) /\
    s' = mkMainState (globals s) (<[ch := mn]> (HSVMINALL s))
                     (<[ch := mx]> (HSVMAXALL s)).
Proof.
  unfold calibrate. intros H.
  destruct (channelFlag (globals s) <? 0); [discriminate|].
  destruct (HSVMINALL s !! Z.to_nat (channelFlag (globals s)))
    as [MINHSV|] eqn:Hmin; [|discriminate]. rewrite bind_Some in H.
  destruct (HSVMAXALL s !! Z.to_nat (channelFlag (globals s)))
    as [MAXHSV|] eqn:Hmax; [|discriminate]. rewrite bind_Some in H.
  destruct (getBoundingBoxHSV img (BOX_of (BBOX (globals s))) MINHSV MAXHSV)
    as [[mn mx]|] eqn:Hrun; [|discriminate]. rewrite bind_Some in H.
  cbv beta iota in H.
  destruct (store (HSVMINALL s) _ mn) as [M1|] eqn:H1; [|discriminate].
  rewrite bind_Some in H.
  destruct (store (HSVMAXALL s) _ mx) as [M2|] eqn:H2; [|discriminate].
  rewrite bind_Some in H. injection H as <-.
  apply store_inv in H1, H2. destruct H1 as [_ ->]. destruct H2 as [_ ->].
  do 5 eexists. repeat split; eassumption.
Qed.

Lemma calibrate_keeps img (s s' : MainState) :
  state_ok s -> calibrate img s = Some s' -> state_ok s'.
Proof.
  intros (Hch & Hmode & HlM & HlX & HrM & HrX) Hcal.
  destruct (calibrate_inv img s s' Hcal)
    as (ch & MINHSV & MAXHSV & mn & mx & -> & Hmin & Hmax & Hrun & ->).
  rewrite Forall_forall in HrM, HrX.
  pose proof (HrM _ (list_elem_of_lookup_2 _ _ _ Hmin)) as L1.
  pose proof (HrX _ (list_elem_of_lookup_2 _ _ _ Hmax)) as L2.
  destruct (getBoundingBoxHSV_lengths _ _ _ _ _ _ L1 L2 Hrun) as [L3 L4].
  unfold state_ok. simpl. rewrite !length_insert.
  repeat split; try assumption; try lia;
    apply Forall_insert_row; try assumption; now apply Forall_forall.
Qed.

Lemma main_iteration_keeps (inp : FrameInput) (s : MainState) step :
  state_ok s -> main_iteration inp s = Some step ->
  match step with Continue s' | Break s' => state_ok s' end.
Proof.
  intros (Hch & Hmode & HlM & HlX & HrM & HrX) Hrun.
  destruct (select_channel_keeps (globals s) Hch) as (Hch' & Hmode' & _).
  assert (Hsel : state_ok (mkMainState (select_channel (globals s))
                             (HSVMINALL s) (HSVMAXALL s))).
  { unfold state_ok. simpl. rewrite Hmode'. auto 10. }
  unfold main_iteration in Hrun. cbv zeta in Hrun.
  destruct (frame inp) as [img|]; [|injection Hrun as <-; exact Hsel].
  set (s0 := mkMainState (select_channel (globals s)) (HSVMINALL s) (HSVMAXALL s))
    in *.
  destruct (if trackModeFlag (globals s0) =? 0 then calibrate img s0 else Some s0)
    as [s1|] eqn:Hmid; [|discriminate].
  rewrite bind_Some in Hrun. injection Hrun as <-.
  assert (Hs1 : state_ok s1).
  { destruct (trackModeFlag (globals s0) =? 0).
    - eapply calibrate_keeps; eassumption.
    - now injection Hmid as <-. }
  destruct Hs1 as (C1 & C2 & C3 & C4 & C5 & C6).
  set (g1 := mkGlobals (mouseDraggedFlag (globals s1)) (trackModeFlag (globals s1))
               (channelFlag (globals s1)) (charCheckForKey (globals s1))
               (BBOX (globals s1)) (frameCount (globals s1) + 1)).
  destruct (deliver_all_keeps (events inp) g1 C2) as [D1 D2].
  unfold state_ok. simpl. rewrite D1. auto 10.
Qed.

(** X19. The loop keeps its state well formed: from a state with a channel
    index in 0..2, a mode in 0..1 and two 3 by 3 threshold arrays (as the
    initial one), every state the loop ends in, whatever frames, mouse
    events and keys arrive, is of that kind again. *)
Theorem main_loop_keeps_state_ok (inputs : list FrameInput) (s s' : MainState) :
  state_ok s -> main_loop inputs s = Some s' -> state_ok s'.
Proof.
  revert s. induction inputs as [|inp rest IH]; intros s Hok Hrun; simpl in Hrun.
  - destruct (Ascii.eqb _ Esc); now injection Hrun as <-.
  - destruct (Ascii.eqb _ Esc); [now injection Hrun as <-|].
    destruct (main_iteration inp s) as [step|] eqn:Hstep; [|discriminate].
    rewrite bind_Some in Hrun.
    pose proof (main_iteration_keeps inp s step Hok Hstep) as Hok'.
    destruct step as [s1|s1]; [exact (IH s1 Hok' Hrun)|].
    now injection Hrun as <-.
Qed.

Lemma main_loop_keeps_state_ok_witness :
  let img := [[mkVec3b 3 3 3; mkVec3b 7 1 9]; [mkVec3b 7 1 9; mkVec3b 3 3 3]] in
  let inputs :=
    [mkFrameInput (Some img) [(CV_EVENT_RBUTTONUP, 0, 0)] "2"%char;
     mkFrameInput (Some img) [] Esc] in
  state_ok
    (mkMainState (mkGlobals 0 0 1 Esc (mkBox4 0 0 1 1) 2)
       [[255; 255; 255]; [3; 3; 3]; [255; 255; 255]]
       [[0; 0; 0]; [3; 3; 3]; [0; 0; 0]]).
Proof.
  intros img inputs.
  apply (main_loop_keeps_state_ok inputs main_init).
  - unfold state_ok. simpl. repeat split; try lia; auto; repeat constructor.
  - reflexivity.
Defined.

Lemma deliver_all_frameCount (es : list (MouseEvent * Z * Z)) (g : Globals) :
  frameCount (foldl deliver g es) = frameCount g.
Proof.
  revert g. induction es as [|[[event x] y] es IH]; intros g; [reflexivity|].
  simpl. rewrite IH. destruct g as [d t c k b n]. destruct event; simpl; auto.
  - destruct (d =? 1); reflexivity.
  - destruct (t =? 1); [reflexivity|]. destruct (t =? 0); reflexivity.
Qed.



Lemma degenerate_scan img (x1 y1 x2 y2 : Z) (MINHSV MAXHSV : list Z) :
  x2 <= x1 \/ y2 <= y1 ->
  length MINHSV = 3%nat -> length MAXHSV = 3%nat ->
  getBoundingBoxHSV img [x1; y1; x2; y2] MINHSV MAXHSV =
    Some ([255; 255; 255], [0; 0; 0]).
Proof.
  intros Hdeg Hmin Hmax.
  unfold getBoundingBoxHSV. rewrite reset_vectors by assumption. simpl.
  destruct (Z.le_gt_cases x2 x1) as [Hx|Hx].
  - now apply for_int_empty.
  - destruct Hdeg as [|Hy]; [lia|].
    unfold for_int at 1. apply for_range_idle. intros k _.
    now apply for_int_empty.
Qed.

Lemma calibrate_runs img (s : MainState) (mn mx : list Z) :
  state_ok s ->
  (forall MINHSV MAXHSV, length MINHSV = 3%nat -> length MAXHSV = 3%nat ->
     getBoundingBoxHSV img (BOX_of (BBOX (globals s))) MINHSV MAXHSV
       = Some (mn, mx)) ->
  calibrate img s =
    Some (mkMainState (globals s)
            (<[Z.to_nat (channelFlag (globals s)) := mn]> (HSVMINALL s))
            (<[Z.to_nat (channelFlag (globals s)) := mx]> (HSVMAXALL s))).
Proof.
  intros (Hch & _ & HlM & HlX & HrM & HrX) Hscan. unfold calibrate. cbv zeta.
  destruct (Z.ltb_spec (channelFlag (globals s)) 0); [lia|].
  destruct (lookup_lt_is_Some_2 (HSVMINALL s)
              (Z.to_nat (channelFlag (globals s))) ltac:(lia)) as [MINHSV Hmin].
  destruct (lookup_lt_is_Some_2 (HSVMAXALL s)
              (Z.to_nat (channelFlag (globals s))) ltac:(lia)) as [MAXHSV Hmax].
  rewrite Hmin, Hmax, !bind_Some.
  rewrite Forall_forall in HrM, HrX.
  rewrite (Hscan MINHSV MAXHSV
             (HrM _ (list_elem_of_lookup_2 _ _ _ Hmin))
             (HrX _ (list_elem_of_lookup_2 _ _ _ Hmax))).
  rewrite bind_Some. cbv beta iota.
  rewrite !store_Some by lia. reflexivity.
Qed.

(** X21. In calibration a click, or a drag that ends left of or above the
    point where it started, wipes the selected channel: after the press at
    [(x0, y0)], the moves and the release, the next calibration step leaves
    that channel with the empty range, [MIN = (255,255,255)] and
    [MAX = (0,0,0)], whatever the image. *)
Theorem click_or_backward_drag_empties_range img (s : MainState)
    (x0 y0 xu yu : Z) (ms : list (Z * Z)) :
  state_ok s ->
  fst (List.last ms (x0, y0)) <= x0 \/ snd (List.last ms (x0, y0)) <= y0 ->
  let g' := foldl deliver (globals s)
              ((CV_EVENT_LBUTTONDOWN, x0, y0) :: map mouse_move ms
               ++ [(CV_EVENT_LBUTTONUP, xu, yu)]) in
  let ch := Z.to_nat (channelFlag (globals s)) in
  exists s',
    calibrate img (mkMainState g' (HSVMINALL s) (HSVMAXALL s)) = Some s' /\
    HSVMINALL s' !! ch = Some [255; 255; 255] /\
    HSVMAXALL s' !! ch = Some [0; 0; 0].
Proof.
  intros Hok Hback. cbv zeta.
  destruct s as [[d t c k b n] M X]. simpl in *.
  change (foldl deliver (mkGlobals d t c k b n)
            ((CV_EVENT_LBUTTONDOWN, x0, y0) :: map mouse_move ms
             ++ [(CV_EVENT_LBUTTONUP, xu, yu)]))
    with (foldl deliver (mkGlobals 1 t c k (mkBox4 x0 y0 x0 y0) n)
            (map mouse_move ms ++ [(CV_EVENT_LBUTTONUP, xu, yu)])).
  rewrite foldl_app, drag_moves. simpl.
  destruct Hok as (Hch & Hmode & HlM & HlX & HrM & HrX). simpl in *.
  rewrite (calibrate_runs img _ [255; 255; 255] [0; 0; 0]).
  - eexists. split; [reflexivity|]. simpl.
    split; apply list_lookup_insert_eq; lia.
  - unfold state_ok. simpl. auto 10.
  - intros MINHSV MAXHSV H1 H2. simpl. unfold BOX_of. simpl.
    apply degenerate_scan; assumption.
Qed.

Lemma click_or_backward_drag_empties_range_witness :
  let img := [[mkVec3b 3 3 3; mkVec3b 7 1 9]; [mkVec3b 7 1 9; mkVec3b 3 3 3]] in
  let s := mkMainState (mkGlobals 0 0 1 "2"%char (mkBox4 0 0 2 2) 7)
             [[1; 2; 3]; [3; 1; 3]; [4; 5; 6]]
             [[1; 2; 3]; [7; 3; 9]; [4; 5; 6]] in
  let g' := foldl deliver (globals s)
              ((CV_EVENT_LBUTTONDOWN, 1, 1) :: map mouse_move [(1, 0); (0, 0)]
               ++ [(CV_EVENT_LBUTTONUP, 0, 0)]) in
  exists s',
    calibrate img (mkMainState g' (HSVMINALL s) (HSVMAXALL s)) = Some s' /\
    HSVMINALL s' !! Z.to_nat (channelFlag (globals s)) = Some [255; 255; 255] /\
    HSVMAXALL s' !! Z.to_nat (channelFlag (globals s)) = Some [0; 0; 0].
Proof.
  intros img s.
  apply (click_or_backward_drag_empties_range img s 1 1 0 0 [(1, 0); (0, 0)]).
  - unfold state_ok. simpl. repeat split; try lia; auto; repeat constructor.
  - simpl. lia.
Defined.

(** X22. A box of one pixel, such as the initial box (0,0,1,1): in
    calibration mode the selected channel gets that pixel as both its
    minimum and its maximum. *)
Theorem calibrate_one_pixel_box img rows cols (s : MainState) (x y : Z)
    (p : Vec3b) :
  state_ok s -> frame_of img rows cols ->
  BBOX (globals s) = mkBox4 x y (x + 1) (y + 1) ->
  at_ img y x = Some p ->
  let ch := Z.to_nat (channelFlag (globals s)) in
  exists s',
    calibrate img s = Some s' /\
    HSVMINALL s' !! ch = Some [val0 p; val1 p; val2 p] /\
    HSVMAXALL s' !! ch = Some [val0 p; val1 p; val2 p].
Proof.
  intros Hok Hframe Hbox Hat. cbv zeta.
  assert (Hin : 0 <= y < rows /\ 0 <= x < cols).
  { destruct (Z.lt_ge_cases y 0); [|destruct (Z.lt_ge_cases x 0)];
      [| |destruct (Z.lt_ge_cases y rows); [destruct (Z.lt_ge_cases x cols);
                                              [lia|]|]];
      rewrite (at_outside img rows cols y x Hframe) in Hat by lia;
      discriminate. }
  assert (Hscan : forall MINHSV MAXHSV,
            length MINHSV = 3%nat -> length MAXHSV = 3%nat ->
            getBoundingBoxHSV img (BOX_of (BBOX (globals s))) MINHSV MAXHSV =
            Some ([val0 p; val1 p; val2 p], [val0 p; val1 p; val2 p])).
  { intros MINHSV MAXHSV H1 H2. rewrite Hbox. unfold BOX_of. simpl.
    destruct (getBoundingBoxHSV_range img rows cols x y (x + 1) (y + 1)
                MINHSV MAXHSV Hframe ltac:(lia) ltac:(lia) ltac:(lia)
                ltac:(lia) H1 H2)
      as (l0 & l1 & l2 & h0 & h1 & h2 & Hrun & M0 & M1 & M2).
    assert (Honly : forall q, scanned img [x; y; x + 1; y + 1] q -> q = p).
    { intros q Hq. apply scanned_box in Hq.
      destruct Hq as (i & j & Hi & Hj & Hq).
      replace i with x in Hq by lia. replace j with y in Hq by lia.
      congruence. }
    destruct M0 as (_ & (a0 & Sa0 & <-) & (b0 & Sb0 & <-)).
    destruct M1 as (_ & (a1 & Sa1 & <-) & (b1 & Sb1 & <-)).
    destruct M2 as (_ & (a2 & Sa2 & <-) & (b2 & Sb2 & <-)).
    apply Honly in Sa0, Sa1, Sa2, Sb0, Sb1, Sb2. subst. exact Hrun. }
  rewrite (calibrate_runs img s _ _ Hok Hscan).
  destruct Hok as (Hch & _ & HlM & HlX & _).
  eexists. split; [reflexivity|]. simpl.
  split; apply list_lookup_insert_eq; lia.
Qed.

Lemma calibrate_one_pixel_box_witness :
  let img := [[mkVec3b 3 3 3; mkVec3b 7 1 9]; [mkVec3b 7 1 9; mkVec3b 3 3 3]] in
  exists s',
    calibrate img main_init = Some s' /\
    HSVMINALL s' !! Z.to_nat (channelFlag (globals main_init)) = Some [3; 3; 3] /\
    HSVMAXALL s' !! Z.to_nat (channelFlag (globals main_init)) = Some [3; 3; 3].
Proof.
  intros img.
  apply (calibrate_one_pixel_box img 2 2 main_init 0 0 (mkVec3b 3 3 3)).
  - unfold state_ok. simpl. repeat split; try lia; auto; repeat constructor.
  - split; [reflexivity|]. repeat constructor.
  - reflexivity.
  - reflexivity.
Defined.

(** ** More on the configuration file *)

Lemma config_format_head : exists t, config_format = String "c" t.
Proof. eexists. reflexivity. Qed.

Lemma fscanf_mismatch (c c' : ascii) (fmt rest : string) :
  Ascii.eqb c "%" = false -> isspace c = false -> c' <> c ->
  fscanf (String c fmt) (String c' rest) = Some ([], String c' rest).
Proof.
  intros H1 H2 Hne. simpl. rewrite H1, H2.
  destruct (Ascii.eqb_spec c c'); [congruence|reflexivity].
Qed.

Lemma fscanf_at_end (c : ascii) (fmt : string) :
  Ascii.eqb c "%" = false -> isspace c = false ->
  fscanf (String c fmt) EmptyString = Some ([], EmptyString).
Proof. intros H1 H2. simpl. now rewrite H1, H2. Qed.

(** A stream that is at its end or does not start with the first letter of
    the format gives nothing to assign and stays where it is. *)
Lemma load_line_nothing (i : nat) (stream : string)
    (mm : list (list Z) * list (list Z)) :
  stream = EmptyString \/
  (exists c rest, stream = String c rest /\ c <> "c"%char) ->
  load_line i (stream, mm) = Some (stream, mm).
Proof.
  intros Hs. rewrite load_line_eq.
  destruct config_format_head as [t ->].
  destruct Hs as [-> | (c & rest & -> & Hc)].
  - rewrite fscanf_at_end by reflexivity. reflexivity.
  - rewrite fscanf_mismatch by (reflexivity || assumption). reflexivity.
Qed.

(** X23. [loadConfigFile] tells a file it cannot open (it returns 1) from
    one it can, but not one it cannot parse: on a readable file that is
    empty or does not start with the letter c it returns 0, as for a good
    file.  In both cases the arrays are left as they are, for any number
    of channels. *)
Theorem loadConfigFile_unreadable_or_unparsed (MIN MAX : list (list Z))
    (nChannels : Z) (f : ConfigFile) :
  (fopen_r f = None ->
     loadConfigFile MIN MAX nChannels f = Some (1, (MIN, MAX))) /\
  (forall text, fopen_r f = Some text ->
     text = EmptyString \/
     (exists c rest, text = String c rest /\ c <> "c"%char) ->
     loadConfigFile MIN MAX nChannels f = Some (0, (MIN, MAX))).
Proof.
  unfold loadConfigFile. split.
  - intros ->. reflexivity.
  - intros text -> Htext.
    rewrite (for_range_idle load_line (Z.to_nat nChannels) 0 (text, (MIN, MAX))).
    + reflexivity.
    + intros i _. now apply load_line_nothing.
Qed.

Lemma for_range_S {S : Type} (body : nat -> S -> option S)
    (start n : nat) (s : S) :
  for_range start (Datatypes.S n) body s =
  (s' ← body start s; for_range (Datatypes.S start) n body s').
Proof. reflexivity. Qed.

Lemma save_line_at (MIN MAX : list (list Z)) (k : nat) (text : string)
    (a0 a1 a2 b0 b1 b2 : Z) :
  MIN !! k = Some [a0; a1; a2] -> MAX !! k = Some [b0; b1; b2] ->
  save_line MIN MAX k text =
  Some (String.append text
          (fprintf config_format [Z.of_nat k; a0; a1; a2; b0; b1; b2])).
Proof.
  intros HM HX. unfold save_line, load2. rewrite HM, HX.
  rewrite !bind_Some.
  change ([a0; a1; a2] !! 0%nat) with (Some a0). rewrite bind_Some.
  change ([a0; a1; a2] !! 1%nat) with (Some a1). rewrite bind_Some.
  change ([a0; a1; a2] !! 2%nat) with (Some a2). rewrite bind_Some.
  change ([b0; b1; b2] !! 0%nat) with (Some b0). rewrite bind_Some.
  change ([b0; b1; b2] !! 1%nat) with (Some b1). rewrite bind_Some.
  change ([b0; b1; b2] !! 2%nat) with (Some b2). rewrite bind_Some.
  reflexivity.
Qed.

Lemma store2_middle (q m : list (list Z)) (row : list Z) (k c : nat) (v : Z) :
  k = length q -> (c < length row)%nat ->
  store2 (q ++ row :: m) k c v = Some (q ++ <[c := v]> row :: m).
Proof.
  intros -> Hc. unfold store2.
  rewrite list_lookup_middle by reflexivity. rewrite bind_Some.
  rewrite store_Some by exact Hc. rewrite bind_Some.
  rewrite store_Some by (rewrite length_app; simpl; lia).
  replace (length q) with (length q + 0)%nat at 1 by lia.
  now rewrite insert_app_r.
Qed.

Lemma assign_MIN (k c : nat) (v : Z) (qmin m0 X : list (list Z)) (row : list Z) :
  k = length qmin -> (c < length row)%nat ->
  assign (T_MIN k c) v (qmin ++ row :: m0, X) =
  Some (qmin ++ <[c := v]> row :: m0, X).
Proof. intros Hk Hc. unfold assign. now rewrite store2_middle. Qed.

Lemma assign_MAX (k c : nat) (v : Z) (qmax x0 M : list (list Z)) (row : list Z) :
  k = length qmax -> (c < length row)%nat ->
  assign (T_MAX k c) v (M, qmax ++ row :: x0) =
  Some (M, qmax ++ <[c := v]> row :: x0).
Proof. intros Hk Hc. unfold assign. now rewrite store2_middle. Qed.

Lemma assign_row (k : nat) (qmin qmax m0 x0 : list (list Z))
    (i a0 a1 a2 b0 b1 b2 c0 c1 c2 d0 d1 d2 : Z) :
  k = length qmin -> k = length qmax ->
  assign_all [T_ch; T_MIN k 0; T_MIN k 1; T_MIN k 2;
              T_MAX k 0; T_MAX k 1; T_MAX k 2]
             [i; a0; a1; a2; b0; b1; b2]
             (qmin ++ [c0; c1; c2] :: m0, qmax ++ [d0; d1; d2] :: x0) =
  Some (qmin ++ [a0; a1; a2] :: m0, qmax ++ [b0; b1; b2] :: x0).
Proof.
  intros Hmin Hmax. cbn [assign_all].
  change (assign T_ch i (qmin ++ [c0; c1; c2] :: m0, qmax ++ [d0; d1; d2] :: x0))
    with (Some (qmin ++ [c0; c1; c2] :: m0, qmax ++ [d0; d1; d2] :: x0)).
  rewrite bind_Some.
  do 3 (rewrite assign_MIN by (assumption || (rewrite ?length_insert; simpl; lia));
        rewrite bind_Some).
  do 3 (rewrite assign_MAX by (assumption || (rewrite ?length_insert; simpl; lia));
        rewrite bind_Some).
  reflexivity.
Qed.

Lemma int_row_shape (row : list Z) :
  length row = 3%nat /\ Forall (fun v => is_int v = true) row ->
  exists a0 a1 a2, row = [a0; a1; a2] /\
    is_int a0 = true /\ is_int a1 = true /\ is_int a2 = true.
Proof.
  intros [Hlen Hint].
  destruct row as [|a0 [|a1 [|a2 [|]]]]; try discriminate.
  repeat match goal with
         | H : Forall _ (_ :: _) |- _ => apply Forall_cons in H; destruct H
         end.
  exists a0, a1, a2. auto.
Qed.

(** The lines of the rows from index [length pmin] on: what the saving
    loop appends for them, and what the loading loop makes of it. *)
Lemma rows_round_trip (MINr : list (list Z)) :
  forall (MAXr pmin pmax : list (list Z)),
    length MAXr = length MINr -> length pmax = length pmin ->
    Z.of_nat (length pmin + length MINr) <= INT_MAX + 1 ->
    Forall (fun row => length row = 3%nat /\
                       Forall (fun v => is_int v = true) row) MINr ->
    Forall (fun row => length row = 3%nat /\
                       Forall (fun v => is_int v = true) row) MAXr ->
    exists body,
      skip_space body = body /\
      (forall text,
         for_range (length pmin) (length MINr)
           (save_line (pmin ++ MINr) (pmax ++ MAXr)) text =
         Some (String.append text body)) /\
      (forall qmin qmax m0 x0 tmin tmax : list (list Z),
         length qmin = length pmin -> length qmax = length pmin ->
         length m0 = length MINr -> length x0 = length MINr ->
         Forall (fun row => length row = 3%nat) m0 ->
         Forall (fun row => length row = 3%nat) x0 ->
         for_range (length pmin) (length MINr) load_line
           (body, (qmin ++ m0 ++ tmin, qmax ++ x0 ++ tmax)) =
         Some (EmptyString, (qmin ++ MINr ++ tmin, qmax ++ MAXr ++ tmax))).
Proof.
  induction MINr as [|rmin MINr IH];
    intros MAXr pmin pmax HlenX Hlenp Hbound HM HX.
  - destruct MAXr; [|discriminate]. exists EmptyString.
    split; [reflexivity|]. split.
    + intros text. simpl. now rewrite string_append_nil_r.
    + intros qmin qmax m0 x0 tmin tmax _ _ Hm Hx _ _.
      destruct m0; [|discriminate]. destruct x0; [|discriminate]. reflexivity.
  - destruct MAXr as [|rmax MAXr]; [discriminate|].
    apply Forall_cons in HM. destruct HM as [Hrmin HM].
    apply Forall_cons in HX. destruct HX as [Hrmax HX].
    destruct (int_row_shape _ Hrmin) as (a0 & a1 & a2 & -> & Ia0 & Ia1 & Ia2).
    destruct (int_row_shape _ Hrmax) as (b0 & b1 & b2 & -> & Ib0 & Ib1 & Ib2).
    simpl in HlenX, Hbound.
    destruct (IH MAXr (pmin ++ [[a0; a1; a2]]) (pmax ++ [[b0; b1; b2]]))
      as (body' & Hskip & Hsave & Hload); try assumption.
    { lia. }
    { rewrite !length_app. simpl. lia. }
    { rewrite length_app. simpl. lia. }
    assert (Hk : length (pmin ++ [[a0; a1; a2]]) = Datatypes.S (length pmin))
      by (rewrite length_app; simpl; lia).
    rewrite Hk in Hsave, Hload.
    rewrite <- !app_assoc in Hsave. simpl in Hsave.
    set (line := fprintf config_format
                   [Z.of_nat (length pmin); a0; a1; a2; b0; b1; b2]) in *.
    exists (String.append line body').
    split; [apply skip_space_line|]. split.
    + intros text. simpl length. rewrite for_range_S.
      rewrite (save_line_at _ _ _ _ a0 a1 a2 b0 b1 b2);
        [|now apply list_lookup_middle
         |apply list_lookup_middle; lia].
      rewrite bind_Some. fold line. rewrite Hsave.
      now rewrite string_append_assoc.
    + intros qmin qmax m0 x0 tmin tmax Hq1 Hq2 Hm Hx Fm Fx.
      destruct m0 as [|r0 m0]; [discriminate|].
      destruct x0 as [|s0 x0]; [discriminate|].
      apply Forall_cons in Fm. destruct Fm as [Hr0 Fm].
      apply Forall_cons in Fx. destruct Fx as [Hs0 Fx].
      destruct r0 as [|c0 [|c1 [|c2 [|]]]]; try discriminate.
      destruct s0 as [|d0 [|d1 [|d2 [|]]]]; try discriminate.
      simpl length. rewrite for_range_S.
      change (([c0; c1; c2] :: m0) ++ tmin) with ([c0; c1; c2] :: m0 ++ tmin).
      change (([d0; d1; d2] :: x0) ++ tmax) with ([d0; d1; d2] :: x0 ++ tmax).
      change (([a0; a1; a2] :: MINr) ++ tmin) with ([a0; a1; a2] :: MINr ++ tmin).
      change (([b0; b1; b2] :: MAXr) ++ tmax) with ([b0; b1; b2] :: MAXr ++ tmax).
      rewrite (load_line_row (length pmin) (String.append line body') body'
                 [Z.of_nat (length pmin); a0; a1; a2; b0; b1; b2]
                 _ (qmin ++ [a0; a1; a2] :: m0 ++ tmin,
                    qmax ++ [b0; b1; b2] :: x0 ++ tmax)).
      * rewrite bind_Some.
        specialize (Hload (qmin ++ [[a0; a1; a2]]) (qmax ++ [[b0; b1; b2]])
                      m0 x0 tmin tmax).
        rewrite <- !app_assoc in Hload. simpl in Hload.
        apply Hload; try assumption;
          try (rewrite length_app; simpl; lia); simpl in *; lia.
      * apply config_line_round_trip; [|exact Hskip].
        assert (is_int (Z.of_nat (length pmin)) = true)
          by (unfold is_int, INT_MIN, INT_MAX in *; lia).
        repeat constructor; assumption.
      * apply assign_row; lia.
Qed.

(** X24. The round trip holds for any number of channels: with
    [nChannels >= 0] rows of three [int] values in each array, on a file
    that can be written and read, [saveConfigFile] returns 0 and
    [loadConfigFile] on the file it leaves returns 0 with exactly the
    arrays that were saved. *)
Theorem config_round_trip_any_channels (nChannels : Z)
    (MIN MAX MIN0 MAX0 : list (list Z)) (f : ConfigFile) :
  0 <= nChannels -> is_int nChannels = true ->
  is_int_rows (Z.to_nat nChannels) MIN -> is_int_rows (Z.to_nat nChannels) MAX ->
  is_int_rows (Z.to_nat nChannels) MIN0 ->
  is_int_rows (Z.to_nat nChannels) MAX0 ->
  may_write f = true -> may_read f = true ->
  exists f',
    saveConfigFile MIN MAX nChannels f = Some (0, f') /\
    loadConfigFile MIN0 MAX0 nChannels f' = Some (0, (MIN, MAX)).
Proof.
  intros Hn Hint [HlM HM] [HlX HX] [HlM0 HM0] [HlX0 HX0] Hw Hr.
  destruct (rows_round_trip MIN MAX [] []) as (body & _ & Hsave & Hload);
    try assumption; try reflexivity.
  { lia. }
  { simpl. unfold is_int, INT_MIN, INT_MAX in *. lia. }
  simpl in Hsave, Hload. rewrite HlM in Hsave, Hload.
  rewrite saveConfigFile_eq by exact Hw.
  rewrite (Hsave EmptyString), bind_Some, Hr.
  eexists. split; [reflexivity|].
  rewrite loadConfigFile_eq.
  change (String.append EmptyString body) with body.
  assert (HL : for_range 0 (Z.to_nat nChannels) load_line
                 (body, (MIN0, MAX0)) = Some (EmptyString, (MIN, MAX))).
  { specialize (Hload [] [] MIN0 MAX0 [] []).
    rewrite !app_nil_r in Hload. simpl in Hload.
    apply Hload; try reflexivity; try lia.
    - eapply Forall_impl; [exact HM0|]. intros row [H _]. exact H.
    - eapply Forall_impl; [exact HX0|]. intros row [H _]. exact H. }
  rewrite HL. reflexivity.
Qed.

Lemma config_round_trip_any_channels_witness :
  let MIN := [[1; 2; 3]; [-4; 50; 60]] in
  let MAX := [[10; 20; 30]; [40; 0; 60]] in
  let Z2 := [[0; 0; 0]; [0; 0; 0]] in
  exists f',
    saveConfigFile MIN MAX 2 (mkConfigFile None true true) = Some (0, f') /\
    loadConfigFile Z2 Z2 2 f' = Some (0, (MIN, MAX)).
Proof.
  intros MIN MAX Z2.
  apply (config_round_trip_any_channels 2 MIN MAX Z2 Z2
           (mkConfigFile None true true));
    try reflexivity; try lia; (split; [reflexivity | repeat constructor]).
Defined.

Lemma for_range_app {S : Type} (body : nat -> S -> option S)
    (a b start : nat) (s : S) :
  for_range start (a + b) body s =
  (s' ← for_range start a body s; for_range (start + a) b body s').
Proof.
  revert start s. induction a as [|a IH]; intros start s.
  - simpl. now replace (start + 0)%nat with start by lia.
  - simpl. destruct (body start s) as [t|]; [|reflexivity]. simpl.
    rewrite IH. now replace (Datatypes.S start + a)%nat
                      with (start + Datatypes.S a)%nat by lia.
Qed.

(** X25. A file with fewer lines than channels: when [k] channels were
    saved and [nChannels >= k] are loaded, the first [k] rows of both
    arrays take the saved values, the rows after them are not touched
    (they are not even read, so there need not be any), and the call
    still returns 0. *)
Theorem loadConfigFile_shorter_file (kChannels nChannels : Z)
    (MIN MAX m0 x0 tmin tmax : list (list Z)) (f : ConfigFile) :
  0 <= kChannels <= nChannels -> is_int kChannels = true ->
  is_int_rows (Z.to_nat kChannels) MIN -> is_int_rows (Z.to_nat kChannels) MAX ->
  is_int_rows (Z.to_nat kChannels) m0 -> is_int_rows (Z.to_nat kChannels) x0 ->
  may_write f = true -> may_read f = true ->
  exists f',
    saveConfigFile MIN MAX kChannels f = Some (0, f') /\
    loadConfigFile (m0 ++ tmin) (x0 ++ tmax) nChannels f' =
      Some (0, (MIN ++ tmin, MAX ++ tmax)).
Proof.
  intros Hk Hint [HlM HM] [HlX HX] [Hlm Hm] [Hlx Hx] Hw Hr.
  destruct (rows_round_trip MIN MAX [] []) as (body & _ & Hsave & Hload);
    try assumption; try reflexivity.
  { lia. }
  { simpl. unfold is_int, INT_MIN, INT_MAX in *. lia. }
  simpl in Hsave. rewrite HlM in Hsave.
  rewrite saveConfigFile_eq by exact Hw.
  rewrite (Hsave EmptyString), bind_Some, Hr.
  eexists. split; [reflexivity|].
  rewrite loadConfigFile_eq.
  change (String.append EmptyString body) with body.
  replace (Z.to_nat nChannels)
    with (Z.to_nat kChannels + (Z.to_nat nChannels - Z.to_nat kChannels))%nat
    by lia.
  rewrite for_range_app.
  specialize (Hload [] [] m0 x0 tmin tmax). simpl in Hload.
  rewrite HlM in Hload. rewrite Hload; try reflexivity; try lia.
  - rewrite bind_Some. rewrite for_range_idle; [reflexivity|].
    intros i _. apply load_line_nothing. now left.
  - eapply Forall_impl; [exact Hm|]. intros row [H _]. exact H.
  - eapply Forall_impl; [exact Hx|]. intros row [H _]. exact H.
Qed.

Lemma loadConfigFile_shorter_file_witness :
  let MIN := [[1; 2; 3]] in
  let MAX := [[10; 20; 30]] in
  exists f',
    saveConfigFile MIN MAX 1 (mkConfigFile None true true) = Some (0, f') /\
    loadConfigFile ([[0; 0; 0]] ++ [[5; 5; 5]; [6; 6; 6]])
                   ([[0; 0; 0]] ++ [[7; 7; 7]; [8; 8; 8]]) 3 f' =
      Some (0, (MIN ++ [[5; 5; 5]; [6; 6; 6]], MAX ++ [[7; 7; 7]; [8; 8; 8]])).
Proof.
  intros MIN MAX.
  apply (loadConfigFile_shorter_file 1 3 MIN MAX [[0; 0; 0]] [[0; 0; 0]]
           [[5; 5; 5]; [6; 6; 6]] [[7; 7; 7]; [8; 8; 8]]
           (mkConfigFile None true true));
    try reflexivity; try lia; (split; [reflexivity | repeat constructor]).
Defined.
